(** * gidari: the transport orchestrator and the storage transaction handle

    A shallow embedding of two pieces of the gidari sources:

    - [internal/storage/tx.go]: the [Txn] handle, whose three methods are
      short programs over three Go channels;
    - the [transport] package: error values, the configuration records,
      [timeseries.setChunks], [newFetchConfig], the orchestrator
      [Upsert] and the two worker functions [webWorker] and
      [repositoryWorker].

    Go values are modelled as follows.  Machine integers are [Z]; an
    [int64] product is wrapped explicitly ([wrap64]).  A [time.Time] is
    the instant it denotes, counted in nanoseconds as a [Z]; a
    [time.Duration] is its nanosecond count.  A [map[string]string] is a
    [gmap string string]; [url.Values] is a [gmap string (list string)].
    Pointers to [Request], to [url.URL] and to [rate.Limiter] are
    locations in a store, so that writes through an alias are visible to
    every holder and two holders of one object can be told from holders
    of two equal objects.  Calls that leave the package ([time.Parse],
    [url.Parse], [web.NewClient], [repository.NewTx], a repository's
    [Truncate] and [Commit], ...) are fields of an environment record
    [Env]; every such call that has an effect is also recorded in an
    event trace. *)

From Stdlib Require Import ZArith QArith Lia.
From stdpp Require Import gmap strings list fin_maps.

Open Scope string_scope.
Open Scope list_scope.
Open Scope Z_scope.

(** ** Go errors *)

(** The sentinel errors of the transport package, errors coming from
    outside it, and [fmt.Errorf] with one [%w] verb.  [Errorf] keeps the
    format string of the source, the wrapped error and the remaining
    (string) arguments. *)
Inductive error : Type :=
| ErrFetchingTimeseriesChunks
| ErrInvalidRateLimit
| ErrMissingConfigField
| ErrMissingRateLimitField
| ErrMissingTimeseriesField
| ErrSettingTimeseriesChunks
| ErrUnableToParse
| ErrExternal (msg : string)
| Errorf (format : string) (wrapped : error) (args : list string).

(** [errors.Unwrap]: the error under the [%w] verb, if any. *)
Definition Unwrap (e : error) : option error :=
  match e with
  | Errorf _ w _ => Some w
  | _ => None
  end.

(** * internal/storage/tx.go *)

Module Storage.

(** ** Go channels, as one goroutine sees them

    A channel is the part of the runtime's [hchan] that decides what a
    send, a receive and a close do: the queued elements, the capacity,
    the closed flag and the number of receivers parked on the channel (a
    send on an unbuffered channel completes exactly when a receiver is
    parked).  All three channels of a [Txn] are made by its constructor,
    so no channel is nil. *)
Record chan (A : Type) : Type := mkChan {
  buf : list A;
  dataqsiz : nat;
  closed : bool;
  recvq : nat
}.
Arguments mkChan {A} _ _ _ _.
Arguments buf {A} _.
Arguments dataqsiz {A} _.
Arguments closed {A} _.
Arguments recvq {A} _.

(** What one channel operation does: it completes, parks the goroutine,
    or panics with the runtime's message. *)
Inductive chanres (A : Type) : Type :=
| Completes (a : A)
| Parks
| Panics (msg : string).
Arguments Completes {A} _.
Arguments Parks {A}.
Arguments Panics {A} _.

Section ChanOps.
Context {A : Type}.

Definition hasroom (c : chan A) : bool :=
  (length (buf c) <? dataqsiz c + recvq c)%nat.

(** [c <- v] *)
Definition chansend (c : chan A) (v : A) : chanres (chan A) :=
  if closed c then Panics "send on closed channel"
  else if hasroom c
       then Completes (mkChan (buf c ++ [v]) (dataqsiz c) (closed c) (recvq c))
       else Parks.

(** [<-c]; [zero] is the zero value of the element type, received from
    a channel that is closed and drained. *)
Definition chanrecv (zero : A) (c : chan A) : chanres (A * chan A) :=
  match buf c with
  | v :: rest => Completes (v, mkChan rest (dataqsiz c) (closed c) (recvq c))
  | [] => if closed c then Completes (zero, c) else Parks
  end.

(** [close(c)] *)
Definition closechan (c : chan A) : chanres (chan A) :=
  if closed c then Panics "close of closed channel"
  else Completes (mkChan (buf c) (dataqsiz c) true (recvq c)).
End ChanOps.
Arguments hasroom : simpl never.

Section Txn.
(** [TxnChanFn], the closures sent to the driver, stay abstract. *)
Variable TxnChanFn : Type.

(** [type Txn struct { ch; done; commit }].  An [error] value is
    [None] for nil. *)
Record Txn : Type := mkTxn {
  ch : chan TxnChanFn;
  done : chan (option error);
  commit : chan bool
}.

(** The channel operations the three methods perform. *)
Inductive op : Type -> Type :=
| CloseCh : op unit
| SendCh (fn : TxnChanFn) : op unit
| SendCommit (b : bool) : op unit
| RecvDone : op (option error).

(** A method body: a sequence of channel operations ending in a
    [return]. *)
Inductive prog (R : Type) : Type :=
| Return (r : R)
| Do {X : Type} (o : op X) (k : X -> prog R).
Arguments Return {R} _.
Arguments Do {R X} _ _.

(** [func (txn *Txn) Commit() error] and [Rollback]: the two bodies
    differ in the boolean only. *)
Definition Commit : prog (option error) :=
  Do CloseCh (fun _ =>
  Do (SendCommit true) (fun _ =>
  Do RecvDone (fun status => Return status))).

Definition Rollback : prog (option error) :=
  Do CloseCh (fun _ =>
  Do (SendCommit false) (fun _ =>
  Do RecvDone (fun status => Return status))).

(** [Commit] or [Rollback], named by the decision it pushes. *)
Definition finish (decision : bool) : prog (option error) :=
  if decision then Commit else Rollback.

(** [func (txn *Txn) Send(fn TxnChanFn)] *)
Definition Send (fn : TxnChanFn) : prog unit :=
  Do (SendCh fn) (fun _ => Return tt).

(** One operation on the transaction's channels. *)
Definition exec {X : Type} (o : op X) (t : Txn) : chanres (X * Txn) :=
  match o in op X return chanres (X * Txn) with
  | CloseCh =>
      match closechan (ch t) with
      | Completes c => Completes (tt, mkTxn c (done t) (commit t))
      | Parks => Parks
      | Panics m => Panics m
      end
  | SendCh fn =>
      match chansend (ch t) fn with
      | Completes c => Completes (tt, mkTxn c (done t) (commit t))
      | Parks => Parks
      | Panics m => Panics m
      end
  | SendCommit b =>
      match chansend (commit t) b with
      | Completes c => Completes (tt, mkTxn (ch t) (done t) c)
      | Parks => Parks
      | Panics m => Panics m
      end
  | RecvDone =>
      match chanrecv None (done t) with
      | Completes (v, c) => Completes (v, mkTxn (ch t) c (commit t))
      | Parks => Parks
      | Panics m => Panics m
      end
  end.

(** How far a method gets on its own: it returns, it is parked at one
    of its operations (the rest of the body is kept, to be resumed
    once another goroutine has changed the channels), or it panics. *)
Inductive outcome (R : Type) : Type :=
| Returned (r : R) (t : Txn)
| Blocked (rest : prog R) (t : Txn)
| Panicked (msg : string) (t : Txn).
Arguments Returned {R} _ _.
Arguments Blocked {R} _ _.
Arguments Panicked {R} _ _.

Fixpoint run {R : Type} (p : prog R) (t : Txn) : outcome R :=
  match p with
  | Return r => Returned r t
  | Do o k =>
      match exec o t with
      | Completes (x, t') => run (k x) t'
      | Parks => Blocked p t
      | Panics m => Panicked m t
      end
  end.

(** The transaction as the method left it. *)
Definition after {R : Type} (o : outcome R) : Txn :=
  match o with
  | Returned _ t | Blocked _ t | Panicked _ t => t
  end.

(** What the driver does when it is through: its status arrives on
    [done]. *)
Definition deliver (status : option error) (t : Txn) : Txn :=
  mkTxn (ch t)
        (mkChan (buf (done t) ++ [status]) (dataqsiz (done t)) (closed (done t))
                (recvq (done t)))
        (commit t).

(** The channel operations of a body, in program order.  The value
    handed to a continuation does not change which operations follow in
    these bodies, so the walk feeds each continuation a default. *)
Inductive opname : Type :=
| OpCloseCh
| OpSendCh (fn : TxnChanFn)
| OpSendCommit (b : bool)
| OpRecvDone.

Definition name_of {X : Type} (o : op X) : opname * X :=
  match o in op X return opname * X with
  | CloseCh => (OpCloseCh, tt)
  | SendCh fn => (OpSendCh fn, tt)
  | SendCommit b => (OpSendCommit b, tt)
  | RecvDone => (OpRecvDone, None)
  end.

Fixpoint ops {R : Type} (p : prog R) : list opname :=
  match p with
  | Return _ => []
  | Do o k => fst (name_of o) :: ops (k (snd (name_of o)))
  end.

(** Two bodies called one after the other by the same goroutine:
    [r := p(); k(r)]. *)
Fixpoint andThen {R S : Type} (p : prog R) (k : R -> prog S) : prog S :=
  match p with
  | Return r => k r
  | Do o f => Do o (fun x => andThen (f x) k)
  end.

(** [for _, fn := range fns { txn.Send(fn) }] *)
Fixpoint sendAll (fns : list TxnChanFn) : prog unit :=
  match fns with
  | [] => Return tt
  | fn :: fns' => andThen (Send fn) (fun _ => sendAll fns')
  end.

(** The free slots of the submission channel, as a sender sees them. *)
Definition room (t : Txn) : nat :=
  dataqsiz (ch t) + recvq (ch t) - length (buf (ch t)).

End Txn.

Arguments Return {TxnChanFn R} _.
Arguments Do {TxnChanFn R X} _ _.
Arguments Returned {TxnChanFn R} _ _.
Arguments Blocked {TxnChanFn R} _ _.
Arguments Panicked {TxnChanFn R} _ _.
Arguments mkTxn {TxnChanFn} _ _ _.
Arguments ch {TxnChanFn} _.
Arguments done {TxnChanFn} _.
Arguments commit {TxnChanFn} _.
Arguments run {TxnChanFn R} _ _.
Arguments after {TxnChanFn R} _.
Arguments ops {TxnChanFn R} _.
Arguments Commit {TxnChanFn}.
Arguments Rollback {TxnChanFn}.
Arguments Send {TxnChanFn} _.
Arguments finish {TxnChanFn} _.
Arguments deliver {TxnChanFn} _ _.
Arguments CloseCh {TxnChanFn}.
Arguments SendCh {TxnChanFn} _.
Arguments SendCommit {TxnChanFn} _.
Arguments RecvDone {TxnChanFn}.
Arguments OpCloseCh {TxnChanFn}.
Arguments OpSendCh {TxnChanFn} _.
Arguments OpSendCommit {TxnChanFn} _.
Arguments OpRecvDone {TxnChanFn}.
Arguments andThen {TxnChanFn R S} _ _.
Arguments sendAll {TxnChanFn} _.
Arguments room {TxnChanFn} _.

End Storage.

(** * The transport package *)

Module Transport.

(** ** Error constructors *)

Definition MissingConfigFieldError (field : string) : error :=
  Errorf "%w: %s" ErrMissingConfigField [field].

Definition MissingRateLimitFieldError (field : string) : error :=
  Errorf "%w: %s" ErrMissingRateLimitField [field].

Definition MissingTimeseriesFieldError (field : string) : error :=
  Errorf "%w: %s" ErrMissingTimeseriesField [field].

Definition UnableToParseError (name : string) : error :=
  Errorf "%s %w" ErrUnableToParse [name].

Definition WrapRepositoryError (err : error) : error :=
  Errorf "repository: %w" err [].

Definition WrapWebError (err : error) : error :=
  Errorf "web: %w" err [].

(** A Go [(value, error)] pair of which exactly one is meaningful. *)
Inductive result (A : Type) : Type :=
| OK (a : A)
| Fail (err : error).
Arguments OK {A} _.
Arguments Fail {A} _.

(** ** Time *)

(** An instant, in nanoseconds.  The instants met here come from
    [time.Parse] and from adding whole seconds to them; they stay far
    from the limits of Go's representation, which is therefore not
    modelled. *)
Definition Time : Type := Z.

(** [time.Duration], an [int64] count of nanoseconds. *)
Definition Duration : Type := Z.

Definition Second : Duration := 1000000000.

Definition wrap64 (z : Z) : Z := (z + 2 ^ 63) mod 2 ^ 64 - 2 ^ 63.

Definition Before (t u : Time) : bool := t <? u.

Definition Add (t : Time) (d : Duration) : Time := t + d.

Definition RFC3339 : string := "2006-01-02T15:04:05Z07:00".

(** ** URLs *)

(** [url.Values]. *)
Abbreviation Values := (gmap string (list string)).

(** A [url.URL].  The query string is kept decoded: [RawQuery] holds
    what [URL.Query()] returns, and assigning [query.Encode()] to
    [RawQuery] stores the values encoded.  [Rest] stands for the other
    components. *)
Record url_URL : Type := mkURL {
  Rest : string;
  RawQuery : Values
}.

(** [query[name]]: indexing a Go map gives the zero value, a nil slice,
    for a key that is not there. *)
Definition index (query : Values) (name : string) : list string :=
  default [] (query !! name).

(** [for n, v := range q { query.Set(n, v) }]: [Set] replaces whatever
    values the key had by the single value [v].  The keys of a map are
    distinct, so the order of the iteration does not matter. *)
Definition setAll (q : gmap string string) (query : Values) : Values :=
  ((fun v => [v]) <$> q) ∪ query.

(** ** Environment: everything called outside the package *)

Inductive Signer : Type :=
| APIKeySigner (url key passphrase secret : string)
| Auth2Signer (bearer url : string).

(** A [*web.Client], known by the signer it was built with. *)
Record Client : Type := mkClient { signer : Signer }.

(** A [repository.Generic], known by its position in [DNSList] and its
    connection string. *)
Record Repo : Type := mkRepo { repo_index : nat; repo_dns : string }.

Record Env : Type := mkEnv {
  time_Parse : string -> string -> option Time;
  time_Format : string -> Time -> string;
  url_JoinPath : string -> string -> result string;
  url_Parse : string -> result url_URL;
  web_NewClient : Signer -> option error;
  web_FailedToCreateClientError : error -> error;
  repository_NewTx : nat -> string -> option error;
  repository_FailedToCreateRepositoryError : error -> error;
  repo_Truncate : Repo -> list string -> option error;
  repo_Commit : Repo -> option error;
  repo_Scheme : Repo -> string;
  runtime_NumCPU : nat;
  (** Whether the two worker pools take every enqueued job and signal
      its completion.  They may not: a worker that meets an error ends
      the process with [logger.Fatal]. *)
  workers_finish : nat -> list Repo -> bool
}.

(** ** Configuration types *)

Record APIKey : Type := mkAPIKey {
  Passphrase : string;
  Key : string;
  Secret : string
}.

Record Auth2 : Type := mkAuth2 { Bearer : string }.

Record Authentication : Type := mkAuthentication {
  apiKey : option APIKey;
  auth2 : option Auth2
}.

Module timeseries.

Record t : Type := mk {
  StartName : string;
  EndName : string;
  (** [int32], the size of a chunk in seconds *)
  Period : Z;
  Layout : option string;
  chunks : list (Time * Time)
}.

(** What a call of [setChunks] comes to: it returns (nil or an error),
    or its loop is still running when the fuel is spent. *)
Inductive ending : Type :=
| Returns (err : option error)
| Running.

(** The [for start.Before(end)] loop.  One unit of fuel pays for one
    evaluation of the loop condition. *)
Fixpoint loop (fuel : nat) (period : Duration) (end_ start : Time)
    (chunks : list (Time * Time)) : option (list (Time * Time)) :=
  match fuel with
  | O => None
  | S fuel' =>
      if Before start end_ then
        let next := Add start period in
        if Before next end_
        then loop fuel' period end_ next (chunks ++ [(start, next)])
        else loop fuel' period end_ next (chunks ++ [(start, end_)])
      else Some chunks
  end.

(** The layout in force: [if ts.Layout == nil { ts.Layout = &RFC3339 }]. *)
Definition layoutOf (ts : t) : string :=
  match Layout ts with
  | Some layout => layout
  | None => RFC3339
  end.

(** [func (ts *timeseries) setChunks(url *url.URL) error].  The
    receiver is a pointer: the struct as the call leaves it is returned
    next to the ending.  The URL is only read. *)
Definition setChunks (env : Env) (fuel : nat) (ts : t) (url : url_URL)
    : t * ending :=
  let layout := layoutOf ts in
  let ts := mk (StartName ts) (EndName ts) (Period ts) (Some layout) (chunks ts) in
  let query := RawQuery url in
  let startSlice := index query (StartName ts) in
  match startSlice with
  | [startValue] =>
      match time_Parse env layout startValue with
      | None => (ts, Returns (Some (UnableToParseError "startTime")))
      | Some start =>
          let endSlice := index query (EndName ts) in
          match endSlice with
          | [endValue] =>
              match time_Parse env layout endValue with
              | None => (ts, Returns (Some (UnableToParseError "endTime")))
              | Some end_ =>
                  match loop fuel (wrap64 (Second * Period ts)) end_ start (chunks ts) with
                  | Some cs =>
                      (mk (StartName ts) (EndName ts) (Period ts) (Some layout) cs,
                       Returns None)
                  | None => (ts, Running)
                  end
              end
          | _ => (ts, Returns (Some (MissingTimeseriesFieldError "endName")))
          end
      end
  | _ => (ts, Returns (Some (MissingTimeseriesFieldError "startName")))
  end.

End timeseries.

Module Request.
Record t : Type := mk {
  Method : string;
  Endpoint : string;
  RateLimitBurstCap : Z;
  (** a Go map: [None] is the nil map *)
  Query : option (gmap string string);
  Timeseries : option timeseries.t;
  Table : option string
}.
End Request.

Module RateLimitConfig.
Record t : Type := mk {
  Burst : option Z;
  Period : option Duration
}.

Definition validate (rl : t) : option error :=
  match Burst rl with
  | None => Some (MissingRateLimitFieldError "burst")
  | Some _ =>
      match Period rl with
      | None => Some (MissingRateLimitFieldError "period")
      | Some _ => None
      end
  end.
End RateLimitConfig.

(** ** golang.org/x/time/rate *)

Module rate.
(** [rate.Limit], events per second; the float is read as the rational
    it approximates. *)
Inductive Limit : Type :=
| Inf
| PerSecond (q : Q).

(** [d.Seconds()] *)
Definition Seconds (d : Duration) : Q := Qmake d 1000000000.

(** [rate.Every]: [if interval <= 0 { return Inf }; return 1 /
    Limit(interval.Seconds())]. *)
Definition Every (interval : Duration) : Limit :=
  if interval <=? 0 then Inf else PerSecond (Qinv (Seconds interval)).

(** A [rate.Limiter], with the two values [rate.NewLimiter] is given.
    The code holds limiters by pointer: a [*rate.Limiter] is a location
    of the store below. *)
Record Limiter : Type := NewLimiter { limit : Limit; burst : Z }.
End rate.

Module web.
Record FetchConfig : Type := mkFetchConfig {
  C : option Client;
  Method : string;
  (** a [*url.URL] *)
  URL : positive;
  (** a [*rate.Limiter] *)
  RateLimiter : positive
}.
End web.

Record flattenedRequest : Type := mkFlattenedRequest {
  fetchConfig : web.FetchConfig;
  table : option string
}.

(** ** The store and the trace *)

(** The objects reached through pointers that [Upsert] shares with its
    caller or creates: the requests of the configuration, the parsed
    URLs and the rate limiters.  A request's map and timeseries live in
    the request's cell: the code reaches them through the request only.
    A location without a cell plays the part of a nil pointer. *)
Record Store : Type := mkStore {
  requests : gmap positive Request.t;
  urls : gmap positive url_URL;
  limiters : gmap positive rate.Limiter
}.

(** What the orchestrating goroutine does to the world. *)
Inductive Event : Type :=
| EvNewClient (s : Signer)
| EvNewTx (i : nat) (dns : string)
| EvLog (format : string) (args : list string)
| EvTruncate (repo : Repo) (tables : list string)
| EvGo (worker : string) (id : nat)
| EvEnqueue (job : flattenedRequest)
| EvAwaitDone
| EvCommit (repo : Repo)
| EvRollback (repo : Repo).

(** Why a function stops before its end: a non-nil error goes back to
    the caller of [Upsert], the goroutine panics, the [setChunks] loop
    outlives the fuel, or the completions awaited never come. *)
Inductive Halt : Type :=
| Err (err : error)
| Panic (msg : string)
| OutOfFuel
| Stuck.

(** A computation reads and writes the store, emits events in order,
    and either yields a value or halts. *)
Definition M (A : Type) : Type := Store -> (A + Halt) * Store * list Event.

Definition returned {A : Type} (x : (A + Halt) * Store * list Event) : A + Halt :=
  fst (fst x).

Definition store {A : Type} (x : (A + Halt) * Store * list Event) : Store :=
  snd (fst x).

Definition trace {A : Type} (x : (A + Halt) * Store * list Event) : list Event :=
  snd x.

Definition ret {A : Type} (a : A) : M A := fun st => (inl a, st, []).

Definition bind {A B : Type} (m : M A) (k : A -> M B) : M B :=
  fun st =>
    match m st with
    | (inl a, st1, evs1) =>
        match k a st1 with
        | (r, st2, evs2) => (r, st2, evs1 ++ evs2)
        end
    | (inr h, st1, evs1) => (inr h, st1, evs1)
    end.

Definition halt {A : Type} (h : Halt) : M A := fun st => (inr h, st, []).

Notation "'do' x <- m ; k" := (bind m (fun x => k))
  (at level 10, x name, m at level 100, k at level 200).
Notation "'do' ' p <- m ; k" := (bind m (fun x => match x with p => k end))
  (at level 10, p pattern, m at level 100, k at level 200).
Notation "m ;; k" := (bind m (fun _ => k))
  (at level 100, k at level 200, right associativity).

Definition emit (ev : Event) : M unit := fun st => (inl tt, st, [ev]).

Definition nilDereference : Halt :=
  Panic "invalid memory address or nil pointer dereference".

(** [*req] *)
Definition deref (req : positive) : M Request.t :=
  fun st =>
    match requests st !! req with
    | Some r => (inl r, st, [])
    | None => (inr nilDereference, st, [])
    end.

(** [*req = r] *)
Definition assign (req : positive) (r : Request.t) : M unit :=
  fun st => (inl tt, mkStore (<[req := r]> (requests st)) (urls st) (limiters st), []).

Definition derefURL (u : positive) : M url_URL :=
  fun st =>
    match urls st !! u with
    | Some v => (inl v, st, [])
    | None => (inr nilDereference, st, [])
    end.

(** A new [url.URL] at an address not in use. *)
Definition newURL (v : url_URL) : M positive :=
  fun st =>
    let u := fresh (dom (urls st)) in
    (inl u, mkStore (requests st) (<[u := v]> (urls st)) (limiters st), []).

(** A new [rate.Limiter] at an address not in use. *)
Definition newLimiter (v : rate.Limiter) : M positive :=
  fun st =>
    let l := fresh (dom (limiters st)) in
    (inl l, mkStore (requests st) (urls st) (<[l := v]> (limiters st)), []).

(** [if err != nil { return wrap(err) }] *)
Definition try {A : Type} (r : result A) (wrap : error -> error) : M A :=
  match r with
  | OK a => ret a
  | Fail err => halt (Err (wrap err))
  end.

(** [for _, x := range l { body }], with the variables the body updates
    passed from one iteration to the next.  A [return] in the body is a
    halt, which ends the loop. *)
Fixpoint range {A B : Type} (l : list A) (body : B -> A -> M B) (vars : B) : M B :=
  match l with
  | [] => ret vars
  | x :: l' => do vars' <- body vars x; range l' body vars'
  end.

(** ** Config and its methods *)

Inductive logrus_Logger : Type := StandardLogger.

Module Config.
Record t : Type := mk {
  URL : string;
  Authentication : Authentication;
  DNSList : list string;
  (** [[]*Request] *)
  Requests : list positive;
  RateLimitConfig : option RateLimitConfig.t;
  Logger : option logrus_Logger;
  Truncate : bool
}.

(** [cfg.Logger.Info(tools.LogFormatter{Msg: fmt.Sprintf(format,
    args...)}.String())]; the line is known by its message.  A method
    of a nil [*logrus.Logger] reads through the nil pointer. *)
Definition log (cfg : t) (format : string) (args : list string) : M unit :=
  match Logger cfg with
  | Some _ => emit (EvLog format args)
  | None => halt nilDereference
  end.

Definition connect (env : Env) (cfg : t) : M (result (option Client)) :=
  match apiKey (Authentication cfg) with
  | Some k =>
      let s := APIKeySigner (URL cfg) (Key k) (Passphrase k) (Secret k) in
      emit (EvNewClient s);;
      match web_NewClient env s with
      | Some err => ret (Fail (WrapWebError (web_FailedToCreateClientError env err)))
      | None => ret (OK (Some (mkClient s)))
      end
  | None =>
      match auth2 (Authentication cfg) with
      | Some k =>
          let s := Auth2Signer (Bearer k) (URL cfg) in
          emit (EvNewClient s);;
          match web_NewClient env s with
          | Some err => ret (Fail (WrapWebError (web_FailedToCreateClientError env err)))
          | None => ret (OK (Some (mkClient s)))
          end
      | None => ret (OK None)
      end
  end.

(** The loop of [repos]; [i] is the position of the next connection
    string in [DNSList]. *)
Fixpoint reposFrom (env : Env) (cfg : t) (i : nat) (dnss : list string)
    (repos : list Repo) : M (result (list Repo)) :=
  match dnss with
  | [] => ret (OK repos)
  | dns :: dnss' =>
      emit (EvNewTx i dns);;
      match repository_NewTx env i dns with
      | Some err =>
          ret (Fail (WrapRepositoryError (repository_FailedToCreateRepositoryError env err)))
      | None =>
          log cfg "created repository for %q" [dns];;
          reposFrom env cfg (S i) dnss' (repos ++ [mkRepo i dns])
      end
  end.

Definition repos (env : Env) (cfg : t) : M (result (list Repo)) :=
  reposFrom env cfg 0 (DNSList cfg) [].

Definition validate (cfg : t) : option error :=
  match RateLimitConfig cfg with
  | None => Some (MissingConfigFieldError "rateLimit")
  | Some rl =>
      match RateLimitConfig.validate rl with
      | Some _ => Some ErrInvalidRateLimit
      | None => None
      end
  end.
End Config.

(** ** newFetchConfig *)

Definition newFetchConfig (env : Env) (cfg : Config.t) (req : positive)
    (client : option Client) (rateLimiter : positive)
    : M (result web.FetchConfig) :=
  do r <- deref req;
  match url_JoinPath env (Config.URL cfg) (Request.Endpoint r) with
  | Fail err =>
      ret (Fail (Errorf "error joining url %q to endpoint %q: %w" err
                        [Config.URL cfg; Request.Endpoint r]))
  | OK rawURL =>
      match url_Parse env rawURL with
      | Fail err => ret (Fail (Errorf "error parsing raw url %q: %w" err [rawURL]))
      | OK uri =>
          let uri :=
            match Request.Query r with
            | Some q => mkURL (Rest uri) (setAll q (RawQuery uri))
            | None => uri
            end in
          do u <- newURL uri;
          ret (OK (web.mkFetchConfig client (Request.Method r) u rateLimiter))
      end
  end.

(** ** Upsert *)

(** [req.Query[name] = value], a write into the map the request points
    to; a nil map cannot be written. *)
Definition setQuery (req : positive) (name value : string) : M unit :=
  do r <- deref req;
  match Request.Query r with
  | None => halt (Panic "assignment to entry in nil map")
  | Some q =>
      assign req (Request.mk (Request.Method r) (Request.Endpoint r)
                             (Request.RateLimitBurstCap r)
                             (Some (<[name := value]> q))
                             (Request.Timeseries r) (Request.Table r))
  end.

(** The limiter of [rate.NewLimiter(rate.Every(rateLimitPeriodS),
    burst)] for the values the two pointers of the rate-limit
    configuration hold; the division of two [int64] truncates. *)
Definition newRateLimiter (period : Duration) (burst : Z) : rate.Limiter :=
  let rateLimitPeriodS := period ÷ Second in
  rate.NewLimiter (rate.Every rateLimitPeriodS) burst.

(** [rateLimiter := rate.NewLimiter(...)]: the call returns a pointer to
    a limiter it has allocated. *)
Definition rateLimiterOf (cfg : Config.t) : M positive :=
  match Config.RateLimitConfig cfg with
  | Some rl =>
      match RateLimitConfig.Period rl, RateLimitConfig.Burst rl with
      | Some period, Some burst => newLimiter (newRateLimiter period burst)
      | _, _ => halt nilDereference
      end
  | None => halt nilDereference
  end.

(** The body of [for _, chunk := range timeseries.chunks].  [chunkReq :=
    req] copies the pointer: [chunkReq] and [req] are one request. *)
Definition chunkBody (env : Env) (cfg : Config.t) (req : positive)
    (client : option Client) (rateLimiter : positive)
    (flattenedRequests : list flattenedRequest) (chunk : Time * Time)
    : M (list flattenedRequest) :=
  let chunkReq := req in
  do r <- deref req;
  match Request.Timeseries r with
  | None => halt nilDereference
  | Some ts =>
      match timeseries.Layout ts with
      | None => halt nilDereference
      | Some layout =>
          setQuery chunkReq (timeseries.StartName ts) (time_Format env layout (fst chunk));;
          setQuery chunkReq (timeseries.EndName ts) (time_Format env layout (snd chunk));;
          do res <- newFetchConfig env cfg chunkReq client rateLimiter;
          match res with
          | Fail _ => halt (Err ErrFetchingTimeseriesChunks)
          | OK chunkedFetchConfig =>
              do r <- deref req;
              ret (flattenedRequests
                     ++ [mkFlattenedRequest chunkedFetchConfig (Request.Table r)])
          end
      end
  end.

(** [if req.Method == "" { req.Method = http.MethodGet }], a write
    through the pointer. *)
Definition defaultMethod (req : positive) : M unit :=
  do r <- deref req;
  if decide (Request.Method r = "")
  then assign req (Request.mk "GET" (Request.Endpoint r) (Request.RateLimitBurstCap r)
                              (Request.Query r) (Request.Timeseries r) (Request.Table r))
  else ret tt.

(** What [setChunks] has written through [req.Timeseries]. *)
Definition setTimeseries (req : positive) (ts : timeseries.t) : M unit :=
  do r <- deref req;
  assign req (Request.mk (Request.Method r) (Request.Endpoint r)
                         (Request.RateLimitBurstCap r) (Request.Query r)
                         (Some ts) (Request.Table r)).

(** The body of [for _, req := range cfg.Requests]; the loop carries
    [flattenedRequests] and [truncateRequest.Tables]. *)
Definition requestBody (env : Env) (fuel : nat) (cfg : Config.t)
    (client : option Client) (rateLimiter : positive)
    (vars : list flattenedRequest * list string) (req : positive)
    : M (list flattenedRequest * list string) :=
  let '(flattenedRequests, tables) := vars in
  defaultMethod req;;
  do res <- newFetchConfig env cfg req client rateLimiter;
  do fetchConfig <- try res (fun err => err);
  do r <- deref req;
  do flattenedRequests <-
    match Request.Timeseries r with
    | Some ts =>
        let xurl := web.URL fetchConfig in
        do u <- derefURL xurl;
        let '(ts', ending) := timeseries.setChunks env fuel ts u in
        setTimeseries req ts';;
        match ending with
        | timeseries.Running => halt OutOfFuel
        | timeseries.Returns (Some _) => halt (Err ErrSettingTimeseriesChunks)
        | timeseries.Returns None =>
            range (timeseries.chunks ts')
                  (chunkBody env cfg req client rateLimiter) flattenedRequests
        end
    | None =>
        ret (flattenedRequests ++ [mkFlattenedRequest fetchConfig (Request.Table r)])
    end;
  do r <- deref req;
  match Request.Table r with
  | Some table => ret (flattenedRequests, tables ++ [table])
  | None => ret (flattenedRequests, tables)
  end.

(** The body of [for _, repo := range repos] under [if cfg.Truncate]. *)
Definition truncateBody (env : Env) (cfg : Config.t) (tables : list string)
    (_ : unit) (repo : Repo) : M unit :=
  emit (EvTruncate repo tables);;
  match repo_Truncate env repo tables with
  | Some err => halt (Err (Errorf "unable to truncate tables: %w" err []))
  | None =>
      Config.log cfg "truncated tables on %q: %v"
                 [repo_Scheme env repo; String.concat ", " tables]
  end.

(** The body of the last loop, [repo.Commit()]. *)
Definition commitBody (env : Env) (_ : unit) (repo : Repo) : M unit :=
  emit (EvCommit repo);;
  match repo_Commit env repo with
  | Some err => halt (Err (Errorf "unable to commit transaction: %w" err []))
  | None => ret tt
  end.

(** [for id := 1; id <= runtime.NumCPU(); id++ { go worker(ctx, id, ...) }] *)
Definition startWorkers (env : Env) (worker : string) : M unit :=
  range (seq 1 (runtime_NumCPU env)) (fun _ id => emit (EvGo worker id)) tt.

(** [for a := 1; a <= len(flattenedRequests); a++ { <-done }].  With
    nothing to await the loop is skipped; otherwise it ends if the
    workers finish every job. *)
Definition awaitDone (env : Env) (flattenedRequests : list flattenedRequest)
    (repos : list Repo) : M unit :=
  match flattenedRequests with
  | [] => ret tt
  | _ :: _ =>
      if workers_finish env (length flattenedRequests) repos
      then range flattenedRequests (fun _ _ => emit EvAwaitDone) tt
      else halt Stuck
  end.

(** [func Upsert(ctx context.Context, cfg *Config) error].  A nil error
    is [inl tt]; a non-nil one is the halt [Err]. *)
Definition Upsert (env : Env) (fuel : nat) (cfg : Config.t) : M unit :=
  match Config.validate cfg with
  | Some err => halt (Err err)
  | None =>
      do res <- Config.connect env cfg;
      do client <- try res (fun err => Errorf "unable to connect to client: %w" err []);
      Config.log cfg "connection establed: %s" [Config.URL cfg];;
      do res <- Config.repos env cfg;
      do repos <- try res (fun err => err);
      do rateLimiter <- rateLimiterOf cfg;
      do '(flattenedRequests, tables) <-
        range (Config.Requests cfg)
              (requestBody env fuel cfg client rateLimiter) ([], []);
      (if Config.Truncate cfg
       then range repos (truncateBody env cfg tables) tt
       else ret tt);;
      startWorkers env "repositoryWorker";;
      Config.log cfg "repository workers started" [];;
      startWorkers env "webWorker";;
      Config.log cfg "web workers started" [];;
      range flattenedRequests (fun _ job => emit (EvEnqueue job)) tt;;
      Config.log cfg "web worker jobs enqueued" [];;
      awaitDone env flattenedRequests repos;;
      range repos (commitBody env) tt;;
      Config.log cfg "upsert completed" []
  end.

(** ** Properties of computations *)

(** [emits φ m]: every event [m] emits satisfies [φ], whatever the store
    and however [m] ends. *)
Definition emits {A : Type} (φ : Event -> Prop) (m : M A) : Prop :=
  forall st, Forall φ (trace (m st)).

(** [keeps R m]: the store [m] leaves is related by [R] to the store it
    found. *)
Definition keeps {A : Type} (R : Store -> Store -> Prop) (m : M A) : Prop :=
  forall st, R st (store (m st)).

(** ** The body of Upsert, by parts

    The source marks the parts of the body by comments; each part is
    named here, and [Upsert] is shown below to be their sequence. *)

(** From [cfg.connect] to the end of the loop over [cfg.Requests]. *)
Definition prepare (env : Env) (fuel : nat) (cfg : Config.t)
    : M (list Repo * list flattenedRequest * list string) :=
  do res <- Config.connect env cfg;
  do client <- try res (fun err => Errorf "unable to connect to client: %w" err []);
  Config.log cfg "connection establed: %s" [Config.URL cfg];;
  do res <- Config.repos env cfg;
  do repos <- try res (fun err => err);
  do rateLimiter <- rateLimiterOf cfg;
  do '(flattenedRequests, tables) <-
    range (Config.Requests cfg)
          (requestBody env fuel cfg client rateLimiter) ([], []);
  ret (repos, flattenedRequests, tables).

(** [// Truncate the tables before upserting data.] *)
Definition truncateTables (env : Env) (cfg : Config.t) (repos : list Repo)
    (tables : list string) : M unit :=
  if Config.Truncate cfg
  then range repos (truncateBody env cfg tables) tt
  else ret tt.

(** From the start of the repository workers to the last completion
    awaited. *)
Definition runWorkers (env : Env) (cfg : Config.t)
    (flattenedRequests : list flattenedRequest) (repos : list Repo) : M unit :=
  startWorkers env "repositoryWorker";;
  Config.log cfg "repository workers started" [];;
  startWorkers env "webWorker";;
  Config.log cfg "web workers started" [];;
  range flattenedRequests (fun _ job => emit (EvEnqueue job)) tt;;
  Config.log cfg "web worker jobs enqueued" [];;
  awaitDone env flattenedRequests repos.

(** [// Commit the transactions and check for errors.] *)
Definition commitAll (env : Env) (repos : list Repo) : M unit :=
  range repos (commitBody env) tt.

Definition UpsertByParts (env : Env) (fuel : nat) (cfg : Config.t) : M unit :=
  match Config.validate cfg with
  | Some err => halt (Err err)
  | None =>
      do '(repos, flattenedRequests, tables) <- prepare env fuel cfg;
      truncateTables env cfg repos tables;;
      runWorkers env cfg flattenedRequests repos;;
      commitAll env repos;;
      Config.log cfg "upsert completed" []
  end.

(** ** Vocabulary of the statements *)

(** The repositories of a configuration, in the order of [DNSList]. *)
Definition reposOf (cfg : Config.t) : list Repo :=
  imap mkRepo (Config.DNSList cfg).

(** The table names of the requests, in the order of the requests, one
    for each request that has a table. *)
Definition tablesOf (st : Store) (reqs : list positive) : list string :=
  omap (fun req => requests st !! req ≫= Request.Table) reqs.

(** The calls of [Truncate] and of [Commit] in a trace, in order. *)
Definition truncated (t : list Event) : list (Repo * list string) :=
  omap (fun ev => match ev with EvTruncate repo tables => Some (repo, tables) | _ => None end) t.

Definition committed (t : list Event) : list Repo :=
  omap (fun ev => match ev with EvCommit repo => Some repo | _ => None end) t.

(** What planning may do to the store: it never changes the table of a
    request, never creates or drops a request, and never changes a URL
    that exists. *)
Definition grows (st st' : Store) : Prop :=
  (forall req, Request.Table <$> requests st' !! req = Request.Table <$> requests st !! req)
  /\ urls st ⊆ urls st'.

(** A request with another query map, and with another timeseries. *)
Definition withQuery (r : Request.t) (q : option (gmap string string)) : Request.t :=
  Request.mk (Request.Method r) (Request.Endpoint r) (Request.RateLimitBurstCap r) q
             (Request.Timeseries r) (Request.Table r).

Definition withTimeseries (r : Request.t) (ts : timeseries.t) : Request.t :=
  Request.mk (Request.Method r) (Request.Endpoint r) (Request.RateLimitBurstCap r)
             (Request.Query r) (Some ts) (Request.Table r).

(** The request after [defaultMethod]. *)
Definition defaulted (r : Request.t) : Request.t :=
  if decide (Request.Method r = "")
  then Request.mk "GET" (Request.Endpoint r) (Request.RateLimitBurstCap r)
                  (Request.Query r) (Request.Timeseries r) (Request.Table r)
  else r.

(** The URL [newFetchConfig] builds for a request. *)
Definition builtURL (env : Env) (cfg : Config.t) (r : Request.t) : result url_URL :=
  match url_JoinPath env (Config.URL cfg) (Request.Endpoint r) with
  | Fail err =>
      Fail (Errorf "error joining url %q to endpoint %q: %w" err
                   [Config.URL cfg; Request.Endpoint r])
  | OK rawURL =>
      match url_Parse env rawURL with
      | Fail err => Fail (Errorf "error parsing raw url %q: %w" err [rawURL])
      | OK uri =>
          OK match Request.Query r with
             | Some q => mkURL (Rest uri) (setAll q (RawQuery uri))
             | None => uri
             end
      end
  end.

(** The two boundaries of a chunk, formatted with the layout of the
    timeseries, and a query map in which they have been written under
    the names of the timeseries. *)
Definition boundaries (env : Env) (ts : timeseries.t) (chunk : Time * Time)
    : string * string :=
  (time_Format env (timeseries.layoutOf ts) (fst chunk),
   time_Format env (timeseries.layoutOf ts) (snd chunk)).

Definition written (env : Env) (ts : timeseries.t) (chunk : Time * Time)
    (q : gmap string string) : gmap string string :=
  <[timeseries.EndName ts := snd (boundaries env ts chunk)]>
    (<[timeseries.StartName ts := fst (boundaries env ts chunk)]> q).

(** The query map holds the boundaries of the chunk; the URL carries
    them, each as the one value of its name. *)
Definition holds (env : Env) (ts : timeseries.t) (chunk : Time * Time)
    (q : gmap string string) : Prop :=
  q !! timeseries.StartName ts = Some (fst (boundaries env ts chunk))
  /\ q !! timeseries.EndName ts = Some (snd (boundaries env ts chunk)).

Definition carries (env : Env) (ts : timeseries.t) (chunk : Time * Time)
    (v : url_URL) : Prop :=
  index (RawQuery v) (timeseries.StartName ts) = [fst (boundaries env ts chunk)]
  /\ index (RawQuery v) (timeseries.EndName ts) = [snd (boundaries env ts chunk)].

(** The request at [req] is settled: if it has a timeseries with
    distinct names and at least one chunk, its query map holds the
    boundaries of the last chunk. *)
Definition settled (env : Env) (req : positive) (st : Store) : Prop :=
  forall r ts c,
    requests st !! req = Some r ->
    Request.Timeseries r = Some ts ->
    timeseries.StartName ts <> timeseries.EndName ts ->
    last (timeseries.chunks ts) = Some c ->
    exists q, Request.Query r = Some q /\ holds env ts c q.

(** The cell of [req] is the same in both stores. *)
Definition untouched (req : positive) (st st' : Store) : Prop :=
  requests st' !! req = requests st !! req.

(** The events of each part of [Upsert]. *)
Definition ofPrepare (ev : Event) : Prop :=
  match ev with
  | EvNewClient _ | EvNewTx _ _ | EvLog _ _ => True
  | _ => False
  end.

Definition ofTruncate (ev : Event) : Prop :=
  match ev with
  | EvTruncate _ _ | EvLog _ _ => True
  | _ => False
  end.

Definition ofWorkers (ev : Event) : Prop :=
  match ev with
  | EvGo _ _ | EvEnqueue _ | EvAwaitDone | EvLog _ _ => True
  | _ => False
  end.

Definition ofCommit (ev : Event) : Prop :=
  match ev with
  | EvCommit _ => True
  | _ => False
  end.

(** A worker goroutine has been started. *)
Definition isGo (ev : Event) : Prop :=
  match ev with
  | EvGo _ _ => True
  | _ => False
  end.

Definition isTruncate (ev : Event) : Prop :=
  match ev with
  | EvTruncate _ _ => True
  | _ => False
  end.

Definition isRollback (ev : Event) : Prop :=
  match ev with
  | EvRollback _ => True
  | _ => False
  end.

(** The recurrence of the specification for the timeseries planner:
    walk [cursor := start]; while [cursor < end] emit [[cursor,
    min(cursor+period, end)]] and advance [cursor := cursor + period]. *)
Inductive walk (period : Duration) (end_ : Time) : Time -> list (Time * Time) -> Prop :=
| walk_done cursor :
    ~ cursor < end_ -> walk period end_ cursor []
| walk_emit cursor cs :
    cursor < end_ ->
    walk period end_ (cursor + period) cs ->
    walk period end_ cursor ((cursor, Z.min (cursor + period) end_) :: cs).

(** The instants a chunk covers, both ends included. *)
Definition within (t : Time) (chunk : Time * Time) : Prop :=
  fst chunk <= t <= snd chunk.

(** The relation the specification states between a limit and a number
    of tokens per second. *)
Definition tokensPerSecond (l : rate.Limit) (q : Q) : Prop :=
  match l with
  | rate.PerSecond q' => (q' == q)%Q
  | rate.Inf => False
  end.

(** All of [jobs] hold the pointer [lim]: they share one limiter. *)
Definition sharing (lim : positive) (jobs : list flattenedRequest) : Prop :=
  Forall (fun job => web.RateLimiter (fetchConfig job) = lim) jobs.

(** What a part of [Upsert] that makes no limiter leaves of the
    limiters: all of them, and no other. *)
Definition sameLimiters (st st' : Store) : Prop := limiters st' = limiters st.

(** The jobs put on the channel of the web workers, in order. *)
Definition enqueued (t : list Event) : list flattenedRequest :=
  omap (fun ev => match ev with EvEnqueue job => Some job | _ => None end) t.

(** [yields Q m]: a value [m] returns satisfies [Q]. *)
Definition yields {A : Type} (Q : A -> Prop) (m : M A) : Prop :=
  forall st a, returned (m st) = inl a -> Q a.

(** The closed form of the plan of [setChunks]: the chunk at position
    [i], and the number of chunks, for a period that is positive. *)
Definition chunkAt (period : Duration) (end_ start : Time) (i : nat) : Time * Time :=
  (start + Z.of_nat i * period, Z.min (start + (Z.of_nat i + 1) * period) end_).

Definition chunkCount (period : Duration) (end_ start : Time) : nat :=
  Z.to_nat ((end_ - start + period - 1) / period).

(** [halts Q m]: when [m] halts, it does so with a halt that satisfies
    [Q]. *)
Definition halts {A : Type} (Q : Halt -> Prop) (m : M A) : Prop :=
  forall st h, returned (m st) = inr h -> Q h.

(** The errors [Upsert] returns, each with the call whose failure it
    reports. *)
Inductive UpsertError (env : Env) (cfg : Config.t) : error -> Prop :=
| FromValidateMissing :
    UpsertError env cfg (MissingConfigFieldError "rateLimit")
| FromValidateInvalid :
    UpsertError env cfg ErrInvalidRateLimit
| FromConnect s cause :
    web_NewClient env s = Some cause ->
    UpsertError env cfg
      (Errorf "unable to connect to client: %w"
              (WrapWebError (web_FailedToCreateClientError env cause)) [])
| FromRepos i dns cause :
    Config.DNSList cfg !! i = Some dns ->
    repository_NewTx env i dns = Some cause ->
    UpsertError env cfg
      (WrapRepositoryError (repository_FailedToCreateRepositoryError env cause))
| FromJoinPath endpoint cause :
    url_JoinPath env (Config.URL cfg) endpoint = Fail cause ->
    UpsertError env cfg
      (Errorf "error joining url %q to endpoint %q: %w" cause [Config.URL cfg; endpoint])
| FromParse endpoint rawURL cause :
    url_JoinPath env (Config.URL cfg) endpoint = OK rawURL ->
    url_Parse env rawURL = Fail cause ->
    UpsertError env cfg (Errorf "error parsing raw url %q: %w" cause [rawURL])
| FromSetChunks :
    UpsertError env cfg ErrSettingTimeseriesChunks
| FromChunk :
    UpsertError env cfg ErrFetchingTimeseriesChunks
| FromTruncate repo tables cause :
    repo_Truncate env repo tables = Some cause ->
    UpsertError env cfg (Errorf "unable to truncate tables: %w" cause [])
| FromCommit repo cause :
    repo_Commit env repo = Some cause ->
    UpsertError env cfg (Errorf "unable to commit transaction: %w" cause []).

(** The ways [Upsert] stops short of returning nil. *)
Definition UpsertHalt (env : Env) (cfg : Config.t) (h : Halt) : Prop :=
  match h with
  | Err err => UpsertError env cfg err
  | Panic msg =>
      msg = "invalid memory address or nil pointer dereference"
      \/ msg = "assignment to entry in nil map"
  | OutOfFuel | Stuck => True
  end.

(** The signer [connect] builds: from the API key if there is one,
    else from the OAuth2 bearer if there is one. *)
Definition signerOf (cfg : Config.t) : option Signer :=
  match apiKey (Config.Authentication cfg) with
  | Some k => Some (APIKeySigner (Config.URL cfg) (Key k) (Passphrase k) (Secret k))
  | None =>
      match auth2 (Config.Authentication cfg) with
      | Some k => Some (Auth2Signer (Bearer k) (Config.URL cfg))
      | None => None
      end
  end.

(** Everything a run of [Upsert] that returns nil does to the world, in
    order, for the tables and the jobs planning has come to. *)
Definition schedule (env : Env) (cfg : Config.t) (tables : list string)
    (jobs : list flattenedRequest) : list Event :=
  (EvNewClient <$> option_list (signerOf cfg))
  ++ [EvLog "connection establed: %s" [Config.URL cfg]]
  ++ mjoin (imap (fun i dns => [EvNewTx i dns; EvLog "created repository for %q" [dns]])
                 (Config.DNSList cfg))
  ++ (if Config.Truncate cfg
      then mjoin ((fun repo =>
                     [EvTruncate repo tables;
                      EvLog "truncated tables on %q: %v"
                            [repo_Scheme env repo; String.concat ", " tables]])
                  <$> reposOf cfg)
      else [])
  ++ (EvGo "repositoryWorker" <$> seq 1 (runtime_NumCPU env))
  ++ [EvLog "repository workers started" []]
  ++ (EvGo "webWorker" <$> seq 1 (runtime_NumCPU env))
  ++ [EvLog "web workers started" []]
  ++ (EvEnqueue <$> jobs)
  ++ [EvLog "web worker jobs enqueued" []]
  ++ ((fun _ => EvAwaitDone) <$> jobs)
  ++ (EvCommit <$> reposOf cfg)
  ++ [EvLog "upsert completed" []].

(** [follows full m]: the events of [m] are the first events of [full],
    and all of [full] when [m] returns. *)
Definition follows {A : Type} (full : list Event) (m : M A) : Prop :=
  forall st,
    trace (m st) `prefix_of` full
    /\ (forall a, returned (m st) = inl a -> trace (m st) = full).

(** The transactions opened, in order. *)
Definition opened (t : list Event) : list (nat * string) :=
  omap (fun ev => match ev with EvNewTx i dns => Some (i, dns) | _ => None end) t.

(** What may have become of a timeseries while [Upsert] ran: the two
    names and the period are the same, the layout is the same once its
    default is counted, and the chunks it had come first among the
    chunks it has. *)
Definition sameTimeseries (ts ts' : timeseries.t) : Prop :=
  timeseries.StartName ts' = timeseries.StartName ts
  /\ timeseries.EndName ts' = timeseries.EndName ts
  /\ timeseries.Period ts' = timeseries.Period ts
  /\ timeseries.layoutOf ts' = timeseries.layoutOf ts
  /\ timeseries.chunks ts `prefix_of` timeseries.chunks ts'.

(** What may have become of a request: the endpoint, the burst cap and
    the table are the same; the method is the same, or was empty and is
    GET; the query map is nil if and only if it was; a timeseries is
    there if and only if it was, changed as above. *)
Definition sameRequest (r r' : Request.t) : Prop :=
  Request.Endpoint r' = Request.Endpoint r
  /\ Request.RateLimitBurstCap r' = Request.RateLimitBurstCap r
  /\ Request.Table r' = Request.Table r
  /\ (Request.Method r' = Request.Method r
      \/ (Request.Method r = "" /\ Request.Method r' = "GET"))
  /\ (Request.Query r = None <-> Request.Query r' = None)
  /\ option_Forall2 sameTimeseries (Request.Timeseries r) (Request.Timeseries r').

(** No request is created or dropped, every request is changed as above
    at most, and every URL that exists keeps its value. *)
Definition fixed (st st' : Store) : Prop :=
  (forall req, option_Forall2 sameRequest (requests st !! req) (requests st' !! req))
  /\ urls st ⊆ urls st'.

End Transport.

(** * The two worker functions of the transport package

    [webWorker] and [repositoryWorker] are loops over a channel.  Each
    is run here as one goroutine sees it: on the channels as they stand,
    until the function returns, the goroutine is parked, the process
    exits or the goroutine panics.  The calls that leave the package
    ([web.Fetch], [io.ReadAll], the encoder of the repository, a
    repository's [Upsert] and [Transact]) are fields of [WorkerEnv] or
    events; the durations the log lines carry are left out.

    Three things are taken from the callers and the libraries as they
    are: a job on a channel is a non-nil pointer with its flattened
    request set, which is how [Upsert] builds it; a response of
    [web.Fetch] that comes without error carries its request, and the
    request its URL; [RepositoryEncoders.Lookup] finds an encoder.  The
    logger is logrus's with its default exit function, so that [Fatal]
    and [Fatalf] do not return. *)

Module Workers.
Import Storage Transport.

(** [http.Request] and [http.Response], with what the workers read of
    them; a body is known by a handle. *)
Module http_Request.
Record t : Type := mk { URL : url_URL }.
End http_Request.

Module http_Response.
Record t : Type := mk { Body : positive; Request : http_Request.t }.
End http_Response.

(** [proto.UpsertRequest] and [proto.UpsertResponse]; of a request the
    workers touch the table only. *)
Module proto.
Record UpsertRequest : Type := mkUpsertRequest { Table : string; Data : list Byte.byte }.
Record UpsertResponse : Type := mkUpsertResponse { UpsertedCount : Z; MatchedCount : Z }.
End proto.

Record WorkerEnv : Type := mkWorkerEnv {
  (** [RepositoryEncoders.Lookup(req.URL).Encode(req, b)] *)
  Encode : http_Request.t -> list Byte.byte -> result proto.UpsertRequest;
  web_Fetch : web.FetchConfig -> result http_Response.t;
  io_ReadAll : positive -> result (list Byte.byte);
  url_Path : url_URL -> string;
  repo_Upsert : Repo -> proto.UpsertRequest -> result proto.UpsertResponse;
  (** [storage.Scheme(repo.Type())] *)
  storage_Scheme : Repo -> string
}.

Module repoJob.
Record t : Type := mk {
  req : http_Request.t;
  b : list Byte.byte;
  table : option string
}.
End repoJob.

(** The closure [txfn] of [repositoryWorker], known by the variables it
    captures: the worker's id, the request and the logger of the
    configuration. *)
Module txfn.
Record t : Type := mk {
  workerID : nat;
  req : proto.UpsertRequest;
  logger : option logrus_Logger
}.
End txfn.

(** What a worker does to the world. *)
Inductive WorkerEvent : Type :=
| EvFetch (fc : web.FetchConfig)
| EvReadAll (body : positive)
| EvTransact (repo : Repo) (fn : txfn.t)
| EvRepoUpsert (repo : Repo) (req : proto.UpsertRequest)
| EvInfof (format : string) (args : list string)
| EvFatal (err : error)
| EvFatalf (format : string) (err : error).

(** How far a goroutine gets on its own.  [logger.Fatal] and
    [logger.Fatalf] write their line and end the process. *)
Inductive fate (R : Type) : Type :=
| Returned (r : R)
| ParkedOnReceive
| ParkedOnSend
| Exited
| Panicked (msg : string)
| StillRunning.
Arguments Returned {R} _.
Arguments ParkedOnReceive {R}.
Arguments ParkedOnSend {R}.
Arguments Exited {R}.
Arguments Panicked {R} _.
Arguments StillRunning {R}.

Definition nilPointer : string := "invalid memory address or nil pointer dereference".

(** [v, ok := <-c], the receive of a [range] loop over a channel: [None]
    stands for [ok == false], the channel closed and drained. *)
Definition chanrecv2 {A : Type} (c : chan A) : chanres (option A * chan A) :=
  match buf c with
  | v :: rest => Completes (Some v, mkChan rest (dataqsiz c) (closed c) (recvq c))
  | [] => if closed c then Completes (None, c) else Parks
  end.

(** [logger.Fatal(err)] and [logger.Fatalf(format, err)] on a logger
    that may be nil. *)
Definition Fatal {R : Type} (logger : option logrus_Logger) (err : error)
    : fate R * list WorkerEvent :=
  match logger with
  | Some _ => (Exited, [EvFatal err])
  | None => (Panicked nilPointer, [])
  end.

Definition Fatalf {R : Type} (logger : option logrus_Logger) (format : string) (err : error)
    : fate R * list WorkerEvent :=
  match logger with
  | Some _ => (Exited, [EvFatalf format err])
  | None => (Panicked nilPointer, [])
  end.

(** A call of the closure [txfn] by the driver of [repo]. *)
Definition call (wenv : WorkerEnv) (fn : txfn.t) (repo : Repo)
    : fate (option error) * list WorkerEvent :=
  match repo_Upsert wenv repo (txfn.req fn) with
  | Fail err =>
      let '(end_, evs) := Fatalf (R:=option error) (txfn.logger fn)
                                 "error upserting data: %v" err in
      (match end_ with
       | Returned _ => Returned (Some (Errorf "error upserting data: %w" err []))
       | other => other
       end,
       EvRepoUpsert repo (txfn.req fn) :: evs)
  | OK rsp =>
      match txfn.logger fn with
      | Some _ =>
          (Returned None,
           [EvRepoUpsert repo (txfn.req fn);
            EvInfof "partial upsert completed: %s.%s"
                    [storage_Scheme wenv repo; proto.Table (txfn.req fn)]])
      | None => (Panicked nilPointer, [EvRepoUpsert repo (txfn.req fn)])
      end
  end.

(** ** repositoryWorker *)

(** [repoConfig] without its two channels, and the two channels as they
    stand. *)
Module repoConfig.
Record t : Type := mk {
  repos : list Repo;
  logger : option logrus_Logger;
  truncate : bool
}.
End repoConfig.

Record repoChans : Type := mkRepoChans {
  jobs : chan repoJob.t;
  done : chan bool
}.

(** [if table := job.table; table != nil { req.Table = *table }] *)
Definition withTable (req : proto.UpsertRequest) (table : option string)
    : proto.UpsertRequest :=
  match table with
  | Some name => proto.mkUpsertRequest name (proto.Data req)
  | None => req
  end.

(** [for _, repo := range cfg.repos { repo.Transact(txfn) }] *)
Definition transactAll (workerID : nat) (cfg : repoConfig.t) (req : proto.UpsertRequest)
    : list WorkerEvent :=
  (fun repo => EvTransact repo (txfn.mk workerID req (repoConfig.logger cfg)))
    <$> repoConfig.repos cfg.

(** [func repositoryWorker(_ context.Context, workerID int, cfg
    *repoConfig)].  One unit of fuel pays for one receive. *)
Fixpoint repositoryWorker (fuel : nat) (wenv : WorkerEnv) (workerID : nat)
    (cfg : repoConfig.t) (st : repoChans) : fate unit * repoChans * list WorkerEvent :=
  match fuel with
  | O => (StillRunning, st, [])
  | S fuel' =>
      match chanrecv2 (jobs st) with
      | Parks => (ParkedOnReceive, st, [])
      | Panics msg => (Panicked msg, st, [])
      | Completes (None, _) => (Returned tt, st, [])
      | Completes (Some job, rest) =>
          let st1 := mkRepoChans rest (done st) in
          match Encode wenv (repoJob.req job) (repoJob.b job) with
          | Fail err =>
              let '(end_, evs) := Fatalf (repoConfig.logger cfg)
                                         "error encoding response data: %v" err in
              (end_, st1, evs)
          | OK req =>
              let req := withTable req (repoJob.table job) in
              let evs := transactAll workerID cfg req in
              match chansend (done st1) true with
              | Parks => (ParkedOnSend, st1, evs)
              | Panics msg => (Panicked msg, st1, evs)
              | Completes done' =>
                  let '(end_, st2, evs') :=
                    repositoryWorker fuel' wenv workerID cfg (mkRepoChans rest done') in
                  (end_, st2, evs ++ evs')
              end
          end
      end
  end.

(** ** webWorker *)

Module webWorkerJob.
Record t : Type := mk {
  (** the embedded [*flattenedRequest] *)
  flattenedRequest : Transport.flattenedRequest;
  (** a [chan<- *repoJob], known by its address *)
  repoJobs : positive;
  client : option Client;
  logger : option logrus_Logger
}.
End webWorkerJob.

(** The channel the worker ranges over, and the channels its jobs may
    point to.  An address without a channel is a nil channel. *)
Record webChans : Type := mkWebChans {
  webJobs : chan webWorkerJob.t;
  repoJobChans : gmap positive (chan repoJob.t)
}.

(** [func webWorker(ctx context.Context, workerID int, jobs <-chan
    *webWorkerJob)].  One unit of fuel pays for one receive. *)
Fixpoint webWorker (fuel : nat) (wenv : WorkerEnv) (workerID : nat) (st : webChans)
    : fate unit * webChans * list WorkerEvent :=
  match fuel with
  | O => (StillRunning, st, [])
  | S fuel' =>
      match chanrecv2 (webJobs st) with
      | Parks => (ParkedOnReceive, st, [])
      | Panics msg => (Panicked msg, st, [])
      | Completes (None, _) => (Returned tt, st, [])
      | Completes (Some job, rest) =>
          let st1 := mkWebChans rest (repoJobChans st) in
          let fc := fetchConfig (webWorkerJob.flattenedRequest job) in
          match web_Fetch wenv fc with
          | Fail err =>
              let '(end_, evs) := Fatal (webWorkerJob.logger job) err in
              (end_, st1, EvFetch fc :: evs)
          | OK rsp =>
              match io_ReadAll wenv (http_Response.Body rsp) with
              | Fail err =>
                  let '(end_, evs) := Fatal (webWorkerJob.logger job) err in
                  (end_, st1, EvFetch fc :: EvReadAll (http_Response.Body rsp) :: evs)
              | OK bytes =>
                  let evs := [EvFetch fc; EvReadAll (http_Response.Body rsp)] in
                  let sent :=
                    repoJob.mk (http_Response.Request rsp) bytes
                               (table (webWorkerJob.flattenedRequest job)) in
                  match repoJobChans st1 !! webWorkerJob.repoJobs job with
                  | None => (ParkedOnSend, st1, evs)
                  | Some c =>
                      match chansend c sent with
                      | Parks => (ParkedOnSend, st1, evs)
                      | Panics msg => (Panicked msg, st1, evs)
                      | Completes c' =>
                          let st2 :=
                            mkWebChans rest
                              (<[webWorkerJob.repoJobs job := c']> (repoJobChans st1)) in
                          match webWorkerJob.logger job with
                          | None => (Panicked nilPointer, st2, evs)
                          | Some _ =>
                              let line :=
                                EvInfof "web request completed: %s"
                                        [url_Path wenv (http_Request.URL
                                                          (http_Response.Request rsp))] in
                              let '(end_, st3, evs') := webWorker fuel' wenv workerID st2 in
                              (end_, st3, evs ++ line :: evs')
                          end
                      end
                  end
              end
          end
      end
  end.

(** ** The channels of Upsert *)

(** [make(chan *repoJob, len(flattenedRequests)*len(repos))] and
    [make(chan bool, len(flattenedRequests))]. *)
Definition repoJobCh (flattenedRequests : list flattenedRequest) (repos : list Repo)
    : chan repoJob.t :=
  mkChan [] (length flattenedRequests * length repos) false 0.

Definition doneCh (flattenedRequests : list flattenedRequest) : chan bool :=
  mkChan [] (length flattenedRequests) false 0.

(** The [webWorkerJob] [Upsert] makes of a flattened request. *)
Definition jobOf (cfg : Config.t) (client : option Client) (repoJobs : positive)
    (req : flattenedRequest) : webWorkerJob.t :=
  webWorkerJob.mk req repoJobs client (Config.Logger cfg).

(** ** Vocabulary of the statements *)

(** The upsert request [repositoryWorker] makes of a job, if the data
    of the job can be encoded. *)
Definition requestOf (wenv : WorkerEnv) (job : repoJob.t) : result proto.UpsertRequest :=
  match Encode wenv (repoJob.req job) (repoJob.b job) with
  | OK req => OK (withTable req (repoJob.table job))
  | Fail err => Fail err
  end.

(** The repository job [webWorker] makes of a web job, if the fetch and
    the read of the body succeed. *)
Definition fetched (wenv : WorkerEnv) (job : webWorkerJob.t) : result repoJob.t :=
  match web_Fetch wenv (fetchConfig (webWorkerJob.flattenedRequest job)) with
  | OK rsp =>
      match io_ReadAll wenv (http_Response.Body rsp) with
      | OK bytes =>
          OK (repoJob.mk (http_Response.Request rsp) bytes
                         (table (webWorkerJob.flattenedRequest job)))
      | Fail err => Fail err
      end
  | Fail err => Fail err
  end.

(** The calls of [web.Fetch] in a trace. *)
Definition fetches (t : list WorkerEvent) : list web.FetchConfig :=
  omap (fun ev => match ev with EvFetch fc => Some fc | _ => None end) t.

(** The calls of [Transact] in a trace: the repository and the table
    of the request handed over. *)
Definition transacted (t : list WorkerEvent) : list (Repo * string) :=
  omap (fun ev => match ev with
                  | EvTransact repo fn => Some (repo, proto.Table (txfn.req fn))
                  | _ => None
                  end) t.

End Workers.

(** * Scenarios

    Concrete environments, configurations and stores on which the
    definitions above are run. *)

Module Scenario.
Import Storage Transport.

(** A transaction with an unbuffered submission channel on which the
    driver is parked, and one-slot [done] and [commit] channels. *)
Definition openTxn : Txn nat :=
  mkTxn (mkChan [] 0 false 1) (mkChan [] 1 false 0) (mkChan [] 1 false 0).

(** A clock of four instants a minute apart, written as minutes past
    midnight; only the RFC 3339 layout reads them. *)
Definition minute (n : Z) : Time := n * (60 * Second).

Definition parse (layout value : string) : option Time :=
  if decide (layout = RFC3339) then
    if decide (value = "00:00") then Some (minute 0)
    else if decide (value = "00:01") then Some (minute 1)
    else if decide (value = "00:02") then Some (minute 2)
    else if decide (value = "00:03") then Some (minute 3)
    else None
  else None.

Definition format (layout : string) (t : Time) : string :=
  if decide (t = minute 0) then "00:00"
  else if decide (t = minute 1) then "00:01"
  else if decide (t = minute 2) then "00:02"
  else if decide (t = minute 3) then "00:03"
  else "?".

(** An environment in which every outside call succeeds, except the
    commit of the backend at position 1. *)
Definition env : Env :=
  mkEnv parse format
        (fun base endpoint => OK (base +:+ endpoint))
        (fun raw => OK (mkURL raw ∅))
        (fun _ => None) (fun err => err)
        (fun _ _ => None) (fun err => err)
        (fun _ _ => None)
        (fun repo => if decide (repo_index repo = 1%nat)
                     then Some (ErrExternal "commit failed") else None)
        (fun _ => "mongodb")
        2
        (fun _ _ => true).

(** Chunks of a minute between the values of [start] and [end]. *)
Definition everyMinute (layout : option string) : timeseries.t :=
  timeseries.mk "start" "end" 60 layout [].

Definition candles : Request.t :=
  Request.mk "" "/candles" 0
             (Some {[ "start" := "00:00"; "end" := "00:03" ]})
             (Some (everyMinute None))
             (Some "candles").

(** The URL of [candles], and one whose start value is no time and whose
    end value is missing. *)
Definition candlesURL : url_URL :=
  mkURL "https://api.test/candles" {[ "start" := ["00:00"]; "end" := ["00:03"] ]}.

Definition brokenURL : url_URL :=
  mkURL "https://api.test/candles" {[ "start" := ["yesterday"] ]}.

Definition trades : Request.t :=
  Request.mk "POST" "/trades" 0 None None (Some "candles").

Definition stored : Store :=
  mkStore {[ 1%positive := candles; 2%positive := trades ]} ∅ ∅.

Definition config (dnsList : list string) (requests : list positive)
    (rateLimit : option RateLimitConfig.t) (truncate : bool) : Config.t :=
  Config.mk "https://api.test" (mkAuthentication None None) dnsList requests
            rateLimit (Some StandardLogger) truncate.

Definition tenPerSecond : RateLimitConfig.t :=
  RateLimitConfig.mk (Some 10) (Some Second).

(** A transaction whose driver is busy with the one function queued:
    nobody is receiving on the unbuffered commit channel. *)
Definition busyTxn : Txn nat :=
  mkTxn (mkChan [7%nat] 1 false 0) (mkChan [] 1 false 0) (mkChan [] 0 false 0).

(** A transaction whose driver has given up and reported why. *)
Definition failedTxn : Txn nat :=
  mkTxn (mkChan [] 0 false 1)
        (mkChan [Some (ErrExternal "driver failed")] 1 false 0)
        (mkChan [] 1 false 0).

(** A timeseries whose period has been left at zero. *)
Definition noPeriod : timeseries.t :=
  timeseries.mk "start" "end" 0 None [].

(** The same environment, except that the backend "down" cannot be
    reached. *)
Definition envDown : Env :=
  mkEnv parse format (url_JoinPath env) (url_Parse env)
        (web_NewClient env) (web_FailedToCreateClientError env)
        (fun _ dns => if decide (dns = "down")
                      then Some (ErrExternal "connection refused") else None)
        (repository_FailedToCreateRepositoryError env)
        (repo_Truncate env) (repo_Commit env) (repo_Scheme env)
        (runtime_NumCPU env) (workers_finish env).

(** A configuration with credentials of both kinds. *)
Definition keyed : Config.t :=
  Config.mk "https://api.test"
            (mkAuthentication (Some (mkAPIKey "passphrase" "key" "secret"))
                              (Some (mkAuth2 "bearer")))
            ["db1"] [2%positive] (Some tenPerSecond) (Some StandardLogger) false.

(** An environment whose URLs come with the window in their query, and
    a request for candles that relies on it: its own query map is
    nil. *)
Definition envQuery : Env :=
  mkEnv parse format (url_JoinPath env)
        (fun raw => OK (mkURL raw {[ "start" := ["00:00"]; "end" := ["00:03"] ]}))
        (web_NewClient env) (web_FailedToCreateClientError env)
        (repository_NewTx env) (repository_FailedToCreateRepositoryError env)
        (repo_Truncate env) (repo_Commit env) (repo_Scheme env)
        (runtime_NumCPU env) (workers_finish env).

Definition bare : Request.t :=
  Request.mk "GET" "/candles" 0 None (Some (everyMinute None)) (Some "candles").

Definition storedBare : Store :=
  mkStore {[ 3%positive := bare ]} ∅ ∅.

End Scenario.

(** A world for the workers: every GET is answered with one byte, a
    POST is refused; data encodes under the table "encoded" unless it
    is empty; the table "locked" cannot be written. *)
Module WorkerScenario.
Import Storage Transport Workers.

Definition wenv : WorkerEnv :=
  mkWorkerEnv
    (fun _ b => match b with
                | [] => Fail (ErrExternal "no data")
                | _ => OK (proto.mkUpsertRequest "encoded" b)
                end)
    (fun fc => if decide (web.Method fc = "POST")
               then Fail (ErrExternal "method not allowed")
               else OK (http_Response.mk (web.URL fc) (http_Request.mk Scenario.candlesURL)))
    (fun _ => OK [Byte.x01])
    Rest
    (fun _ req => if decide (proto.Table req = "locked")
                  then Fail (ErrExternal "table locked")
                  else OK (proto.mkUpsertResponse 1 0))
    (fun _ => "mongodb").

Definition request : http_Request.t := http_Request.mk Scenario.candlesURL.

Definition forCandles : repoJob.t := repoJob.mk request [Byte.x01] (Some "candles").
Definition unnamed : repoJob.t := repoJob.mk request [Byte.x02] None.
Definition empty : repoJob.t := repoJob.mk request [] (Some "candles").

Definition twoRepos : repoConfig.t :=
  repoConfig.mk [mkRepo 0 "db1"; mkRepo 1 "db2"] (Some StandardLogger) false.

Definition getCandles : flattenedRequest :=
  mkFlattenedRequest (web.mkFetchConfig None "GET" 5%positive 1%positive)
                     (Some "candles").

Definition postTrades : flattenedRequest :=
  mkFlattenedRequest (web.mkFetchConfig None "POST" 6%positive 1%positive)
                     (Some "trades").

Definition cfg : Config.t :=
  Scenario.config ["db1"] [1%positive] (Some Scenario.tenPerSecond) false.

End WorkerScenario.

(** * The transaction handle *)

Section TxnFacts.
Import Storage.
Context {Fn : Type}.
Implicit Types (t : Txn Fn) (fn : Fn) (decision : bool) (status : option error).

Lemma finish_ops decision :
  ops (finish decision) = [OpCloseCh; OpSendCommit decision; OpRecvDone (TxnChanFn:=Fn)].
Proof. destruct decision; reflexivity. Qed.

Lemma finish_unfold decision :
  finish decision =
  Do CloseCh (fun _ => Do (SendCommit decision) (fun _ =>
    Do (RecvDone (TxnChanFn:=Fn)) (fun status => Return status))).
Proof. destruct decision; reflexivity. Qed.

(** Whatever a body does, it never reopens the submission channel. *)
Lemma run_keeps_closed {R : Type} (p : prog Fn R) t :
  closed (ch t) = true -> closed (ch (after (run p t))) = true.
Proof.
  revert t. induction p as [r | X o k IH]; intros t Hc; cbn; [exact Hc|].
  destruct o; cbn.
  - unfold closechan. rewrite Hc. exact Hc.
  - unfold chansend. rewrite Hc. exact Hc.
  - unfold chansend. destruct (closed (commit t)); [exact Hc|].
    destruct (hasroom (commit t)); [|exact Hc]. apply IH. exact Hc.
  - unfold chanrecv. destruct (buf (done t)); [|apply IH; exact Hc].
    destruct (closed (done t)); [apply IH|]; exact Hc.
Qed.

Lemma run_Do {R X : Type} (o : op Fn X) (k : X -> prog Fn R) t :
  run (Do o k) t =
  match exec Fn o t with
  | Completes (x, t') => run (k x) t'
  | Parks => Blocked (Do o k) t
  | Panics m => Panicked m t
  end.
Proof. reflexivity. Qed.

Lemma finish_closes decision t : closed (ch (after (run (finish decision) t))) = true.
Proof.
  rewrite finish_unfold, run_Do. unfold exec, closechan.
  destruct (closed (ch t)) eqn:Hc; [exact Hc|].
  apply run_keeps_closed. reflexivity.
Qed.

Lemma send_on_closed t fn :
  closed (ch t) = true -> run (Send fn) t = Panicked "send on closed channel" t.
Proof. intros Hc. cbn. unfold chansend. rewrite Hc. reflexivity. Qed.

Lemma finish_on_closed decision t :
  closed (ch t) = true ->
  run (finish decision) t = Panicked "close of closed channel" t.
Proof. intros Hc. rewrite finish_unfold. cbn. unfold closechan. rewrite Hc. reflexivity. Qed.


(** C10.  Once [Commit] or [Rollback] has been invoked on a transaction,
    however far that call got, the submission channel is closed; on the
    transaction as the call left it, [Send] panics with the runtime's
    send on closed channel, and [Commit] and [Rollback] panic with close
    of closed channel.  None of them returns. *)
Theorem txn_reuse_panics t fn decision decision' :
  let t' := after (run (finish decision) t) in
  closed (ch t') = true
  /\ run (Send fn) t' = Panicked "send on closed channel" t'
  /\ run (finish decision') t' = Panicked "close of closed channel" t'.
Proof.
  intros t'. assert (Hc : closed (ch t') = true) by apply finish_closes.
  split; [exact Hc|].
  split; [by apply send_on_closed | by apply finish_on_closed].
Qed.

End TxnFacts.


(** * The monad of the orchestrator *)

Import Transport.

Section Monad.

Lemma returned_bind {A B : Type} (m : M A) (k : A -> M B) st :
  returned (bind m k st) =
  match returned (m st) with
  | inl a => returned (k a (store (m st)))
  | inr h => inr h
  end.
Proof.
  unfold bind, returned, store.
  destruct (m st) as [[[a|h] st1] e1]; cbn; [|reflexivity].
  destruct (k a st1) as [[r st2] e2]; reflexivity.
Qed.

Lemma store_bind {A B : Type} (m : M A) (k : A -> M B) st :
  store (bind m k st) =
  match returned (m st) with
  | inl a => store (k a (store (m st)))
  | inr _ => store (m st)
  end.
Proof.
  unfold bind, returned, store.
  destruct (m st) as [[[a|h] st1] e1]; cbn; [|reflexivity].
  destruct (k a st1) as [[r st2] e2]; reflexivity.
Qed.

Lemma trace_bind {A B : Type} (m : M A) (k : A -> M B) st :
  trace (bind m k st) =
  trace (m st) ++
  match returned (m st) with
  | inl a => trace (k a (store (m st)))
  | inr _ => []
  end.
Proof.
  unfold bind, returned, store, trace.
  destruct (m st) as [[[a|h] st1] e1]; cbn; [|by rewrite app_nil_r].
  destruct (k a st1) as [[r st2] e2]; reflexivity.
Qed.

Lemma emits_ret {A : Type} φ (a : A) : emits φ (ret a).
Proof. intros st. constructor. Qed.

Lemma emits_halt {A : Type} φ h : emits φ (halt (A:=A) h).
Proof. intros st. constructor. Qed.

Lemma emits_emit (φ : Event -> Prop) ev : φ ev -> emits φ (emit ev).
Proof. intros H st. cbn. by constructor. Qed.

Lemma emits_deref φ req : emits φ (deref req).
Proof. intros st. unfold deref. destruct (requests st !! req); constructor. Qed.

Lemma emits_derefURL φ u : emits φ (derefURL u).
Proof. intros st. unfold derefURL. destruct (urls st !! u); constructor. Qed.

Lemma emits_assign φ req r : emits φ (assign req r).
Proof. intros st. constructor. Qed.

Lemma emits_newURL φ v : emits φ (newURL v).
Proof. intros st. constructor. Qed.

Lemma emits_newLimiter φ v : emits φ (newLimiter v).
Proof. intros st. constructor. Qed.

Lemma emits_try {A : Type} φ (r : result A) wrap : emits φ (try r wrap).
Proof. destruct r; [apply emits_ret | apply emits_halt]. Qed.

Lemma emits_bind {A B : Type} φ (m : M A) (k : A -> M B) :
  emits φ m -> (forall a, emits φ (k a)) -> emits φ (bind m k).
Proof.
  intros Hm Hk st. rewrite trace_bind. apply Forall_app. split; [apply Hm|].
  destruct (returned (m st)); [apply Hk | constructor].
Qed.

Lemma emits_range {A B : Type} φ (l : list A) (body : B -> A -> M B) vars :
  (forall b x, x ∈ l -> emits φ (body b x)) -> emits φ (range l body vars).
Proof.
  revert vars. induction l as [|x l IH]; intros vars Hb; cbn; [apply emits_ret|].
  apply emits_bind; [apply Hb; left|].
  intros b. apply IH. intros b' y Hy. apply Hb. by right.
Qed.

Lemma emits_log (φ : Event -> Prop) cfg format args :
  φ (EvLog format args) -> emits φ (Config.log cfg format args).
Proof.
  intros H. unfold Config.log.
  destruct (Config.Logger cfg); [by apply emits_emit | apply emits_halt].
Qed.

Lemma emits_mono {A : Type} (φ ψ : Event -> Prop) (m : M A) :
  (forall ev, φ ev -> ψ ev) -> emits φ m -> emits ψ m.
Proof. intros H Hm st. eapply Forall_impl; [apply Hm | exact H]. Qed.

Section Keeps.
Context (R : Store -> Store -> Prop) `{!PreOrder R}.

Lemma keeps_ret {A : Type} (a : A) : keeps R (ret a).
Proof. intros st. reflexivity. Qed.

Lemma keeps_halt {A : Type} h : keeps R (halt (A:=A) h).
Proof. intros st. reflexivity. Qed.

Lemma keeps_emit ev : keeps R (emit ev).
Proof. intros st. reflexivity. Qed.

Lemma keeps_deref req : keeps R (deref req).
Proof. intros st. unfold deref. destruct (requests st !! req); reflexivity. Qed.

Lemma keeps_derefURL u : keeps R (derefURL u).
Proof. intros st. unfold derefURL. destruct (urls st !! u); reflexivity. Qed.

Lemma keeps_try {A : Type} (r : result A) wrap : keeps R (try r wrap).
Proof. destruct r; [apply keeps_ret | apply keeps_halt]. Qed.

Lemma keeps_bind {A B : Type} (m : M A) (k : A -> M B) :
  keeps R m -> (forall a, keeps R (k a)) -> keeps R (bind m k).
Proof.
  intros Hm Hk st. rewrite store_bind.
  destruct (returned (m st)); [|apply Hm].
  transitivity (store (m st)); [apply Hm | apply Hk].
Qed.

Lemma keeps_range {A B : Type} (l : list A) (body : B -> A -> M B) vars :
  (forall b x, keeps R (body b x)) -> keeps R (range l body vars).
Proof.
  intros Hb. revert vars. induction l as [|x l IH]; intros vars; cbn.
  - apply keeps_ret.
  - apply keeps_bind; [apply Hb | intros b; apply IH].
Qed.

Lemma keeps_log cfg format args : keeps R (Config.log cfg format args).
Proof.
  unfold Config.log. destruct (Config.Logger cfg); [apply keeps_emit | apply keeps_halt].
Qed.
End Keeps.

Lemma yields_ret {A : Type} (Q : A -> Prop) a : Q a -> yields Q (ret a).
Proof. intros H st a' [= <-]. exact H. Qed.

Lemma yields_halt {A : Type} (Q : A -> Prop) h : yields Q (halt h).
Proof. intros st a [=]. Qed.

Lemma yields_bind {A B : Type} (P : A -> Prop) (Q : B -> Prop) (m : M A) (k : A -> M B) :
  yields P m -> (forall a, P a -> yields Q (k a)) -> yields Q (bind m k).
Proof.
  intros Hm Hk st b. rewrite returned_bind.
  destruct (returned (m st)) as [a|h] eqn:E; [|intros [=]].
  apply (Hk a). by eapply Hm.
Qed.

Lemma yields_any {A : Type} (m : M A) : yields (fun _ => True) m.
Proof. intros st a _. exact I. Qed.

Lemma yields_range {A B : Type} (Inv : B -> Prop) (l : list A) (body : B -> A -> M B) vars :
  Inv vars -> (forall b x, Inv b -> yields Inv (body b x)) ->
  yields Inv (range l body vars).
Proof.
  intros H0 Hb. revert vars H0. induction l as [|x l IH]; intros vars H0; cbn.
  - by apply yields_ret.
  - eapply yields_bind; [by apply Hb|]. intros b Hb'. by apply IH.
Qed.

End Monad.

(** * Validation and the rate limiter *)

Section Validation.

Lemma emits_bind_yields {A B : Type} φ (P : A -> Prop) (m : M A) (k : A -> M B) :
  emits φ m -> yields P m -> (forall a, P a -> emits φ (k a)) -> emits φ (bind m k).
Proof.
  intros Hm Hy Hk st. rewrite trace_bind. apply Forall_app. split; [apply Hm|].
  destruct (returned (m st)) as [a|h] eqn:E; [|constructor].
  apply Hk. by eapply Hy.
Qed.

Lemma validate_None cfg :
  Config.validate cfg = None <->
  exists rl burst period,
    Config.RateLimitConfig cfg = Some rl
    /\ RateLimitConfig.Burst rl = Some burst
    /\ RateLimitConfig.Period rl = Some period.
Proof.
  unfold Config.validate, RateLimitConfig.validate.
  destruct (Config.RateLimitConfig cfg) as [[[b|] [p|]]|]; cbn; split;
    try discriminate; try (intros _; eauto 6; fail).
  all: intros (rl & b' & p' & E & Hb & Hp); try discriminate;
    injection E as <-; discriminate.
Qed.

(** C6.  With no [rateLimit] in the configuration, [Upsert] returns the
    error MissingConfigField("rateLimit") and has done nothing by then:
    it has emitted no event at all (no client connected, no transaction
    opened, no worker started) and the store is as it was. *)
Theorem upsert_without_rateLimit env fuel cfg st :
  Config.RateLimitConfig cfg = None ->
  Upsert env fuel cfg st = (inr (Err (MissingConfigFieldError "rateLimit")), st, []).
Proof. intros H. unfold Upsert, Config.validate. rewrite H. reflexivity. Qed.

(** C3, as amended.  With a [rateLimit] present, validation accepts the
    configuration exactly when both [burst] and [period] are present; it
    does not look at their values.  When one of them is absent, [Upsert]
    returns InvalidRateLimit having emitted no event (no connection, no
    transaction) and with the store as it was. *)
Theorem upsert_rate_limit_fields env fuel cfg st rl :
  Config.RateLimitConfig cfg = Some rl ->
  (Config.validate cfg = None <->
   is_Some (RateLimitConfig.Burst rl) /\ is_Some (RateLimitConfig.Period rl))
  /\ (RateLimitConfig.Burst rl = None \/ RateLimitConfig.Period rl = None ->
      Upsert env fuel cfg st = (inr (Err ErrInvalidRateLimit), st, [])).
Proof.
  intros Hrl. split.
  - rewrite validate_None. split.
    + intros (rl' & b & p & E & Hb & Hp). rewrite Hrl in E. injection E as <-.
      rewrite Hb, Hp. split; eauto.
    + intros [[b Hb] [p Hp]]. eauto 6.
  - intros Hmissing. unfold Upsert, Config.validate, RateLimitConfig.validate.
    rewrite Hrl.
    destruct Hmissing as [-> | ->]; [reflexivity|].
    destruct (RateLimitConfig.Burst rl); reflexivity.
Qed.

Lemma newRateLimiter_limit period burst :
  rate.limit (newRateLimiter period burst) = rate.Every (period ÷ Second).
Proof. reflexivity. Qed.

Lemma yields_newFetchConfig env cfg req client lim :
  yields (fun res => forall fc, res = OK fc -> web.RateLimiter fc = lim)
         (newFetchConfig env cfg req client lim).
Proof.
  unfold newFetchConfig.
  eapply yields_bind; [apply yields_any|]. intros r _.
  destruct (url_JoinPath env _ _); [|by apply yields_ret].
  destruct (url_Parse env _); [|by apply yields_ret].
  eapply yields_bind; [apply yields_any|]. intros u _.
  apply yields_ret. by intros fc [= <-].
Qed.

Lemma yields_chunkBody env cfg req client lim jobs chunk :
  sharing lim jobs ->
  yields (sharing lim) (chunkBody env cfg req client lim jobs chunk).
Proof.
  intros Hjobs. unfold chunkBody.
  eapply yields_bind; [apply yields_any|]. intros r _.
  destruct (Request.Timeseries r) as [ts|]; [|apply yields_halt].
  destruct (timeseries.Layout ts); [|apply yields_halt].
  eapply yields_bind; [apply yields_any|]. intros _ _.
  eapply yields_bind; [apply yields_any|]. intros _ _.
  eapply yields_bind; [apply yields_newFetchConfig|]. intros [fc|err] Hfc;
    [|apply yields_halt].
  eapply yields_bind; [apply yields_any|]. intros r' _.
  apply yields_ret. apply Forall_app. split; [exact Hjobs|].
  constructor; [|constructor]. cbn. by apply Hfc.
Qed.

Lemma yields_requestBody env fuel cfg client lim vars req :
  sharing lim (fst vars) ->
  yields (fun vars' => sharing lim (fst vars'))
         (requestBody env fuel cfg client lim vars req).
Proof.
  destruct vars as [jobs tables]. cbn. intros Hjobs.
  eapply yields_bind; [apply yields_any|]. intros _ _.
  eapply yields_bind; [apply yields_newFetchConfig|]. intros res Hres.
  eapply (yields_bind (fun fc => web.RateLimiter fc = lim)).
  { destruct res; [apply yields_ret; by apply Hres | apply yields_halt]. }
  intros fc Hfc.
  eapply yields_bind; [apply yields_any|]. intros r' _.
  eapply (yields_bind (sharing lim)).
  - destruct (Request.Timeseries r') as [ts|].
    + eapply yields_bind; [apply yields_any|]. intros u _.
      destruct (timeseries.setChunks env fuel ts u) as [ts' ending].
      eapply yields_bind; [apply yields_any|]. intros _ _.
      destruct ending as [[err|]|]; try apply yields_halt.
      apply yields_range; [exact Hjobs|].
      intros b x Hb. by apply yields_chunkBody.
    + apply yields_ret. apply Forall_app. split; [exact Hjobs|].
      by constructor.
  - intros jobs' Hjobs'.
    eapply yields_bind; [apply yields_any|]. intros r'' _.
    destruct (Request.Table r''); by apply yields_ret.
Qed.

End Validation.

Import Transport.

Ltac emits_step :=
  lazymatch goal with
  | |- emits _ (bind _ _) => apply emits_bind; [|intros ?]
  | |- emits _ (ret _) => apply emits_ret
  | |- emits _ (halt _) => apply emits_halt
  | |- emits _ (deref _) => apply emits_deref
  | |- emits _ (derefURL _) => apply emits_derefURL
  | |- emits _ (assign _ _) => apply emits_assign
  | |- emits _ (newURL _) => apply emits_newURL
  | |- emits _ (newLimiter _) => apply emits_newLimiter
  | |- emits _ (try _ _) => apply emits_try
  | |- emits _ (Config.log _ _ _) => apply emits_log
  | |- emits _ (emit _) => apply emits_emit
  | |- emits _ (range _ _ _) => apply emits_range; intros ? ? ?
  | |- emits _ (match ?x with _ => _ end) => destruct x
  end.

Section Limiter.

(** Planning only reads and writes the store. *)
Lemma emits_newFetchConfig φ env cfg req client lim :
  emits φ (newFetchConfig env cfg req client lim).
Proof. unfold newFetchConfig. repeat emits_step. Qed.

Lemma emits_setQuery φ req name value : emits φ (setQuery req name value).
Proof. unfold setQuery. repeat emits_step. Qed.

Lemma emits_chunkBody φ env cfg req client lim jobs chunk :
  emits φ (chunkBody env cfg req client lim jobs chunk).
Proof.
  unfold chunkBody.
  repeat first [apply emits_setQuery | apply emits_newFetchConfig | emits_step].
Qed.

Lemma emits_requestBody φ env fuel cfg client lim vars req :
  emits φ (requestBody env fuel cfg client lim vars req).
Proof.
  unfold requestBody, defaultMethod, setTimeseries. destruct vars as [jobs tables].
  repeat first [apply emits_chunkBody | apply emits_newFetchConfig | emits_step].
Qed.

Lemma emits_connect (φ : Event -> Prop) env cfg :
  (forall s, φ (EvNewClient s)) -> emits φ (Config.connect env cfg).
Proof. intros H. unfold Config.connect. repeat first [emits_step | apply H]. Qed.

Lemma emits_reposFrom (φ : Event -> Prop) env cfg i dnss repos :
  (forall j dns, φ (EvNewTx j dns)) -> (forall f a, φ (EvLog f a)) ->
  emits φ (Config.reposFrom env cfg i dnss repos).
Proof.
  intros H1 H2. revert i repos. induction dnss as [|dns dnss IH]; intros i repos; cbn.
  - apply emits_ret.
  - repeat first [apply IH | emits_step | apply H1 | apply H2].
Qed.

Lemma emits_truncate (φ : Event -> Prop) env cfg tables repos :
  (forall r t, φ (EvTruncate r t)) -> (forall f a, φ (EvLog f a)) ->
  emits φ (range repos (truncateBody env cfg tables) tt).
Proof.
  intros H1 H2. unfold truncateBody. repeat first [emits_step | apply H1 | apply H2].
Qed.

Lemma emits_startWorkers (φ : Event -> Prop) env worker :
  (forall w i, φ (EvGo w i)) -> emits φ (startWorkers env worker).
Proof. intros H. unfold startWorkers. repeat first [emits_step | apply H]. Qed.

Lemma emits_awaitDone (φ : Event -> Prop) env jobs repos :
  φ EvAwaitDone -> emits φ (awaitDone env jobs repos).
Proof.
  intros H. unfold awaitDone. destruct jobs; [apply emits_ret|].
  destruct (workers_finish env _ _); repeat first [emits_step | apply H].
Qed.

Lemma emits_commit (φ : Event -> Prop) env repos :
  (forall r, φ (EvCommit r)) -> emits φ (range repos (commitBody env) tt).
Proof. intros H. unfold commitBody. repeat first [emits_step | apply H]. Qed.

Lemma emits_enqueue (φ : Event -> Prop) jobs :
  Forall (fun job => φ (EvEnqueue job)) jobs ->
  emits φ (range jobs (fun _ job => emit (EvEnqueue job)) tt).
Proof.
  intros H. apply emits_range. intros _ job Hjob. apply emits_emit.
  rewrite Forall_forall in H. by apply H.
Qed.

Lemma sharing_enqueued lim t :
  Forall (fun ev => forall job, ev = EvEnqueue job ->
                    web.RateLimiter (fetchConfig job) = lim) t ->
  sharing lim (enqueued t).
Proof.
  unfold sharing, enqueued. induction 1 as [|ev t Hev _ IH]; cbn; [constructor|].
  destruct ev; try exact IH. constructor; [by apply Hev | exact IH].
Qed.

End Limiter.

(** C6 on the scenario configuration without a rate limit. *)
Lemma upsert_without_rateLimit_witness :
  Upsert Scenario.env 0 (Scenario.config ["db1"] [1%positive] None true) Scenario.stored
  = (inr (Err (MissingConfigFieldError "rateLimit")), Scenario.stored, []).
Proof. apply upsert_without_rateLimit. reflexivity. Defined.

(** C3 as amended, on a rate limit without a burst. *)
Lemma upsert_rate_limit_fields_witness :
  Upsert Scenario.env 0
         (Scenario.config ["db1"] [1%positive]
            (Some (RateLimitConfig.mk None (Some Second))) true)
         Scenario.stored
  = (inr (Err ErrInvalidRateLimit), Scenario.stored, []).
Proof.
  apply (proj2 (upsert_rate_limit_fields Scenario.env 0
                  (Scenario.config ["db1"] [1%positive]
                     (Some (RateLimitConfig.mk None (Some Second))) true)
                  Scenario.stored
                  (RateLimitConfig.mk None (Some Second)) eq_refl)).
  left. reflexivity.
Defined.

(** C3 as stated fails: a burst of 0 and a period of 0 are present, so
    validation accepts them, and [Upsert] goes on to return nil. *)
Lemma upsert_accepts_zero_rate_limit :
  let rl := RateLimitConfig.mk (Some 0) (Some 0) in
  let cfg := Scenario.config [] [] (Some rl) false in
  ~ (exists burst period,
        RateLimitConfig.Burst rl = Some burst /\ RateLimitConfig.Period rl = Some period
        /\ 0 < burst /\ 0 < period)
  /\ Config.validate cfg = None
  /\ returned (Upsert Scenario.env 0 cfg Scenario.stored) = inl tt
  /\ returned (Upsert Scenario.env 0 cfg Scenario.stored) <> inr (Err ErrInvalidRateLimit).
Proof.
  cbn zeta. split; [|split; [|split]].
  - intros (b & p & [= <-] & _ & Hb & _). lia.
  - reflexivity.
  - vm_compute. reflexivity.
  - vm_compute. discriminate.
Qed.

(** * The timeseries planner *)

Section Planner.
Import timeseries.

Lemma wrap64_small z : - 2 ^ 63 <= z < 2 ^ 63 -> wrap64 z = z.
Proof. intros H. unfold wrap64. rewrite Z.mod_small; lia. Qed.

Lemma wrap64_period period :
  0 < period < 2 ^ 31 -> wrap64 (Second * period) = period * Second.
Proof.
  intros H. rewrite wrap64_small; [lia|]. unfold Second.
  change (2 ^ 63) with 9223372036854775808. change (2 ^ 31) with 2147483648 in H. lia.
Qed.

(** The loop computes the recurrence, and ends, when the period is
    positive: [n] bounds the number of periods left in the window. *)
Lemma loop_walk period end_ (n : nat) :
  0 < period ->
  forall start acc,
    end_ - start <= Z.of_nat n * period ->
    exists planned,
      walk period end_ start planned
      /\ (length planned <= n)%nat
      /\ forall fuel, (length planned < fuel)%nat ->
           loop fuel period end_ start acc = Some (acc ++ planned).
Proof.
  intros Hp. induction n as [|n IH]; intros start acc Hn.
  - exists []. split; [constructor; lia|]. split; [cbn; lia|].
    intros [|fuel] Hf; [cbn in Hf; lia|]. cbn. unfold Before.
    destruct (Z.ltb_spec start end_); [lia|]. by rewrite app_nil_r.
  - destruct (Z.lt_ge_cases start end_) as [Hlt|Hge].
    + destruct (IH (start + period) (acc ++ [(start, Z.min (start + period) end_)]))
        as (planned & Hw & Hlen & Hloop); [lia|].
      exists ((start, Z.min (start + period) end_) :: planned).
      split; [by constructor|]. split; [cbn; lia|].
      intros [|fuel] Hf; [cbn in Hf; lia|]. cbn in Hf. cbn. unfold Before, Add.
      destruct (Z.ltb_spec start end_); [|lia].
      rewrite <- app_assoc in Hloop. cbn in Hloop.
      destruct (Z.ltb_spec (start + period) end_).
      * rewrite Z.min_l in Hloop |- * by lia. apply Hloop. lia.
      * rewrite Z.min_r in Hloop |- * by lia. apply Hloop. lia.
    + exists []. split; [constructor; lia|]. split; [cbn; lia|].
      intros [|fuel] Hf; [cbn in Hf; lia|]. cbn. unfold Before.
      destruct (Z.ltb_spec start end_); [lia|]. by rewrite app_nil_r.
Qed.

(** With a period that is not positive the loop does not end: it uses
    up any fuel. *)
Lemma loop_never_ends period end_ fuel :
  period <= 0 ->
  forall start acc, start < end_ -> loop fuel period end_ start acc = None.
Proof.
  intros Hp. induction fuel as [|fuel IH]; intros start acc Hlt; [reflexivity|].
  cbn. unfold Before, Add.
  destruct (Z.ltb_spec start end_); [|lia].
  destruct (Z.ltb_spec (start + period) end_); [|lia].
  apply IH. lia.
Qed.

Lemma walk_unique period end_ start cs :
  walk period end_ start cs -> forall cs', walk period end_ start cs' -> cs' = cs.
Proof.
  induction 1 as [cursor Hge | cursor cs Hlt Hw IH]; intros cs' Hw'.
  - inversion Hw'; subst; [reflexivity | lia].
  - inversion Hw' as [|? cs'' ? Hw'']; subst; [lia|]. f_equal. by apply IH.
Qed.

Lemma walk_empty period end_ start cs :
  walk period end_ start cs -> end_ <= start -> cs = [].
Proof. intros Hw Hge. inversion Hw; subst; [reflexivity | lia]. Qed.

Lemma walk_single period end_ start cs :
  walk period end_ start cs -> start < end_ -> end_ - start <= period ->
  cs = [(start, end_)].
Proof.
  intros Hw Hlt Hp. inversion Hw as [|? cs' ? Hw']; subst; [lia|].
  rewrite Z.min_r by lia. f_equal. eapply walk_empty; [exact Hw' | lia].
Qed.

(** The closed form of the chunk at position [i]. *)
Lemma walk_lookup period end_ start cs :
  walk period end_ start cs ->
  forall (i : nat) c, cs !! i = Some c ->
    c = (start + Z.of_nat i * period,
         Z.min (start + (Z.of_nat i + 1) * period) end_)
    /\ start + Z.of_nat i * period < end_.
Proof.
  induction 1 as [cursor Hge | cursor cs Hlt Hw IH]; intros i c Hi; [done|].
  destruct i as [|i]; cbn in Hi.
  - injection Hi as <-. split; [f_equal; lia | lia].
  - destruct (IH i c Hi) as [-> Hlt']. split; [|lia].
    f_equal; [lia | f_equal; lia].
Qed.

Lemma walk_covers period end_ start cs :
  0 < period -> walk period end_ start cs -> start < end_ ->
  forall t, start <= t <= end_ <-> exists c, c ∈ cs /\ within t c.
Proof.
  intros Hp. induction 1 as [cursor Hge | cursor cs Hlt Hw IH]; intros Hwin t; [lia|].
  unfold within in *. split.
  - intros Ht. destruct (Z.le_gt_cases t (Z.min (cursor + period) end_)) as [Hle|Hgt].
    + eexists. split; [left|]. cbn. lia.
    + assert (Hnext : cursor + period < end_) by lia.
      destruct (proj1 (IH Hnext t)) as (c & Hc & Hin); [lia|].
      exists c. split; [by right | exact Hin].
  - intros (c & Hc & Hin). apply elem_of_cons in Hc as [-> | Hc].
    + cbn in Hin. lia.
    + destruct (Z.lt_ge_cases (cursor + period) end_) as [Hnext|Hnext].
      * assert (cursor + period <= t <= end_) by (apply (IH Hnext); eauto). lia.
      * apply walk_empty in Hw; [|lia]. subst. by apply elem_of_nil in Hc.
Qed.

Lemma walk_last period end_ start cs :
  walk period end_ start cs -> start < end_ -> snd <$> last cs = Some end_.
Proof.
  induction 1 as [cursor Hge | cursor cs Hlt Hw IH]; intros Hwin; [lia|].
  destruct (Z.lt_ge_cases (cursor + period) end_) as [Hnext|Hnext].
  - specialize (IH Hnext). destruct cs as [|c cs]; [done|]. exact IH.
  - apply walk_empty in Hw; [|lia]. subst. cbn. f_equal. lia.
Qed.

Lemma walk_head period end_ start cs :
  walk period end_ start cs -> start < end_ -> fst <$> head cs = Some start.
Proof. intros Hw Hlt. inversion Hw; subst; [lia | reflexivity]. Qed.

Lemma walk_chunks period end_ start cs :
  0 < period -> walk period end_ start cs ->
  (forall c, c ∈ cs -> fst c < snd c <= fst c + period)
  /\ (forall (i : nat) c c', cs !! i = Some c -> cs !! S i = Some c' ->
        snd c - fst c = period /\ snd c = fst c' /\ fst c < fst c').
Proof.
  intros Hp Hw. split.
  - intros c Hc. apply list_elem_of_lookup in Hc as [i Hi].
    destruct (walk_lookup _ _ _ _ Hw i c Hi) as [-> Hlt]. cbn. lia.
  - intros i c c' Hi Hi'.
    destruct (walk_lookup _ _ _ _ Hw i c Hi) as [-> Hlt].
    destruct (walk_lookup _ _ _ _ Hw (S i) c' Hi') as [-> Hlt']. cbn. lia.
Qed.

(** C2.  When the query holds exactly one value under the start name
    and one under the end name, both parse, and the period is a positive
    [int32], [setChunks] returns nil (given fuel for its loop) and has
    appended to the chunks exactly the sequence [planned] of the
    recurrence, with the period counted in seconds; the recurrence has
    no other outcome.  For [start < end] the chunks cover exactly
    [[start, end]], begin at [start] and end at [end], each is non-empty
    and no longer than the period, and each chunk that has a successor
    has the length of the period, ends where the successor begins and
    begins before it.  For [start >= end] nothing is appended; a period
    that is not shorter than the window gives the one chunk
    [[start, end]]. *)
Theorem setChunks_follows_recurrence env ts url startValue endValue start end_ :
  let layout := layoutOf ts in
  let period := Period ts * Second in
  index (RawQuery url) (StartName ts) = [startValue] ->
  index (RawQuery url) (EndName ts) = [endValue] ->
  time_Parse env layout startValue = Some start ->
  time_Parse env layout endValue = Some end_ ->
  0 < Period ts < 2 ^ 31 ->
  exists planned,
    walk period end_ start planned
    /\ (forall cs, walk period end_ start cs -> cs = planned)
    /\ (exists enough, forall fuel, (enough <= fuel)%nat ->
          setChunks env fuel ts url
          = (mk (StartName ts) (EndName ts) (Period ts) (Some layout)
                (chunks ts ++ planned),
             Returns None))
    /\ (start < end_ ->
        (forall t, start <= t <= end_ <-> exists c, c ∈ planned /\ within t c)
        /\ fst <$> head planned = Some start
        /\ snd <$> last planned = Some end_
        /\ (forall c, c ∈ planned -> fst c < snd c <= fst c + period)
        /\ (forall (i : nat) c c', planned !! i = Some c -> planned !! S i = Some c' ->
              snd c - fst c = period /\ snd c = fst c' /\ fst c < fst c'))
    /\ (end_ <= start -> planned = [])
    /\ (start < end_ -> end_ - start <= period -> planned = [(start, end_)]).
Proof.
  intros layout period Hs He Hps Hpe Hp.
  assert (Hpos : 0 < period) by (unfold period, Second; lia).
  destruct (loop_walk period end_ (Z.to_nat (end_ - start)) Hpos start (chunks ts))
    as (planned & Hw & Hlen & Hloop).
  { unfold period, Second in *. nia. }
  exists planned. split; [exact Hw|].
  split; [intros cs Hcs; by eapply walk_unique|].
  split.
  { exists (S (length planned)). intros fuel Hfuel.
    unfold setChunks. fold layout. cbn. rewrite Hs, He. fold layout.
    rewrite Hps, Hpe, wrap64_period by exact Hp. fold period.
    rewrite Hloop by lia. reflexivity. }
  split.
  { intros Hlt. split; [by apply (walk_covers period)|].
    split; [by apply (walk_head period end_)|].
    split; [by apply (walk_last period end_ start)|].
    by apply (walk_chunks period end_ start). }
  split; [by apply (walk_empty period end_) | by apply walk_single].
Qed.

(** C8, as amended.  [setChunks] makes four checks in this order and
    returns the error of the first that fails: the start name has
    exactly one value in the query (else MissingTimeseriesField
    "startName"); that value parses under the layout, RFC 3339 when none
    is set (else UnableToParse "startTime"); the end name has exactly
    one value (else MissingTimeseriesField "endName"); that value parses
    (else UnableToParse "endTime").  Whenever it returns an error the
    chunks are as they were. *)
Theorem setChunks_errors env fuel ts url :
  let layout := layoutOf ts in
  let ts' := mk (StartName ts) (EndName ts) (Period ts) (Some layout) (chunks ts) in
  let startSlice := index (RawQuery url) (StartName ts) in
  let endSlice := index (RawQuery url) (EndName ts) in
  (length startSlice <> 1%nat ->
   setChunks env fuel ts url
   = (ts', Returns (Some (MissingTimeseriesFieldError "startName"))))
  /\ (forall v, startSlice = [v] -> time_Parse env layout v = None ->
      setChunks env fuel ts url
      = (ts', Returns (Some (UnableToParseError "startTime"))))
  /\ (forall v start, startSlice = [v] -> time_Parse env layout v = Some start ->
      length endSlice <> 1%nat ->
      setChunks env fuel ts url
      = (ts', Returns (Some (MissingTimeseriesFieldError "endName"))))
  /\ (forall v start w, startSlice = [v] -> time_Parse env layout v = Some start ->
      endSlice = [w] -> time_Parse env layout w = None ->
      setChunks env fuel ts url
      = (ts', Returns (Some (UnableToParseError "endTime"))))
  /\ (forall ts1 err, setChunks env fuel ts url = (ts1, Returns (Some err)) ->
      chunks ts1 = chunks ts).
Proof.
  intros layout ts' startSlice endSlice.
  unfold setChunks. fold layout. cbn. fold startSlice endSlice. fold ts'.
  repeat split.
  - intros Hlen. destruct startSlice as [|v [|v' l]]; cbn in Hlen; [done|lia|done].
  - intros v -> ->. reflexivity.
  - intros v start -> -> Hlen.
    destruct endSlice as [|w [|w' l]]; cbn in Hlen; [done|lia|done].
  - intros v start w -> -> -> ->. reflexivity.
  - intros ts1 err.
    destruct startSlice as [|v [|v' l]]; [by intros [= <- _]| |by intros [= <- _]].
    destruct (time_Parse env layout v); [|by intros [= <- _]].
    destruct endSlice as [|w [|w' l]]; [by intros [= <- _]| |by intros [= <- _]].
    destruct (time_Parse env layout w); [|by intros [= <- _]].
    destruct (loop _ _ _ _ _); intros [=].
Qed.

End Planner.

(** C2 on the window from 00:00 to 00:03 in chunks of a minute. *)
Lemma setChunks_follows_recurrence_witness :
  exists planned,
    walk (60 * Second) (Scenario.minute 3) (Scenario.minute 0) planned
    /\ exists enough, forall fuel, (enough <= fuel)%nat ->
         snd (timeseries.setChunks Scenario.env fuel (Scenario.everyMinute None)
                                   Scenario.candlesURL)
         = timeseries.Returns None.
Proof.
  destruct (setChunks_follows_recurrence Scenario.env (Scenario.everyMinute None)
              Scenario.candlesURL "00:00" "00:03"
              (Scenario.minute 0) (Scenario.minute 3))
    as (planned & Hw & _ & (enough & Hret) & _);
    [vm_compute; reflexivity .. | cbn; lia |].
  exists planned. split; [exact Hw|].
  exists enough. intros fuel Hfuel. rewrite (Hret fuel Hfuel). reflexivity.
Defined.

(** C8 as amended, on a date-only layout that the value does not fit. *)
Lemma setChunks_errors_witness :
  snd (timeseries.setChunks Scenario.env 5 (Scenario.everyMinute (Some "2006-01-02"))
                            Scenario.candlesURL)
  = timeseries.Returns (Some (UnableToParseError "startTime")).
Proof.
  rewrite (proj1 (proj2 (setChunks_errors Scenario.env 5
                           (Scenario.everyMinute (Some "2006-01-02"))
                           Scenario.candlesURL)) "00:00");
    [reflexivity | vm_compute; reflexivity | vm_compute; reflexivity].
Defined.

(** C8 as stated fails: the end name has no value in the query, yet the
    error is not MissingTimeseriesField for it, because the start value,
    checked first, does not parse. *)
Lemma setChunks_reports_start_before_end :
  let ts := Scenario.everyMinute None in
  let url := Scenario.brokenURL in
  length (index (RawQuery url) (timeseries.EndName ts)) <> 1%nat
  /\ snd (timeseries.setChunks Scenario.env 5 ts url)
     = timeseries.Returns (Some (UnableToParseError "startTime"))
  /\ snd (timeseries.setChunks Scenario.env 5 ts url)
     <> timeseries.Returns (Some (MissingTimeseriesFieldError "endName")).
Proof.
  cbn zeta. split; [vm_compute; discriminate|].
  split; [vm_compute; reflexivity | vm_compute; discriminate].
Qed.

(** * Upsert, part by part *)

Ltac keeps_step :=
  lazymatch goal with
  | |- PreOrder _ => apply _
  | |- forall _, _ => intros ?
  | |- keeps _ (bind _ _) => apply keeps_bind
  | |- keeps _ (ret _) => apply keeps_ret
  | |- keeps _ (halt _) => apply keeps_halt
  | |- keeps _ (emit _) => apply keeps_emit
  | |- keeps _ (deref _) => apply keeps_deref
  | |- keeps _ (derefURL _) => apply keeps_derefURL
  | |- keeps _ (try _ _) => apply keeps_try
  | |- keeps _ (Config.log _ _ _) => apply keeps_log
  | |- keeps _ (range _ _ _) => apply keeps_range
  | |- keeps _ (match ?x with _ => _ end) => destruct x
  end.

Section Parts.
Context (env : Env) (fuel : nat) (cfg : Config.t).

Lemma bind_assoc {A B C : Type} (m : M A) (f : A -> M B) (g : B -> M C) st :
  bind (bind m f) g st = bind m (fun a => bind (f a) g) st.
Proof.
  unfold bind. destruct (m st) as [[[a|h] st1] e1]; [|done].
  destruct (f a st1) as [[[b|h] st2] e2]; [|done].
  destruct (g b st2) as [[r st3] e3]. by rewrite app_assoc.
Qed.

Lemma bind_ext {A B : Type} (m : M A) (f g : A -> M B) st :
  (forall a st', f a st' = g a st') -> bind m f st = bind m g st.
Proof.
  intros H. unfold bind. destruct (m st) as [[[a|h] st1] e1]; [|done].
  by rewrite H.
Qed.

Lemma bind_ret_l {A B : Type} (a : A) (f : A -> M B) st : bind (ret a) f st = f a st.
Proof. unfold bind, ret. by destruct (f a st) as [[r st'] e]. Qed.

Lemma Upsert_by_parts st : Upsert env fuel cfg st = UpsertByParts env fuel cfg st.
Proof.
  unfold Upsert, UpsertByParts. destruct (Config.validate cfg); [reflexivity|].
  unfold prepare, truncateTables, runWorkers, commitAll.
  repeat (rewrite bind_assoc; apply bind_ext; intros ? ?).
  match goal with vars : (list flattenedRequest * list string)%type |- _ =>
    destruct vars as [jobs tables] end.
  rewrite bind_ret_l. apply bind_ext. intros _ st''.
  repeat (rewrite bind_assoc; apply bind_ext; intros ? ?).
  reflexivity.
Qed.

(** How a sequence ends: with the halt of its first part, or with
    whatever the second part does from where the first has left. *)
Lemma bind_cases {A B : Type} (m : M A) (k : A -> M B) st :
  (exists h, returned (m st) = inr h
             /\ bind m k st = (inr h, store (m st), trace (m st)))
  \/ (exists a, returned (m st) = inl a
                /\ bind m k st
                   = (returned (k a (store (m st))), store (k a (store (m st))),
                      trace (m st) ++ trace (k a (store (m st))))).
Proof.
  unfold bind, returned, store, trace.
  destruct (m st) as [[[a|h] st1] e1]; cbn; [right | left; eauto].
  exists a. split; [reflexivity|]. by destruct (k a st1) as [[r st2] e2].
Qed.

Lemma emits_prepare : emits ofPrepare (prepare env fuel cfg).
Proof.
  unfold prepare.
  apply emits_bind; [by apply emits_connect|]. intros res.
  apply emits_bind; [apply emits_try|]. intros client.
  apply emits_bind; [by apply emits_log|]. intros _.
  apply emits_bind; [by apply emits_reposFrom|]. intros res'.
  apply emits_bind; [apply emits_try|]. intros repos.
  apply emits_bind; [unfold rateLimiterOf; repeat emits_step|]. intros lim.
  apply emits_bind; [apply emits_range; intros; apply emits_requestBody|].
  intros [jobs tables]. apply emits_ret.
Qed.

Lemma emits_truncateTables repos tables :
  emits ofTruncate (truncateTables env cfg repos tables).
Proof.
  unfold truncateTables.
  destruct (Config.Truncate cfg); [by apply emits_truncate | apply emits_ret].
Qed.

Lemma emits_runWorkers jobs repos : emits ofWorkers (runWorkers env cfg jobs repos).
Proof.
  unfold runWorkers.
  repeat first [ apply emits_startWorkers | apply emits_awaitDone | apply emits_enqueue
               | emits_step ]; try done.
  by apply Forall_forall.
Qed.

Lemma emits_commitAll repos : emits ofCommit (commitAll env repos).
Proof. by apply emits_commit. Qed.

(** After planning nothing writes the store. *)
Lemma keeps_truncateTables repos tables : keeps eq (truncateTables env cfg repos tables).
Proof. unfold truncateTables, truncateBody. repeat keeps_step. Qed.

Lemma keeps_runWorkers jobs repos : keeps eq (runWorkers env cfg jobs repos).
Proof. unfold runWorkers, startWorkers, awaitDone. repeat keeps_step. Qed.

Lemma keeps_commitAll repos : keeps eq (commitAll env repos).
Proof. unfold commitAll, commitBody. repeat keeps_step. Qed.

#[local] Instance grows_preorder : PreOrder grows.
Proof.
  split.
  - intros st. split; [reflexivity | reflexivity].
  - intros st1 st2 st3 [H1 U1] [H2 U2]. split.
    + intros req. by rewrite H2, H1.
    + by transitivity (urls st2).
Qed.

Lemma grows_assign req r r' st :
  requests st !! req = Some r -> Request.Table r' = Request.Table r ->
  grows st (mkStore (<[req := r']> (requests st)) (urls st) (limiters st)).
Proof.
  intros Hr Ht. split; [|reflexivity]. intros l. cbn.
  destruct (decide (req = l)) as [<-|Hne].
  - by rewrite lookup_insert_eq, Hr; cbn; rewrite Ht.
  - by rewrite lookup_insert_ne.
Qed.

Lemma keeps_newURL v : keeps grows (newURL v).
Proof.
  intros st. split; [reflexivity|]. cbn.
  apply insert_subseteq, not_elem_of_dom, is_fresh.
Qed.

Lemma keeps_setQuery req name value : keeps grows (setQuery req name value).
Proof.
  intros st. unfold setQuery, bind, deref, assign, halt.
  destruct (requests st !! req) as [r|] eqn:Hr; cbn; [|reflexivity].
  destruct (Request.Query r); cbn; [|reflexivity].
  by eapply grows_assign.
Qed.

Lemma keeps_defaultMethod req : keeps grows (defaultMethod req).
Proof.
  intros st. unfold defaultMethod, bind, deref, assign, ret.
  destruct (requests st !! req) as [r|] eqn:Hr; cbn; [|reflexivity].
  destruct (decide _); cbn; [|reflexivity].
  by eapply grows_assign.
Qed.

Lemma keeps_setTimeseries req ts : keeps grows (setTimeseries req ts).
Proof.
  intros st. unfold setTimeseries, bind, deref, assign.
  destruct (requests st !! req) as [r|] eqn:Hr; cbn; [|reflexivity].
  by eapply grows_assign.
Qed.

Lemma keeps_newFetchConfig req client lim :
  keeps grows (newFetchConfig env cfg req client lim).
Proof. unfold newFetchConfig. repeat first [apply keeps_newURL | keeps_step]. Qed.

Lemma keeps_chunkBody req client lim jobs chunk :
  keeps grows (chunkBody env cfg req client lim jobs chunk).
Proof.
  unfold chunkBody.
  repeat first [apply keeps_setQuery | apply keeps_newFetchConfig | keeps_step].
Qed.

Lemma keeps_requestBody client lim vars req :
  keeps grows (requestBody env fuel cfg client lim vars req).
Proof.
  unfold requestBody. destruct vars as [jobs tables].
  repeat first [ apply keeps_defaultMethod | apply keeps_setTimeseries
               | apply keeps_chunkBody | apply keeps_newFetchConfig | keeps_step ].
Qed.

Lemma bind_inl {A B : Type} (m : M A) (k : A -> M B) st b :
  returned (bind m k st) = inl b ->
  exists a, returned (m st) = inl a /\ returned (k a (store (m st))) = inl b.
Proof.
  rewrite returned_bind. destruct (returned (m st)) as [a|h]; [eauto | discriminate].
Qed.

Lemma tablesOf_cons st req reqs :
  tablesOf st (req :: reqs)
  = option_list (requests st !! req ≫= Request.Table) ++ tablesOf st reqs.
Proof. unfold tablesOf. csimpl. by destruct (requests st !! req ≫= Request.Table). Qed.

Lemma tablesOf_grows st st' reqs : grows st st' -> tablesOf st' reqs = tablesOf st reqs.
Proof.
  intros [Ht _]. induction reqs as [|req reqs IH]; [done|].
  rewrite !tablesOf_cons, IH. f_equal. specialize (Ht req).
  destruct (requests st' !! req), (requests st !! req); cbn in *; congruence.
Qed.

(** One iteration of the loop over the requests adds the table of its
    request, if it has one, to the tables. *)
Lemma requestBody_tables client lim jobs tables req st jobs' tables' :
  returned (requestBody env fuel cfg client lim (jobs, tables) req st) = inl (jobs', tables') ->
  tables' = tables ++ tablesOf st [req].
Proof.
  unfold requestBody. intros H.
  apply bind_inl in H as ([] & _ & H).
  pose proof (keeps_defaultMethod req st) as G1.
  set (st1 := store (defaultMethod req st)) in *.
  apply bind_inl in H as (res & _ & H).
  pose proof (keeps_newFetchConfig req client lim st1) as G2.
  set (st2 := store (newFetchConfig env cfg req client lim st1)) in *.
  apply bind_inl in H as (fc & _ & H).
  assert (G3 : grows st2 (store (try res (fun err => err) st2)))
    by (apply keeps_try; apply _).
  set (st3 := store (try res (fun err => err) st2)) in *.
  apply bind_inl in H as (r & _ & H).
  assert (G4 : grows st3 (store (deref req st3))) by (apply keeps_deref; apply _).
  set (st4 := store (deref req st3)) in *.
  apply bind_inl in H as (jobs1 & _ & H).
  match type of H with
  | context [store (?m st4)] => assert (G5 : keeps grows m)
  end.
  { repeat first [ apply keeps_setTimeseries | apply keeps_chunkBody | keeps_step ]. }
  specialize (G5 st4).
  match type of G5 with grows _ ?s => set (st5 := s) in * end.
  assert (G : grows st st5).
  { transitivity st1; [exact G1|]. transitivity st2; [exact G2|].
    transitivity st3; [exact G3|]. transitivity st4; [exact G4 | exact G5]. }
  apply bind_inl in H as (r' & Hr' & H).
  unfold deref, returned in Hr'. cbn in Hr'.
  rewrite <- (tablesOf_grows _ _ [req] G), tablesOf_cons.
  destruct (requests st5 !! req) as [r''|]; [|discriminate]. injection Hr' as ->. cbn.
  destruct (Request.Table r'); cbn in H; unfold returned in H; cbn in H;
    injection H as _ <-; [reflexivity | by rewrite app_nil_r].
Qed.

Lemma plan_tables client lim reqs : forall jobs tables st jobs' tables',
  returned (range reqs (requestBody env fuel cfg client lim) (jobs, tables) st)
  = inl (jobs', tables') ->
  tables' = tables ++ tablesOf st reqs.
Proof.
  induction reqs as [|req reqs IH]; intros jobs tables st jobs' tables' H.
  - injection H as _ <-. by rewrite app_nil_r.
  - cbn [range] in H. apply bind_inl in H as ([jobs1 tables1] & H1 & H).
    pose proof (keeps_requestBody client lim (jobs, tables) req st) as G.
    apply requestBody_tables in H1 as ->. apply IH in H as ->.
    rewrite (tablesOf_grows _ _ reqs G).
    by rewrite <- app_assoc, (tablesOf_cons st req reqs), (tablesOf_cons st req []), app_nil_r.
Qed.

Lemma yields_reposFrom dnss : forall i acc,
  yields (fun res => forall repos, res = OK repos ->
                     repos = acc ++ imap (fun j => mkRepo (i + j)) dnss)
         (Config.reposFrom env cfg i dnss acc).
Proof.
  induction dnss as [|dns dnss IH]; intros i acc; cbn [Config.reposFrom].
  - apply yields_ret. intros repos [= <-]. by rewrite app_nil_r.
  - eapply yields_bind; [apply yields_any|]. intros _ _.
    destruct (repository_NewTx env i dns); [by apply yields_ret|].
    eapply yields_bind; [apply yields_any|]. intros _ _.
    intros st res Hres repos ->.
    rewrite (IH _ _ st _ Hres repos eq_refl), <- app_assoc. cbn.
    rewrite Nat.add_0_r. do 2 f_equal. apply imap_ext. intros j dns' _. cbn.
    f_equal. lia.
Qed.

Lemma keeps_connect : keeps eq (Config.connect env cfg).
Proof. unfold Config.connect. repeat keeps_step. Qed.

Lemma keeps_reposFrom dnss : forall i acc, keeps eq (Config.reposFrom env cfg i dnss acc).
Proof.
  induction dnss as [|dns dnss IH]; intros i acc; cbn [Config.reposFrom];
    repeat first [apply IH | keeps_step].
Qed.

(** Making the limiter leaves the requests and the URLs alone. *)
Lemma rateLimiterOf_cells st :
  requests (store (rateLimiterOf cfg st)) = requests st
  /\ urls (store (rateLimiterOf cfg st)) = urls st.
Proof. unfold rateLimiterOf. by repeat case_match. Qed.

Lemma keeps_rateLimiterOf : keeps grows (rateLimiterOf cfg).
Proof.
  intros st. destruct (rateLimiterOf_cells st) as [Hr Hu].
  split; [by rewrite Hr | by rewrite Hu].
Qed.

(** What [prepare] returns: the repositories in the order of the
    connection strings, and the tables of the requests in the order of
    the requests, as the store had them at the start. *)
Lemma prepare_value st repos jobs tables :
  returned (prepare env fuel cfg st) = inl (repos, jobs, tables) ->
  repos = reposOf cfg /\ tables = tablesOf st (Config.Requests cfg).
Proof.
  unfold prepare, Config.repos. intros H.
  apply bind_inl in H as (res & _ & H).
  rewrite <- (keeps_connect st) in H.
  apply bind_inl in H as (client & _ & H).
  rewrite <- (keeps_try eq res _ st) in H.
  apply bind_inl in H as ([] & _ & H).
  rewrite <- (keeps_log eq cfg _ _ st) in H.
  apply bind_inl in H as (res' & Hres' & H).
  rewrite <- (keeps_reposFrom (Config.DNSList cfg) 0%nat [] st) in H.
  apply bind_inl in H as (repos' & Hrepos' & H).
  rewrite <- (keeps_try eq res' _ st) in H.
  apply bind_inl in H as (lim & _ & H).
  apply bind_inl in H as ([jobs' tables'] & Hplan & H).
  injection H as <- <- <-.
  split.
  - destruct res' as [repos''|]; [|discriminate]. injection Hrepos' as ->.
    apply (yields_reposFrom (Config.DNSList cfg) 0%nat [] st _ Hres'). reflexivity.
  - apply plan_tables in Hplan as ->. apply tablesOf_grows, keeps_rateLimiterOf.
Qed.

(** [Upsert] ends in validation, in [prepare], or in one of the parts
    that follow; those all run on the store [prepare] has left. *)
Lemma Upsert_cases st :
  let p := prepare env fuel cfg st in
  (exists err, Config.validate cfg = Some err
               /\ Upsert env fuel cfg st = (inr (Err err), st, []))
  \/ (Config.validate cfg = None
      /\ exists h, returned p = inr h
                   /\ Upsert env fuel cfg st = (inr h, store p, trace p))
  \/ (Config.validate cfg = None
      /\ exists jobs,
          returned p = inl (reposOf cfg, jobs, tablesOf st (Config.Requests cfg))
          /\ let st1 := store p in
             let t := truncateTables env cfg (reposOf cfg)
                                     (tablesOf st (Config.Requests cfg)) st1 in
             let w := runWorkers env cfg jobs (reposOf cfg) st1 in
             let c := commitAll env (reposOf cfg) st1 in
             let l := Config.log cfg "upsert completed" [] st1 in
             Upsert env fuel cfg st =
             match returned t with
             | inr h => (inr h, st1, trace p ++ trace t)
             | inl _ =>
                 match returned w with
                 | inr h => (inr h, st1, trace p ++ trace t ++ trace w)
                 | inl _ =>
                     match returned c with
                     | inr h => (inr h, st1, trace p ++ trace t ++ trace w ++ trace c)
                     | inl _ =>
                         (returned l, st1,
                          trace p ++ trace t ++ trace w ++ trace c ++ trace l)
                     end
                 end
             end).
Proof.
  intros p. rewrite Upsert_by_parts. unfold UpsertByParts.
  destruct (Config.validate cfg) as [err|] eqn:Hv; [left; eauto|]. right.
  match goal with |- context [bind _ ?k st] =>
    destruct (bind_cases (prepare env fuel cfg) k st)
      as [(h & Hr & E) | ([[repos jobs] tables] & Hr & E)] end.
  { left. split; [reflexivity|]. exists h. by rewrite E. }
  right. split; [reflexivity|]. fold p in Hr, E.
  destruct (prepare_value st repos jobs tables Hr) as [-> ->].
  exists jobs. split; [exact Hr|]. rewrite E. clear E. cbn zeta.
  set (st1 := store p).
  match goal with |- context [bind _ ?k st1] =>
    destruct (bind_cases (truncateTables env cfg (reposOf cfg)
                            (tablesOf st (Config.Requests cfg))) k st1)
      as [(h & Hr1 & E) | ([] & Hr1 & E)] end;
    rewrite E, Hr1, <- (keeps_truncateTables _ _ st1); clear E; cbn [returned store trace fst snd];
    [reflexivity|].
  match goal with |- context [bind _ ?k st1] =>
    destruct (bind_cases (runWorkers env cfg jobs (reposOf cfg)) k st1)
      as [(h & Hr2 & E) | ([] & Hr2 & E)] end;
    rewrite E, Hr2, <- (keeps_runWorkers _ _ st1); clear E; cbn [returned store trace fst snd];
    [reflexivity|].
  match goal with |- context [bind _ ?k st1] =>
    destruct (bind_cases (commitAll env (reposOf cfg)) k st1)
      as [(h & Hr3 & E) | ([] & Hr3 & E)] end;
    rewrite E, Hr3, <- (keeps_commitAll _ st1); clear E; cbn [returned store trace fst snd];
    [reflexivity|].
  by rewrite <- (keeps_log eq cfg _ _ st1).
Qed.

Lemma commitBody_eq repo st :
  commitBody env tt repo st =
  match repo_Commit env repo with
  | Some cause =>
      (inr (Err (Errorf "unable to commit transaction: %w" cause [])), st, [EvCommit repo])
  | None => (inl tt, st, [EvCommit repo])
  end.
Proof. unfold commitBody, bind, emit. by destruct (repo_Commit env repo). Qed.

Lemma truncateBody_eq tables repo st :
  truncateBody env cfg tables tt repo st =
  match repo_Truncate env repo tables with
  | Some err =>
      (inr (Err (Errorf "unable to truncate tables: %w" err [])), st,
       [EvTruncate repo tables])
  | None =>
      match Config.Logger cfg with
      | Some _ =>
          (inl tt, st,
           [EvTruncate repo tables;
            EvLog "truncated tables on %q: %v"
                  [repo_Scheme env repo; String.concat ", " tables]])
      | None => (inr nilDereference, st, [EvTruncate repo tables])
      end
  end.
Proof.
  unfold truncateBody, bind, emit, Config.log.
  destruct (repo_Truncate env repo tables); [reflexivity|].
  by destruct (Config.Logger cfg).
Qed.

(** The commits are attempted in order and stop at the first that
    fails. *)
Lemma commitAll_cases repos st :
  (Forall (fun repo => repo_Commit env repo = None) repos
   /\ commitAll env repos st = (inl tt, st, EvCommit <$> repos))
  \/ (exists earlier repo cause later,
        repos = earlier ++ repo :: later
        /\ Forall (fun repo => repo_Commit env repo = None) earlier
        /\ repo_Commit env repo = Some cause
        /\ commitAll env repos st
           = (inr (Err (Errorf "unable to commit transaction: %w" cause [])), st,
              EvCommit <$> (earlier ++ [repo]))).
Proof.
  unfold commitAll. induction repos as [|repo repos IH]; [left; split; [constructor|done]|].
  cbn [range]. unfold bind. rewrite commitBody_eq.
  destruct (repo_Commit env repo) as [cause|] eqn:Hc; cbn.
  - right. exists [], repo, cause, repos.
    split; [reflexivity|]. split; [apply Forall_nil_2|]. split; [exact Hc | reflexivity].
  - destruct IH as [[Hall ->] | (earlier & repo' & cause & later & -> & Hall & Hc' & ->)].
    + left. split; [by constructor | reflexivity].
    + right. exists (repo :: earlier), repo', cause, later.
      split; [reflexivity|]. split; [by constructor|]. split; [exact Hc' | reflexivity].
Qed.

(** The truncations are attempted in order, each with the same tables,
    and stop at the first call that does not come back well. *)
Lemma truncate_cases tables repos st :
  let x := range repos (truncateBody env cfg tables) tt st in
  exists k, (k <= length repos)%nat
            /\ truncated (trace x) = (fun repo => (repo, tables)) <$> take k repos
            /\ (returned x = inl tt -> k = length repos).
Proof.
  induction repos as [|repo repos IH]; cbn zeta.
  { exists 0%nat. repeat split; done. }
  cbn [range]. unfold bind. rewrite truncateBody_eq.
  destruct (repo_Truncate env repo tables) as [err|]; cbn.
  { exists 1%nat. split; [lia|]. split; done. }
  destruct (Config.Logger cfg); cbn.
  - destruct IH as (k & Hk & Ht & Hr).
    destruct (range repos (truncateBody env cfg tables) () st) as [[r st'] e] eqn:E.
    cbn in *. exists (S k). split; [lia|]. split; [by rewrite Ht|].
    intros H. f_equal. by apply Hr.
  - exists 1%nat. split; [lia|]. split; done.
Qed.

End Parts.

(** * The limiter of a run *)

Section OneLimiter.
Context (env : Env) (fuel : nat) (cfg : Config.t).

#[local] Instance sameLimiters_preorder : PreOrder sameLimiters.
Proof.
  split; [by intros st|]. unfold sameLimiters. intros st1 st2 st3 H1 H2. congruence.
Qed.

Lemma same_assign req r : keeps sameLimiters (assign req r).
Proof. by intros st. Qed.

Lemma same_newURL v : keeps sameLimiters (newURL v).
Proof. by intros st. Qed.

Lemma same_setQuery req name value : keeps sameLimiters (setQuery req name value).
Proof. unfold setQuery. repeat first [apply same_assign | keeps_step]. Qed.

Lemma same_newFetchConfig req client lim :
  keeps sameLimiters (newFetchConfig env cfg req client lim).
Proof. unfold newFetchConfig. repeat first [apply same_newURL | keeps_step]. Qed.

Lemma same_chunkBody req client lim jobs chunk :
  keeps sameLimiters (chunkBody env cfg req client lim jobs chunk).
Proof.
  unfold chunkBody.
  repeat first [apply same_setQuery | apply same_newFetchConfig | keeps_step].
Qed.

Lemma same_requestBody client lim vars req :
  keeps sameLimiters (requestBody env fuel cfg client lim vars req).
Proof.
  unfold requestBody, defaultMethod, setTimeseries. destruct vars as [jobs tables].
  repeat first [ apply same_assign | apply same_chunkBody | apply same_newFetchConfig
               | keeps_step ].
Qed.

(** Up to the limiter, [prepare] leaves the store as it was; it then
    makes one limiter, and planning makes no other and hands the pointer
    to every job. *)
Lemma prepare_limiter st rl burst period :
  Config.RateLimitConfig cfg = Some rl ->
  RateLimitConfig.Burst rl = Some burst ->
  RateLimitConfig.Period rl = Some period ->
  let p := prepare env fuel cfg st in
  let l := fresh (dom (limiters st)) in
  (forall repos jobs tables, returned p = inl (repos, jobs, tables) -> sharing l jobs)
  /\ (limiters (store p) = <[l := newRateLimiter period burst]> (limiters st)
      \/ limiters (store p) = limiters st /\ forall a, returned p <> inl a).
Proof.
  intros Hrl Hb Hp. cbn zeta. unfold prepare, Config.repos, rateLimiterOf.
  rewrite Hrl, Hb, Hp.
  rewrite ?returned_bind, ?store_bind.
  rewrite <- (keeps_connect env cfg st).
  destruct (returned (Config.connect env cfg st)) as [res|h];
    [|split; [discriminate | right; split; [done | discriminate]]].
  rewrite ?returned_bind, ?store_bind. rewrite <- (keeps_try eq res _ st).
  destruct (returned (try res _ st)) as [client|h];
    [|split; [discriminate | right; split; [done | discriminate]]].
  rewrite ?returned_bind, ?store_bind. rewrite <- (keeps_log eq cfg _ _ st).
  destruct (returned (Config.log cfg _ _ st)) as [[]|h];
    [|split; [discriminate | right; split; [done | discriminate]]].
  rewrite ?returned_bind, ?store_bind.
  rewrite <- (keeps_reposFrom env cfg (Config.DNSList cfg) 0%nat [] st).
  destruct (returned (Config.reposFrom env cfg 0 (Config.DNSList cfg) [] st)) as [res'|h];
    [|split; [discriminate | right; split; [done | discriminate]]].
  rewrite ?returned_bind, ?store_bind. rewrite <- (keeps_try eq res' _ st).
  destruct (returned (try res' _ st)) as [repos0|h];
    [|split; [discriminate | right; split; [done | discriminate]]].
  rewrite ?returned_bind, ?store_bind. cbn [newLimiter returned store fst snd].
  set (l := fresh (dom (limiters st))).
  set (st1 := mkStore (requests st) (urls st) _).
  set (plan := range (Config.Requests cfg) (requestBody env fuel cfg client l) ([], [])).
  rewrite returned_bind, store_bind.
  split.
  - intros repos jobs tables H.
    destruct (returned (plan st1)) as [[jobs' tables']|h] eqn:E; [|discriminate].
    injection H as _ <- _.
    assert (Hy : yields (fun vars => sharing l (fst vars)) plan).
    { apply yields_range; [constructor|]. intros b x. apply yields_requestBody. }
    apply (Hy st1 _ E).
  - left.
    assert (Hk : keeps sameLimiters plan).
    { apply keeps_range; [apply _|]. intros b x. apply same_requestBody. }
    specialize (Hk st1). unfold sameLimiters in Hk.
    destruct (returned (plan st1)) as [[jobs' tables']|h]; cbn; by rewrite Hk.
Qed.

(** The parts of [Upsert] that follow [prepare] enqueue the jobs they
    are given, and no other. *)
Lemma emits_afterPrepare (φ : Event -> Prop) repos jobs tables :
  (forall ev, (forall job, ev <> EvEnqueue job) -> φ ev) ->
  Forall (fun job => φ (EvEnqueue job)) jobs ->
  emits φ (truncateTables env cfg repos tables;;
           runWorkers env cfg jobs repos;;
           commitAll env repos;;
           Config.log cfg "upsert completed" []).
Proof.
  intros Hother Hjobs.
  assert (H1 : forall f a, φ (EvLog f a)) by (intros; by apply Hother).
  unfold truncateTables, runWorkers, commitAll.
  apply emits_bind.
  { destruct (Config.Truncate cfg); [|apply emits_ret].
    apply emits_truncate; [|exact H1]. intros; by apply Hother. }
  intros _. apply emits_bind.
  { apply emits_bind; [apply emits_startWorkers; intros; by apply Hother|]. intros _.
    apply emits_bind; [by apply emits_log|]. intros _.
    apply emits_bind; [apply emits_startWorkers; intros; by apply Hother|]. intros _.
    apply emits_bind; [by apply emits_log|]. intros _.
    apply emits_bind; [by apply emits_enqueue|]. intros _.
    apply emits_bind; [by apply emits_log|]. intros _.
    apply emits_awaitDone. by apply Hother. }
  intros _. apply emits_bind; [apply emits_commit; intros; by apply Hother|].
  intros _. by apply emits_log.
Qed.


End OneLimiter.



(** * Truncation and commit *)

Section Trace.

Lemma committed_app t1 t2 : committed (t1 ++ t2) = committed t1 ++ committed t2.
Proof. apply omap_app. Qed.

Lemma truncated_app t1 t2 : truncated (t1 ++ t2) = truncated t1 ++ truncated t2.
Proof. apply omap_app. Qed.

Lemma committed_commits repos : committed (EvCommit <$> repos) = repos.
Proof. induction repos as [|repo repos IH]; [done|]. csimpl. by rewrite IH. Qed.

Lemma committed_other t : Forall (fun ev => ~ ofCommit ev) t -> committed t = [].
Proof.
  induction 1 as [|ev t Hev _ IH]; [done|]. unfold committed in *. csimpl.
  destruct ev; try exact IH. by destruct Hev.
Qed.

Lemma truncated_other t : Forall (fun ev => ~ isTruncate ev) t -> truncated t = [].
Proof.
  induction 1 as [|ev t Hev _ IH]; [done|]. unfold truncated in *. csimpl.
  destruct ev; try exact IH. by destruct Hev.
Qed.

Lemma elem_of_committed repo t : EvCommit repo ∈ t <-> repo ∈ committed t.
Proof.
  unfold committed. rewrite list_elem_of_omap. split.
  - intros H. by exists (EvCommit repo).
  - intros (ev & Hev & Heq). destruct ev; try discriminate. by injection Heq as ->.
Qed.

Lemma ofPrepare_other ev :
  ofPrepare ev -> ~ ofCommit ev /\ ~ isTruncate ev /\ ~ isGo ev /\ ~ isRollback ev.
Proof. destruct ev; cbn; tauto. Qed.

Lemma ofTruncate_other ev :
  ofTruncate ev -> ~ ofCommit ev /\ ~ isGo ev /\ ~ isRollback ev.
Proof. destruct ev; cbn; tauto. Qed.

Lemma ofWorkers_other ev :
  ofWorkers ev -> ~ ofCommit ev /\ ~ isTruncate ev /\ ~ isRollback ev.
Proof. destruct ev; cbn; tauto. Qed.

Lemma ofCommit_other ev : ofCommit ev -> ~ isTruncate ev /\ ~ isRollback ev.
Proof. destruct ev; cbn; tauto. Qed.

Lemma Forall_commits (φ : Event -> Prop) repos :
  (forall repo, φ (EvCommit repo)) -> Forall φ (EvCommit <$> repos).
Proof. intros H. apply Forall_fmap, Forall_forall. intros repo _. apply H. Qed.

End Trace.

Ltac other :=
  repeat (apply Forall_app; split);
  first
    [ apply Forall_nil_2
    | match goal with
      | H : Forall _ ?t |- Forall _ ?t =>
          apply (Forall_impl _ _ _ H); intros ev Hev;
          first [ pose proof (ofPrepare_other ev Hev) | pose proof (ofTruncate_other ev Hev)
                | pose proof (ofWorkers_other ev Hev) | pose proof (ofCommit_other ev Hev) ];
          tauto
      end ].

Section Commit.
Context (env : Env) (fuel : nat) (cfg : Config.t).


Lemma Forall_not_Exists (φ : Event -> Prop) t :
  Forall (fun ev => ~ φ ev) t -> Exists φ t -> False.
Proof. intros H1 H2. apply Exists_exists in H2 as (ev & Hev & Hφ).
  rewrite Forall_forall in H1. by apply (H1 ev). Qed.


End Commit.





(** * Timeseries expansion *)

Section Expansion.
Context (env : Env) (cfg : Config.t) (client : option Client) (lim : positive).

Lemma deref_eq req r st : requests st !! req = Some r -> deref req st = (inl r, st, []).
Proof. intros H. unfold deref. by rewrite H. Qed.

Lemma bind_silent {A B : Type} (m : M A) (k : A -> M B) st a st1 :
  m st = (inl a, st1, []) -> bind m k st = k a st1.
Proof. intros H. unfold bind. rewrite H. by destruct (k a st1) as [[r st2] e]. Qed.

Lemma bind_silent_any {A B : Type} (m : M A) (k : A -> M B) st x :
  m st = x ->
  bind m k st =
  match x with
  | (inl a, st1, e1) => match k a st1 with (r, st2, e2) => (r, st2, e1 ++ e2) end
  | (inr h, st1, e1) => (inr h, st1, e1)
  end.
Proof. intros <-. reflexivity. Qed.

Lemma bind_halts {A B : Type} (m : M A) (k : A -> M B) st h st1 e :
  m st = (inr h, st1, e) -> bind m k st = (inr h, st1, e).
Proof. intros H. unfold bind. by rewrite H. Qed.

Lemma setQuery_eq req name value r st :
  requests st !! req = Some r ->
  setQuery req name value st =
  match Request.Query r with
  | Some q =>
      (inl tt,
       mkStore (<[req := withQuery r (Some (<[name := value]> q))]> (requests st))
               (urls st) (limiters st),
       [])
  | None => (inr (Panic "assignment to entry in nil map"), st, [])
  end.
Proof.
  intros H. unfold setQuery. rewrite (bind_silent _ _ _ _ _ (deref_eq _ _ _ H)).
  by destruct (Request.Query r).
Qed.

Lemma newFetchConfig_eq req r st :
  requests st !! req = Some r ->
  newFetchConfig env cfg req client lim st =
  match builtURL env cfg r with
  | OK v =>
      let u := fresh (dom (urls st)) in
      (inl (OK (web.mkFetchConfig client (Request.Method r) u lim)),
       mkStore (requests st) (<[u := v]> (urls st)) (limiters st), [])
  | Fail err => (inl (Fail err), st, [])
  end.
Proof.
  intros H. unfold newFetchConfig, builtURL.
  rewrite (bind_silent _ _ _ _ _ (deref_eq _ _ _ H)).
  destruct (url_JoinPath env _ _); [|reflexivity].
  destruct (url_Parse env _); reflexivity.
Qed.


Lemma chunkBody_eq req r ts layout jobs chunk st :
  requests st !! req = Some r ->
  Request.Timeseries r = Some ts ->
  timeseries.Layout ts = Some layout ->
  chunkBody env cfg req client lim jobs chunk st =
  match Request.Query r with
  | None => (inr (Panic "assignment to entry in nil map"), st, [])
  | Some q =>
      let r2 := withQuery r (Some (written env ts chunk q)) in
      let reqs2 := <[req := r2]> (requests st) in
      match builtURL env cfg r2 with
      | Fail _ =>
          (inr (Err ErrFetchingTimeseriesChunks), mkStore reqs2 (urls st) (limiters st), [])
      | OK v =>
          let u := fresh (dom (urls st)) in
          (inl (jobs ++ [mkFlattenedRequest
                           (web.mkFetchConfig client (Request.Method r) u lim)
                           (Request.Table r)]),
           mkStore reqs2 (<[u := v]> (urls st)) (limiters st), [])
      end
  end.
Proof.
  intros Hr Hts Hl. unfold chunkBody.
  rewrite (bind_silent _ _ _ _ _ (deref_eq _ _ _ Hr)), Hts, Hl.
  destruct (Request.Query r) as [q|] eqn:Hq.
  2: { apply bind_halts. by rewrite (setQuery_eq _ _ _ _ _ Hr), Hq. }
  erewrite bind_silent; [|by rewrite (setQuery_eq _ _ _ _ _ Hr), Hq].
  erewrite bind_silent.
  2: { erewrite setQuery_eq; [|apply lookup_insert_eq]. cbn. reflexivity. }
  cbn [requests urls]. rewrite insert_insert_eq.
  erewrite bind_silent_any.
  2: { erewrite newFetchConfig_eq; [|apply lookup_insert_eq]. reflexivity. }
  cbn zeta. unfold written, boundaries, timeseries.layoutOf. rewrite Hl. cbn [fst snd].
  destruct (builtURL env cfg _) as [v|err]; cbn.
  - erewrite bind_silent; [|apply deref_eq; apply lookup_insert_eq]. reflexivity.
  - reflexivity.
Qed.


Lemma written_holds ts chunk q :
  timeseries.StartName ts <> timeseries.EndName ts -> holds env ts chunk (written env ts chunk q).
Proof.
  intros Hne. unfold holds, written. split.
  - rewrite lookup_insert_ne by done. apply lookup_insert_eq.
  - apply lookup_insert_eq.
Qed.

Lemma builtURL_index r q v name value :
  builtURL env cfg r = OK v -> Request.Query r = Some q -> q !! name = Some value ->
  index (RawQuery v) name = [value].
Proof.
  unfold builtURL. intros Hv Hq Hn.
  destruct (url_JoinPath env _ _); [|discriminate].
  destruct (url_Parse env _); [|discriminate].
  rewrite Hq in Hv. injection Hv as <-. cbn. unfold index, setAll.
  rewrite lookup_union, lookup_fmap, Hn. cbn. by destruct (RawQuery _ !! name).
Qed.

Lemma withQuery_id r : withQuery r (Request.Query r) = r.
Proof. by destruct r. Qed.

Lemma chunk_loop req ts layout cs : forall jobs r st jobs',
  requests st !! req = Some r ->
  Request.Timeseries r = Some ts ->
  timeseries.Layout ts = Some layout ->
  returned (range cs (chunkBody env cfg req client lim) jobs st) = inl jobs' ->
  let st' := store (range cs (chunkBody env cfg req client lim) jobs st) in
  exists query' new,
    jobs' = jobs ++ new
    /\ length new = length cs
    /\ requests st' = <[req := withQuery r query']> (requests st)
    /\ (cs = [] -> query' = Request.Query r)
    /\ (forall c, last cs = Some c ->
          exists q', query' = Some q'
                     /\ (timeseries.StartName ts <> timeseries.EndName ts -> holds env ts c q'))
    /\ (forall (i : nat) c job, cs !! i = Some c -> new !! i = Some job ->
          urls st !! web.URL (fetchConfig job) = None
          /\ exists v, urls st' !! web.URL (fetchConfig job) = Some v
                       /\ (timeseries.StartName ts <> timeseries.EndName ts ->
                           carries env ts c v))
    /\ urls st ⊆ urls st'.
Proof.
  induction cs as [|c cs IH]; intros jobs r st jobs' Hr Hts Hl H; cbn zeta.
  { injection H as <-. exists (Request.Query r), []. cbn.
    rewrite app_nil_r, withQuery_id, insert_id by done. repeat split; try done. }
  cbn [range] in *.
  rewrite (bind_silent_any _ _ _ _ (chunkBody_eq _ _ _ _ _ _ _ Hr Hts Hl)) in *.
  destruct (Request.Query r) as [q|] eqn:Hq; [|discriminate]. cbn zeta in *.
  destruct (builtURL env cfg _) as [v|err] eqn:Hv; [|discriminate].
  set (r2 := withQuery r (Some (written env ts c q))) in *.
  set (u := fresh (dom (urls st))) in *.
  set (st1 := mkStore (<[req := r2]> (requests st)) (<[u := v]> (urls st)) (limiters st)) in *.
  set (job := mkFlattenedRequest (web.mkFetchConfig client (Request.Method r) u lim)
                                 (Request.Table r)) in *.
  assert (Hfresh : urls st !! u = None) by apply not_elem_of_dom, is_fresh.
  assert (Hsub : urls st ⊆ urls st1) by by apply insert_subseteq.
  destruct (range cs (chunkBody env cfg req client lim) (jobs ++ [job]) st1)
    as [[res st2] e2] eqn:E.
  unfold returned, store in H |- *. cbn in H |- *. subst res.
  destruct (IH (jobs ++ [job]) r2 st1 jobs') as (query' & new & -> & Hlen & Hreqs & Hnil & Hlast & Hjobs & Hurls).
  { apply lookup_insert_eq. } { exact Hts. } { exact Hl. }
  { by rewrite E. }
  rewrite E in Hreqs, Hjobs, Hurls. cbn [store fst snd] in Hreqs, Hjobs, Hurls.
  exists query', (job :: new).
  split; [by rewrite <- app_assoc|]. split; [cbn; by rewrite Hlen|].
  split; [rewrite Hreqs; cbn; by rewrite insert_insert_eq|].
  split; [done|].
  split.
  { intros cl Hcl. destruct cs as [|c' cs].
    - injection Hcl as <-. rewrite (Hnil eq_refl). exists (written env ts c q).
      split; [reflexivity | apply written_holds].
    - by apply Hlast. }
  split; [|by transitivity (urls st1)].
  intros [|i] c0 job0 Hc0 Hjob0; cbn in Hc0, Hjob0.
  - injection Hc0 as <-. injection Hjob0 as <-. cbn. split; [exact Hfresh|].
    exists v. split.
    + eapply lookup_weaken; [|exact Hurls]. apply lookup_insert_eq.
    + intros Hne. destruct (written_holds ts c q Hne) as [Hs He].
      split; by eapply builtURL_index.
  - destruct (Hjobs i c0 job0 Hc0 Hjob0) as [Hnone Hsome].
    split; [by eapply lookup_weaken_None | exact Hsome].
Qed.


Lemma defaultMethod_eq req r st :
  requests st !! req = Some r ->
  defaultMethod req st
  = (inl tt, mkStore (<[req := defaulted r]> (requests st)) (urls st) (limiters st), []).
Proof.
  intros Hr. unfold defaultMethod, defaulted.
  rewrite (bind_silent _ _ _ _ _ (deref_eq _ _ _ Hr)).
  destruct (decide _); [reflexivity|]. cbn. rewrite insert_id by done. by destruct st.
Qed.

Lemma setTimeseries_eq req r ts st :
  requests st !! req = Some r ->
  setTimeseries req ts st
  = (inl tt, mkStore (<[req := withTimeseries r ts]> (requests st)) (urls st) (limiters st), []).
Proof.
  intros Hr. unfold setTimeseries.
  by rewrite (bind_silent _ _ _ _ _ (deref_eq _ _ _ Hr)).
Qed.

Lemma derefURL_eq u v st : urls st !! u = Some v -> derefURL u st = (inl v, st, []).
Proof. intros H. unfold derefURL. by rewrite H. Qed.

Lemma setChunks_fields fuel ts url ts' ending :
  timeseries.setChunks env fuel ts url = (ts', ending) ->
  timeseries.StartName ts' = timeseries.StartName ts
  /\ timeseries.EndName ts' = timeseries.EndName ts
  /\ timeseries.Layout ts' = Some (timeseries.layoutOf ts)
  /\ timeseries.layoutOf ts' = timeseries.layoutOf ts.
Proof.
  unfold timeseries.setChunks. cbn.
  repeat case_match; intros [= <- <-]; done.
Qed.

(** One iteration of the loop over the requests, for a request with a
    timeseries, step by step. *)
Lemma requestBody_eq fuel req r ts jobs tables st :
  requests st !! req = Some r ->
  Request.Timeseries r = Some ts ->
  requestBody env fuel cfg client lim (jobs, tables) req st =
  match builtURL env cfg (defaulted r) with
  | Fail err =>
      (inr (Err err),
       mkStore (<[req := defaulted r]> (requests st)) (urls st) (limiters st), [])
  | OK original =>
      let xurl := fresh (dom (urls st)) in
      let '(ts', ending) := timeseries.setChunks env fuel ts original in
      let st2 := mkStore (<[req := withTimeseries (defaulted r) ts']> (requests st))
                         (<[xurl := original]> (urls st)) (limiters st) in
      match ending with
      | timeseries.Running => (inr OutOfFuel, st2, [])
      | timeseries.Returns (Some _) => (inr (Err ErrSettingTimeseriesChunks), st2, [])
      | timeseries.Returns None =>
          bind (range (timeseries.chunks ts') (chunkBody env cfg req client lim) jobs)
               (fun jobs1 =>
                  do r' <- deref req;
                  match Request.Table r' with
                  | Some table => ret (jobs1, tables ++ [table])
                  | None => ret (jobs1, tables)
                  end) st2
      end
  end.
Proof.
  intros Hr Hts. unfold requestBody.
  rewrite (bind_silent _ _ _ _ _ (defaultMethod_eq _ _ _ Hr)).
  destruct (builtURL env cfg (defaulted r)) as [original|err] eqn:Hb.
  2: { erewrite bind_silent.
       2: { erewrite newFetchConfig_eq; [|apply lookup_insert_eq]. by rewrite Hb. }
       reflexivity. }
  erewrite bind_silent.
  2: { erewrite newFetchConfig_eq; [|apply lookup_insert_eq]. by rewrite Hb. }
  cbn [requests urls try]. erewrite (bind_silent (ret _)); [|reflexivity].
  erewrite bind_silent; [|apply deref_eq; apply lookup_insert_eq].
  assert (Hts' : Request.Timeseries (defaulted r) = Some ts)
    by (unfold defaulted; by destruct (decide _)).
  rewrite Hts'. cbn [web.URL].
  rewrite bind_assoc.
  erewrite bind_silent; [|apply derefURL_eq; apply lookup_insert_eq].
  destruct (timeseries.setChunks env fuel ts original) as [ts' ending].
  rewrite bind_assoc.
  erewrite bind_silent; [|apply setTimeseries_eq; apply lookup_insert_eq].
  cbn [requests urls]. rewrite insert_insert_eq.
  destruct ending as [[err|]|]; reflexivity.
Qed.

Lemma builtURL_defaulted r : builtURL env cfg (defaulted r) = builtURL env cfg r.
Proof. unfold defaulted. by destruct (decide _). Qed.

Lemma requestBody_expansion fuel req r ts jobs tables st jobs' tables' :
  requests st !! req = Some r ->
  Request.Timeseries r = Some ts ->
  returned (requestBody env fuel cfg client lim (jobs, tables) req st) = inl (jobs', tables') ->
  let st' := store (requestBody env fuel cfg client lim (jobs, tables) req st) in
  exists xurl original ts' query' new,
    builtURL env cfg r = OK original
    /\ urls st !! xurl = None
    /\ urls st' !! xurl = Some original
    /\ timeseries.setChunks env fuel ts original = (ts', timeseries.Returns None)
    /\ requests st'
       = <[req := withQuery (withTimeseries (defaulted r) ts') query']> (requests st)
    /\ jobs' = jobs ++ new
    /\ length new = length (timeseries.chunks ts')
    /\ (timeseries.chunks ts' = [] -> query' = Request.Query r)
    /\ (forall c, last (timeseries.chunks ts') = Some c ->
          exists q', query' = Some q'
                     /\ (timeseries.StartName ts <> timeseries.EndName ts ->
                         holds env ts' c q'))
    /\ (forall (i : nat) c job,
          timeseries.chunks ts' !! i = Some c -> new !! i = Some job ->
          web.URL (fetchConfig job) <> xurl
          /\ urls st !! web.URL (fetchConfig job) = None
          /\ exists v, urls st' !! web.URL (fetchConfig job) = Some v
                       /\ (timeseries.StartName ts <> timeseries.EndName ts ->
                           carries env ts' c v))
    /\ urls st ⊆ urls st'.
Proof.
  intros Hr Hts H. cbn zeta.
  rewrite (requestBody_eq _ _ _ _ _ _ _ Hr Hts) in H |- *.
  rewrite builtURL_defaulted in H |- *.
  destruct (builtURL env cfg r) as [original|err] eqn:Hb; [|discriminate]. cbn zeta in H |- *.
  destruct (timeseries.setChunks env fuel ts original) as [ts' ending] eqn:Hsc.
  destruct (setChunks_fields _ _ _ _ _ Hsc) as (Hs & He & Hl & Hlo).
  destruct ending as [[err|]|]; try discriminate.
  set (xurl := fresh (dom (urls st))) in *.
  set (r2 := withTimeseries (defaulted r) ts') in *.
  set (st2 := mkStore (<[req := r2]> (requests st)) (<[xurl := original]> (urls st))
                      (limiters st)) in *.
  assert (Hfresh : urls st !! xurl = None) by apply not_elem_of_dom, is_fresh.
  apply bind_inl in H as (jobs1 & Hloop & H).
  destruct (chunk_loop req ts' (timeseries.layoutOf ts) (timeseries.chunks ts')
              jobs r2 st2 jobs1)
    as (query' & new & -> & Hlen & Hreqs & Hnil & Hlast & Hjobs & Hurls);
    [apply lookup_insert_eq | reflexivity | exact Hl | exact Hloop |].
  rewrite Hs, He in Hlast, Hjobs.
  set (st3 := store (range (timeseries.chunks ts') (chunkBody env cfg req client lim) jobs st2))
    in *.
  assert (Hr3 : requests st3 !! req = Some (withQuery r2 query'))
    by (rewrite Hreqs; apply lookup_insert_eq).
  rewrite store_bind, Hloop. fold st3.
  rewrite (bind_silent _ _ _ _ _ (deref_eq _ _ _ Hr3)) in H |- *.
  assert (Hst : store (match Request.Table (withQuery r2 query') with
                       | Some table => ret (jobs ++ new, tables ++ [table])
                       | None => ret (jobs ++ new, tables)
                       end st3) = st3) by (by destruct (Request.Table _)).
  rewrite Hst. clear Hst.
  assert (Hj : jobs' = jobs ++ new).
  { destruct (Request.Table _); by injection H as <- _. }
  exists xurl, original, ts', query', new.
  split; [reflexivity|]. split; [exact Hfresh|].
  split; [eapply lookup_weaken; [|exact Hurls]; apply lookup_insert_eq|].
  split; [exact Hsc|].
  split; [rewrite Hreqs; cbn; by rewrite insert_insert_eq|].
  split; [exact Hj|]. split; [exact Hlen|].
  split.
  { intros Hnone. rewrite (Hnil Hnone). unfold r2, defaulted. by destruct (decide _). }
  split; [exact Hlast|].
  split; [|transitivity (urls st2); [by apply insert_subseteq | exact Hurls]].
  intros i c job Hc Hjob. destruct (Hjobs i c job Hc Hjob) as [Hnone Hsome].
  split; [|split; [|exact Hsome]].
  - intros Heq. rewrite Heq in Hnone. cbn in Hnone.
    by rewrite lookup_insert_eq in Hnone.
  - eapply lookup_weaken_None; [exact Hnone|]. by apply insert_subseteq.
Qed.


(** An iteration for a request without a timeseries leaves it without
    one. *)
Lemma requestBody_plain fuel req r vars st :
  requests st !! req = Some r ->
  Request.Timeseries r = None ->
  requests (store (requestBody env fuel cfg client lim vars req st))
  = <[req := defaulted r]> (requests st).
Proof.
  intros Hr Hts. unfold requestBody. destruct vars as [jobs tables].
  rewrite (bind_silent _ _ _ _ _ (defaultMethod_eq _ _ _ Hr)).
  assert (Hts' : Request.Timeseries (defaulted r) = None)
    by (unfold defaulted; by destruct (decide _)).
  destruct (builtURL env cfg (defaulted r)) as [original|err] eqn:Hb.
  2: { erewrite bind_silent.
       2: { erewrite newFetchConfig_eq; [|apply lookup_insert_eq]. by rewrite Hb. }
       reflexivity. }
  erewrite bind_silent.
  2: { erewrite newFetchConfig_eq; [|apply lookup_insert_eq]. by rewrite Hb. }
  cbn [requests urls try]. erewrite (bind_silent (ret _)); [|reflexivity].
  erewrite bind_silent; [|apply deref_eq; apply lookup_insert_eq].
  rewrite Hts'. erewrite (bind_silent (ret _)); [|reflexivity].
  erewrite bind_silent; [|apply deref_eq; apply lookup_insert_eq].
  by destruct (Request.Table _).
Qed.

Lemma requestBody_nil fuel req vars st :
  requests st !! req = None ->
  returned (requestBody env fuel cfg client lim vars req st) = inr nilDereference.
Proof.
  intros Hr. unfold requestBody. destruct vars as [jobs tables].
  erewrite bind_halts; [reflexivity|].
  unfold defaultMethod. erewrite bind_halts; [reflexivity|].
  unfold deref. by rewrite Hr.
Qed.

Lemma iteration_settled fuel req vars st vars' :
  returned (requestBody env fuel cfg client lim vars req st) = inl vars' ->
  settled env req (store (requestBody env fuel cfg client lim vars req st)).
Proof.
  intros H. destruct (requests st !! req) as [r|] eqn:Hr.
  2: { rewrite requestBody_nil in H by done. discriminate. }
  destruct (Request.Timeseries r) as [ts|] eqn:Hts.
  - destruct vars as [jobs tables], vars' as [jobs' tables'].
    destruct (requestBody_expansion fuel req r ts jobs tables st jobs' tables' Hr Hts H)
      as (xurl & original & ts' & query' & new & _ & _ & _ & Hsc & Hreqs & _ & _ & _
          & Hlast & _).
    intros r' ts'' c Hr' Hts' Hne Hc. rewrite Hreqs, lookup_insert_eq in Hr'.
    injection Hr' as <-. cbn in Hts'. injection Hts' as <-.
    destruct (setChunks_fields _ _ _ _ _ Hsc) as (Hs & He & _ & _).
    destruct (Hlast c Hc) as (q' & -> & Hholds).
    exists q'. split; [reflexivity|]. apply Hholds. congruence.
  - intros r' ts' c Hr' Hts'.
    rewrite (requestBody_plain _ _ _ _ _ Hr Hts), lookup_insert_eq in Hr'.
    injection Hr' as <-. unfold defaulted in Hts'. destruct (decide _); cbn in Hts'; congruence.
Qed.

#[local] Instance untouched_preorder req : PreOrder (untouched req).
Proof.
  split.
  - by intros st.
  - intros st1 st2 st3 H1 H2. unfold untouched in *. by rewrite H2.
Qed.

Lemma untouched_requestBody fuel req req1 vars :
  req1 <> req -> keeps (untouched req) (requestBody env fuel cfg client lim vars req1).
Proof.
  intros Hne.
  assert (Ha : forall r, keeps (untouched req) (assign req1 r)).
  { intros r st. unfold untouched. cbn. by apply lookup_insert_ne. }
  assert (Hu : forall v, keeps (untouched req) (newURL v)) by (by intros v st).
  unfold requestBody, defaultMethod, setTimeseries, chunkBody, setQuery, newFetchConfig.
  destruct vars as [jobs tables].
  repeat first [apply Ha | apply Hu | keeps_step].
Qed.

Lemma untouched_plan fuel req reqs : forall vars st,
  req ∉ reqs ->
  untouched req st (store (range reqs (requestBody env fuel cfg client lim) vars st)).
Proof.
  induction reqs as [|req1 reqs IH]; intros vars st Hin; [done|].
  apply not_elem_of_cons in Hin as [Hne Hin]. cbn [range]. rewrite store_bind.
  pose proof (untouched_requestBody fuel req req1 vars (not_eq_sym Hne) st) as H1.
  destruct (returned _) as [vars1|h]; [|exact H1].
  etransitivity; [exact H1 | by apply IH].
Qed.

(** When the loop over the requests has gone through, every request it
    has planned is settled. *)
Lemma plan_settled fuel reqs : forall vars st vars',
  returned (range reqs (requestBody env fuel cfg client lim) vars st) = inl vars' ->
  forall req, req ∈ reqs ->
    settled env req (store (range reqs (requestBody env fuel cfg client lim) vars st)).
Proof.
  induction reqs as [|req1 reqs IH]; intros vars st vars' H req Hin.
  { by apply elem_of_nil in Hin. }
  cbn [range] in H |- *. apply bind_inl in H as (vars1 & H1 & H).
  rewrite store_bind, H1.
  destruct (decide (req ∈ reqs)) as [Hrest|Hrest]; [by eapply IH|].
  apply elem_of_cons in Hin as [->|Hin]; [|done].
  pose proof (iteration_settled fuel req1 vars st vars1 H1) as Hs.
  pose proof (untouched_plan fuel req1 reqs vars1
                (store (requestBody env fuel cfg client lim vars req1 st)) Hrest) as Hu.
  unfold settled, untouched in *. intros r ts c Hr. rewrite Hu in Hr. by apply Hs.
Qed.

End Expansion.

Section Final.
Context (env : Env) (fuel : nat) (cfg : Config.t).

(** What the loop over the requests has made of the store is what
    [prepare], and then [Upsert], leave. *)
Lemma prepare_plan st repos jobs tables :
  returned (prepare env fuel cfg st) = inl (repos, jobs, tables) ->
  exists client lim st1,
    requests st1 = requests st
    /\ urls st1 = urls st
    /\ returned (range (Config.Requests cfg) (requestBody env fuel cfg client lim) ([], []) st1)
       = inl (jobs, tables)
    /\ store (prepare env fuel cfg st)
       = store (range (Config.Requests cfg) (requestBody env fuel cfg client lim) ([], []) st1).
Proof.
  unfold prepare, Config.repos. intros H.
  apply bind_inl in H as (res & E1 & H). rewrite store_bind, E1.
  rewrite <- (keeps_connect env cfg st) in H |- *.
  apply bind_inl in H as (client & E2 & H). rewrite store_bind, E2.
  rewrite <- (keeps_try eq res _ st) in H |- *.
  apply bind_inl in H as ([] & E3 & H). rewrite store_bind, E3.
  rewrite <- (keeps_log eq cfg _ _ st) in H |- *.
  apply bind_inl in H as (res' & E4 & H). rewrite store_bind, E4.
  rewrite <- (keeps_reposFrom env cfg (Config.DNSList cfg) 0%nat [] st) in H |- *.
  apply bind_inl in H as (repos' & E5 & H). rewrite store_bind, E5.
  rewrite <- (keeps_try eq res' _ st) in H |- *.
  apply bind_inl in H as (lim & E6 & H). rewrite store_bind, E6.
  destruct (rateLimiterOf_cells cfg st) as [Hr Hu].
  apply bind_inl in H as ([jobs' tables'] & Hplan & H). rewrite store_bind, Hplan.
  injection H as _ <- <-.
  exists client, lim, (store (rateLimiterOf cfg st)).
  repeat split; [exact Hr | exact Hu | exact Hplan].
Qed.

Lemma Upsert_store st :
  returned (Upsert env fuel cfg st) = inl tt ->
  exists client lim vars st1,
    returned (range (Config.Requests cfg) (requestBody env fuel cfg client lim) ([], []) st1)
    = inl vars
    /\ store (Upsert env fuel cfg st)
       = store (range (Config.Requests cfg) (requestBody env fuel cfg client lim) ([], []) st1).
Proof.
  intros H.
  destruct (Upsert_cases env fuel cfg st)
    as [(err & _ & E) | [(_ & h & _ & E) | (_ & jobs & Hp & E)]];
    try (rewrite E in H; discriminate).
  destruct (prepare_plan st _ _ _ Hp) as (client & lim & st1 & _ & _ & Hplan & Hst).
  exists client, lim, (jobs, tablesOf st (Config.Requests cfg)), st1.
  split; [exact Hplan|]. rewrite <- Hst. cbn zeta in E. rewrite E.
  by repeat case_match.
Qed.

End Final.



(** * The transaction handle, further *)

Section TxnUse.
Import Storage.
Context {Fn : Type}.
Implicit Types (t : Txn Fn) (fn : Fn) (decision : bool) (status : option error).

Lemma sendAll_cons fn (fns : list Fn) :
  sendAll (fn :: fns) = Do (SendCh fn) (fun _ => sendAll fns).
Proof. reflexivity. Qed.

Lemma ops_sendAll (fns : list Fn) : ops (sendAll fns) = OpSendCh <$> fns.
Proof. induction fns as [|fn fns IH]; [done|]. cbn. by rewrite <- IH. Qed.

(** The calls that fit are queued; the first that does not fit is
    parked. *)
Lemma run_sendAll (fns : list Fn) : forall t,
  closed (ch t) = false ->
  run (sendAll fns) t =
  let queued := mkTxn (mkChan (buf (ch t) ++ take (room t) fns) (dataqsiz (ch t))
                              false (recvq (ch t)))
                      (done t) (commit t) in
  if decide (length fns <= room t)%nat
  then Returned tt queued
  else Blocked (sendAll (drop (room t) fns)) queued.
Proof.
  induction fns as [|fn fns IH]; intros t Hc; cbn zeta.
  { rewrite decide_True by (cbn; lia). cbn. rewrite take_nil, app_nil_r.
    destruct t as [[] ? ?]; cbn in *. by subst. }
  rewrite sendAll_cons, run_Do. unfold exec, chansend. rewrite Hc.
  unfold hasroom, room.
  destruct (Nat.ltb_spec (length (buf (ch t))) (dataqsiz (ch t) + recvq (ch t))) as [Hlt|Hge].
  - rewrite IH by done. cbn zeta. unfold room. cbn [ch buf dataqsiz recvq done commit].
    rewrite length_app. cbn [length].
    replace (dataqsiz (ch t) + recvq (ch t) - length (buf (ch t)))%nat
      with (S (dataqsiz (ch t) + recvq (ch t) - (length (buf (ch t)) + 1)))%nat by lia.
    cbn [take drop]. rewrite <- app_assoc. cbn [app].
    destruct (decide _), (decide _); try reflexivity; cbn in *; lia.
  - replace (dataqsiz (ch t) + recvq (ch t) - length (buf (ch t)))%nat with 0%nat by lia.
    rewrite decide_False by (cbn; lia). cbn [take drop]. rewrite app_nil_r.
    destruct t as [[] ? ?]; cbn in *. by subst.
Qed.

(** X1.  Calls of [Send] made one after the other on a transaction
    whose submission channel is open perform one send each, in the order
    of the calls, and queue their functions in that order behind those
    already queued.  When the channel has room for all of them every
    call returns; otherwise those that fit are queued and the next call
    is parked, the remaining calls still to be made.  The done and
    commit channels are not touched. *)
Theorem txn_sends_in_order t (fns : list Fn) :
  closed (ch t) = false ->
  let queued n :=
    mkTxn (mkChan (buf (ch t) ++ take n fns) (dataqsiz (ch t)) false (recvq (ch t)))
          (done t) (commit t) in
  ops (sendAll fns) = OpSendCh <$> fns
  /\ ((length fns <= room t)%nat ->
      run (sendAll fns) t = Returned tt (queued (length fns)))
  /\ ((room t < length fns)%nat ->
      run (sendAll fns) t = Blocked (sendAll (drop (room t) fns)) (queued (room t))).
Proof.
  intros Hc queued. split; [apply ops_sendAll|].
  pose proof (run_sendAll fns t Hc) as H. cbn zeta in H.
  split; intros Hlen; rewrite H.
  - rewrite decide_True by done. unfold queued. by rewrite !take_ge by lia.
  - by rewrite decide_False by lia.
Qed.

(** X2.  Whatever state the transaction is in and however far the call
    gets, [Commit] and [Rollback] leave the queue of submitted functions
    as it was, close neither the commit nor the done channel, push at
    most their own decision, and take at most one status, the oldest. *)
Theorem txn_finish_frame t decision :
  let t' := after (run (finish decision) t) in
  buf (ch t') = buf (ch t)
  /\ closed (commit t') = closed (commit t)
  /\ closed (done t') = closed (done t)
  /\ (buf (commit t') = buf (commit t) \/ buf (commit t') = buf (commit t) ++ [decision])
  /\ (buf (done t') = buf (done t) \/ exists status, buf (done t) = status :: buf (done t')).
Proof.
  destruct t as [[cb cq cc cr] [db dq dc dr] [mb mq mc mr]].
  rewrite finish_unfold. cbn. unfold closechan, chansend, chanrecv; cbn.
  destruct cc; cbn; [by auto 10|].
  destruct mc; cbn; [by auto 10|].
  destruct (hasroom _); cbn; [|by auto 10].
  destruct db as [|s db]; cbn.
  - destruct dc; cbn; by auto 10.
  - repeat split; eauto.
Qed.

(** X3.  [Commit] and [Rollback] are not atomic.  On a transaction
    whose submission channel is open but whose commit channel cannot
    take the decision, the submission channel is closed all the same:
    the call panics at the send of its decision when the commit channel
    is closed, and is parked there when that channel is full with nobody
    receiving; nothing but the close has happened. *)
Theorem txn_finish_not_atomic t decision :
  closed (ch t) = false ->
  let closed_ch := mkChan (buf (ch t)) (dataqsiz (ch t)) true (recvq (ch t)) in
  let t' := mkTxn closed_ch (done t) (commit t) in
  (closed (commit t) = true ->
   run (finish decision) t = Panicked "send on closed channel" t')
  /\ (closed (commit t) = false -> hasroom (commit t) = false ->
      run (finish decision) t
      = Blocked (Do (SendCommit decision)
                    (fun _ => Do RecvDone (fun status => Return status))) t').
Proof.
  destruct t as [[cb cq cc cr] [db dq dc dr] [mb mq mc mr]]; cbn.
  intros ->. rewrite finish_unfold. cbn. unfold chansend; cbn.
  split; [by intros ->|]. intros -> ->. reflexivity.
Qed.

(** X4.  When the submission channel is open and the commit channel
    takes the decision, what [Commit] and [Rollback] return is read off
    the done channel as it stands: a status already waiting there is
    returned at once, the oldest first, the others staying queued; from
    a done channel that is closed and empty they return nil. *)
Theorem txn_finish_status t decision :
  closed (ch t) = false ->
  closed (commit t) = false ->
  hasroom (commit t) = true ->
  let closed_ch := mkChan (buf (ch t)) (dataqsiz (ch t)) true (recvq (ch t)) in
  let pushed :=
    mkChan (buf (commit t) ++ [decision]) (dataqsiz (commit t)) false
           (recvq (commit t)) in
  (forall status rest,
      buf (done t) = status :: rest ->
      run (finish decision) t
      = Returned status
          (mkTxn closed_ch
                 (mkChan rest (dataqsiz (done t)) (closed (done t)) (recvq (done t)))
                 pushed))
  /\ (buf (done t) = [] -> closed (done t) = true ->
      run (finish decision) t = Returned None (mkTxn closed_ch (done t) pushed)).
Proof.
  destruct t as [[cb cq cc cr] [db dq dc dr] [mb mq mc mr]]; cbn.
  intros -> -> Hroom. rewrite finish_unfold. cbn. unfold chansend; cbn. rewrite Hroom. cbn.
  split; [by intros status rest ->|]. by intros -> ->.
Qed.

End TxnUse.

(** X1 on the open transaction: its driver takes one function, so the
    second of two calls of [Send] is parked. *)
Lemma txn_sends_in_order_witness :
  Storage.run (Storage.sendAll [1%nat; 2%nat]) Scenario.openTxn
  = Storage.Blocked (Storage.sendAll [2%nat])
      (Storage.mkTxn (Storage.mkChan [1%nat] 0 false 1) (Storage.mkChan [] 1 false 0)
                     (Storage.mkChan [] 1 false 0)).
Proof.
  apply (proj2 (proj2 (txn_sends_in_order (Fn:=nat) Scenario.openTxn [1%nat; 2%nat]
                         eq_refl))).
  vm_compute. lia.
Defined.

(** X3 on the transaction whose driver is busy: [Rollback] is parked at
    its decision, the submission channel closed. *)
Lemma txn_finish_not_atomic_witness :
  Storage.closed (Storage.ch (Storage.after
                                (Storage.run (Storage.finish false) Scenario.busyTxn)))
  = true.
Proof.
  rewrite (proj2 (txn_finish_not_atomic (Fn:=nat) Scenario.busyTxn false eq_refl)
             eq_refl eq_refl).
  reflexivity.
Defined.

(** X4 on the transaction whose driver has reported a failure: [Commit]
    returns that failure. *)
Lemma txn_finish_status_witness :
  Storage.run (Storage.finish true) Scenario.failedTxn
  = Storage.Returned (Some (ErrExternal "driver failed"))
      (Storage.mkTxn (Storage.mkChan [] 0 true 1) (Storage.mkChan [] 1 false 0)
                     (Storage.mkChan [true] 1 false 0)).
Proof.
  exact (proj1 (txn_finish_status (Fn:=nat) Scenario.failedTxn true
                  eq_refl eq_refl eq_refl)
           (Some (ErrExternal "driver failed")) [] eq_refl).
Defined.

(** * The timeseries planner, further *)

Section Plans.
Import timeseries.

Lemma wrap64_int32 period :
  - 2 ^ 31 <= period < 2 ^ 31 -> wrap64 (Second * period) = period * Second.
Proof.
  intros H. rewrite wrap64_small; [lia|]. unfold Second.
  change (2 ^ 63) with 9223372036854775808. change (2 ^ 31) with 2147483648 in H. lia.
Qed.

(** Past its four checks, [setChunks] is its loop. *)
Lemma setChunks_parsed env fuel ts url startValue endValue start end_ :
  index (RawQuery url) (StartName ts) = [startValue] ->
  index (RawQuery url) (EndName ts) = [endValue] ->
  time_Parse env (layoutOf ts) startValue = Some start ->
  time_Parse env (layoutOf ts) endValue = Some end_ ->
  - 2 ^ 31 <= Period ts < 2 ^ 31 ->
  setChunks env fuel ts url =
  match loop fuel (Period ts * Second) end_ start (chunks ts) with
  | Some cs => (mk (StartName ts) (EndName ts) (Period ts) (Some (layoutOf ts)) cs,
                Returns None)
  | None => (mk (StartName ts) (EndName ts) (Period ts) (Some (layoutOf ts)) (chunks ts),
             Running)
  end.
Proof.
  intros Hs He Hps Hpe Hp. unfold setChunks. cbn. rewrite Hs, He, Hps, Hpe.
  by rewrite wrap64_int32.
Qed.

(** X5.  With a period that is zero or negative and a start before the
    end, [setChunks] does not return: whatever the fuel, its loop is
    still running when the fuel is spent.  The four checks before the
    loop pass, and nothing checks the period. *)
Theorem setChunks_nonpositive_period env ts url startValue endValue start end_ :
  index (RawQuery url) (StartName ts) = [startValue] ->
  index (RawQuery url) (EndName ts) = [endValue] ->
  time_Parse env (layoutOf ts) startValue = Some start ->
  time_Parse env (layoutOf ts) endValue = Some end_ ->
  - 2 ^ 31 <= Period ts <= 0 ->
  start < end_ ->
  forall fuel,
    setChunks env fuel ts url
    = (mk (StartName ts) (EndName ts) (Period ts) (Some (layoutOf ts)) (chunks ts),
       Running).
Proof.
  intros Hs He Hps Hpe Hp Hlt fuel.
  rewrite (setChunks_parsed env fuel ts url _ _ _ _ Hs He Hps Hpe) by lia.
  rewrite loop_never_ends; [reflexivity | unfold Second; lia | exact Hlt].
Qed.

Lemma walk_length period end_ start cs :
  0 < period -> walk period end_ start cs -> length cs = chunkCount period end_ start.
Proof.
  intros Hp. induction 1 as [cursor Hge | cursor cs Hlt Hw IH]; unfold chunkCount in *.
  - cbn. assert ((end_ - cursor + period - 1) / period <= 0); [|lia].
    apply Z.lt_succ_r. apply Z.div_lt_upper_bound; lia.
  - cbn [length]. rewrite IH.
    replace (end_ - cursor + period - 1) with ((end_ - cursor - 1) + 1 * period) by lia.
    rewrite Z.div_add by lia.
    replace (end_ - (cursor + period) + period - 1) with (end_ - cursor - 1) by lia.
    assert (0 <= (end_ - cursor - 1) / period) by (apply Z.div_pos; lia). lia.
Qed.

Lemma walk_closed_form period end_ start cs :
  0 < period -> walk period end_ start cs ->
  cs = chunkAt period end_ start <$> seq 0 (chunkCount period end_ start).
Proof.
  intros Hp Hw. rewrite <- (walk_length _ _ _ _ Hp Hw).
  apply list_eq. intros i. rewrite list_lookup_fmap.
  destruct (cs !! i) as [c|] eqn:Hi.
  - rewrite lookup_seq_lt by (by eapply lookup_lt_Some). cbn.
    by destruct (walk_lookup _ _ _ _ Hw i c Hi) as [-> _].
  - rewrite lookup_seq_ge; [done|]. by apply lookup_ge_None.
Qed.

(** X6.  [setChunks] appends to the chunks the struct already has, so it
    is not idempotent: a second call on the same struct with the same
    URL appends the same plan once more.  With a start before the end
    the plan is not empty, and the struct then holds every chunk
    twice. *)
Theorem setChunks_appends_again env ts url startValue endValue start end_ :
  let period := Period ts * Second in
  index (RawQuery url) (StartName ts) = [startValue] ->
  index (RawQuery url) (EndName ts) = [endValue] ->
  time_Parse env (layoutOf ts) startValue = Some start ->
  time_Parse env (layoutOf ts) endValue = Some end_ ->
  0 < Period ts < 2 ^ 31 ->
  exists planned enough,
    walk period end_ start planned
    /\ (start < end_ -> planned <> [])
    /\ forall fuel, (enough <= fuel)%nat ->
         exists ts1 ts2,
           setChunks env fuel ts url = (ts1, Returns None)
           /\ setChunks env fuel ts1 url = (ts2, Returns None)
           /\ chunks ts1 = chunks ts ++ planned
           /\ chunks ts2 = chunks ts ++ planned ++ planned.
Proof.
  intros period Hs He Hps Hpe Hp.
  assert (Hpos : 0 < period) by (unfold period, Second; lia).
  destruct (loop_walk period end_ (Z.to_nat (end_ - start)) Hpos start (chunks ts))
    as (planned & Hw & _ & Hloop).
  { unfold period, Second in *. nia. }
  destruct (loop_walk period end_ (Z.to_nat (end_ - start)) Hpos start
              (chunks ts ++ planned))
    as (planned' & Hw' & _ & Hloop').
  { unfold period, Second in *. nia. }
  assert (planned' = planned) as -> by (by eapply walk_unique).
  exists planned, (S (length planned)). split; [exact Hw|]. split.
  { intros Hlt ->. inversion Hw; lia. }
  intros fuel Hfuel. eexists _, _.
  rewrite (setChunks_parsed env fuel ts url _ _ _ _ Hs He Hps Hpe) by lia.
  fold period. rewrite Hloop by lia.
  split; [reflexivity|].
  rewrite (setChunks_parsed env fuel _ url startValue endValue start end_); cbn; try done;
    try lia.
  fold period. rewrite Hloop' by lia.
  split; [reflexivity|]. split; [reflexivity|]. cbn. by rewrite app_assoc.
Qed.

(** X7.  The plan in closed form.  For a positive period of [p] seconds
    and values that parse to [start] and [end], [setChunks] returns nil
    (given fuel for its loop) having appended [n] chunks, the chunk at
    position [i] being [[start + i*p, min(start + (i+1)*p, end)]].  The
    count [n] is zero when the end is not after the start, and otherwise
    the number of periods needed to cover the window, the last one
    counted whole: [(n-1)*p < end - start <= n*p]. *)
Theorem setChunks_closed_form env ts url startValue endValue start end_ :
  let period := Period ts * Second in
  index (RawQuery url) (StartName ts) = [startValue] ->
  index (RawQuery url) (EndName ts) = [endValue] ->
  time_Parse env (layoutOf ts) startValue = Some start ->
  time_Parse env (layoutOf ts) endValue = Some end_ ->
  0 < Period ts < 2 ^ 31 ->
  let n := chunkCount period end_ start in
  (forall fuel, (n < fuel)%nat ->
     setChunks env fuel ts url
     = (mk (StartName ts) (EndName ts) (Period ts) (Some (layoutOf ts))
           (chunks ts ++ (chunkAt period end_ start <$> seq 0 n)),
        Returns None))
  /\ (end_ <= start -> n = 0%nat)
  /\ (start < end_ -> (Z.of_nat n - 1) * period < end_ - start <= Z.of_nat n * period).
Proof.
  intros period Hs He Hps Hpe Hp n.
  assert (Hpos : 0 < period) by (unfold period, Second; lia).
  destruct (loop_walk period end_ (Z.to_nat (end_ - start)) Hpos start (chunks ts))
    as (planned & Hw & _ & Hloop).
  { unfold period, Second in *. nia. }
  pose proof (walk_length _ _ _ _ Hpos Hw) as Hlen. fold n in Hlen.
  pose proof (walk_closed_form _ _ _ _ Hpos Hw) as Hcf. fold n in Hcf.
  split; [|split].
  - intros fuel Hfuel.
    rewrite (setChunks_parsed env fuel ts url _ _ _ _ Hs He Hps Hpe) by lia.
    fold period. rewrite Hloop by lia. by rewrite Hcf.
  - intros Hge. apply walk_empty in Hw; [|exact Hge]. by rewrite <- Hlen, Hw.
  - intros Hlt. unfold n, chunkCount.
    assert (H0 : 0 <= (end_ - start + period - 1) / period) by (apply Z.div_pos; lia).
    rewrite Z2Nat.id by exact H0.
    pose proof (Z.div_mod (end_ - start + period - 1) period ltac:(lia)) as Hdm.
    pose proof (Z.mod_pos_bound (end_ - start + period - 1) period Hpos) as Hm.
    nia.
Qed.

Lemma loop_prefix fuel period end_ : forall start acc cs,
  loop fuel period end_ start acc = Some cs -> acc `prefix_of` cs.
Proof.
  induction fuel as [|fuel IH]; intros start acc cs; [discriminate|]. cbn.
  destruct (Before start end_); [|by intros [= <-]].
  destruct (Before _ end_); intros H; apply IH in H;
    (etransitivity; [|exact H]); by apply prefix_app_r.
Qed.

(** X8.  What [setChunks] does to its struct, however the call ends:
    the two names and the period are as they were; the layout is set,
    to RFC 3339 when it was nil and to itself otherwise, also when the
    call returns an error; the chunks it had are kept, in front of
    whatever is appended.  A struct with a nil layout is planned exactly
    as the same struct with the layout RFC 3339. *)
Theorem setChunks_keeps env fuel ts url :
  let ts' := fst (setChunks env fuel ts url) in
  StartName ts' = StartName ts
  /\ EndName ts' = EndName ts
  /\ Period ts' = Period ts
  /\ Layout ts' = Some (layoutOf ts)
  /\ (Layout ts = None -> Layout ts' = Some RFC3339)
  /\ chunks ts `prefix_of` chunks ts'
  /\ setChunks env fuel
       (mk (StartName ts) (EndName ts) (Period ts) (Some (layoutOf ts)) (chunks ts)) url
     = setChunks env fuel ts url.
Proof.
  unfold setChunks, layoutOf. cbn.
  repeat split; repeat case_match; cbn; try done; try congruence.
  all: by eapply loop_prefix.
Qed.

End Plans.

(** X5 on a timeseries whose period is zero. *)
Lemma setChunks_nonpositive_period_witness :
  snd (timeseries.setChunks Scenario.env 1000 Scenario.noPeriod Scenario.candlesURL)
  = timeseries.Running.
Proof.
  rewrite (setChunks_nonpositive_period Scenario.env Scenario.noPeriod Scenario.candlesURL
             "00:00" "00:03" (Scenario.minute 0) (Scenario.minute 3));
    [reflexivity | vm_compute; reflexivity .. | cbn; lia | vm_compute; reflexivity].
Defined.

(** X6 on the window from 00:00 to 00:03 in chunks of a minute. *)
Lemma setChunks_appends_again_witness :
  exists planned enough,
    planned <> []
    /\ forall fuel, (enough <= fuel)%nat ->
         exists ts1 ts2,
           timeseries.setChunks Scenario.env fuel (Scenario.everyMinute None)
                                Scenario.candlesURL
           = (ts1, timeseries.Returns None)
           /\ timeseries.setChunks Scenario.env fuel ts1 Scenario.candlesURL
              = (ts2, timeseries.Returns None)
           /\ timeseries.chunks ts2 = planned ++ planned.
Proof.
  destruct (setChunks_appends_again Scenario.env (Scenario.everyMinute None)
              Scenario.candlesURL "00:00" "00:03"
              (Scenario.minute 0) (Scenario.minute 3))
    as (planned & enough & _ & Hne & H);
    [vm_compute; reflexivity .. | cbn; lia |].
  exists planned, enough. split; [apply Hne; vm_compute; reflexivity|].
  intros fuel Hfuel. destruct (H fuel Hfuel) as (ts1 & ts2 & H1 & H2 & _ & H4).
  exists ts1, ts2. split; [exact H1|]. split; [exact H2 | exact H4].
Defined.

(** X7 on the same window: three chunks. *)
Lemma setChunks_closed_form_witness :
  timeseries.chunks
    (fst (timeseries.setChunks Scenario.env 4 (Scenario.everyMinute None)
                               Scenario.candlesURL))
  = [(Scenario.minute 0, Scenario.minute 1);
     (Scenario.minute 1, Scenario.minute 2);
     (Scenario.minute 2, Scenario.minute 3)].
Proof.
  rewrite (proj1 (setChunks_closed_form Scenario.env (Scenario.everyMinute None)
                    Scenario.candlesURL "00:00" "00:03"
                    (Scenario.minute 0) (Scenario.minute 3)
                    ltac:(vm_compute; reflexivity) ltac:(vm_compute; reflexivity)
                    ltac:(vm_compute; reflexivity) ltac:(vm_compute; reflexivity)
                    ltac:(cbn; lia)) 4%nat);
    [vm_compute; reflexivity | vm_compute; lia].
Defined.

(** * The rate limiter, further *)



(** * How Upsert halts *)

Section Halts.
Context (env : Env) (fuel : nat) (cfg : Config.t).

Lemma halts_ret {A : Type} Q (a : A) : halts Q (ret a).
Proof. intros st h [=]. Qed.

Lemma halts_halt {A : Type} (Q : Halt -> Prop) h : Q h -> halts Q (halt (A:=A) h).
Proof. intros H st h' [= <-]. exact H. Qed.

Lemma halts_emit Q ev : halts Q (emit ev).
Proof. intros st h [=]. Qed.

Lemma halts_assign Q req r : halts Q (assign req r).
Proof. intros st h [=]. Qed.

Lemma halts_newLimiter Q v : halts Q (newLimiter v).
Proof. by intros st h. Qed.

Lemma halts_newURL Q v : halts Q (newURL v).
Proof. intros st h [=]. Qed.

Lemma halts_deref (Q : Halt -> Prop) req : Q nilDereference -> halts Q (deref req).
Proof.
  intros H st h. unfold deref. destruct (requests st !! req); intros [= <-]. exact H.
Qed.

Lemma halts_derefURL (Q : Halt -> Prop) u : Q nilDereference -> halts Q (derefURL u).
Proof.
  intros H st h. unfold derefURL. destruct (urls st !! u); intros [= <-]. exact H.
Qed.

Lemma halts_log (Q : Halt -> Prop) format args :
  Q nilDereference -> halts Q (Config.log cfg format args).
Proof.
  intros H. unfold Config.log.
  destruct (Config.Logger cfg); [apply halts_emit | by apply halts_halt].
Qed.

Lemma halts_try {A : Type} (Q : Halt -> Prop) (r : result A) wrap :
  (forall err, r = Fail err -> Q (Err (wrap err))) -> halts Q (try r wrap).
Proof. intros H. destruct r; [apply halts_ret | apply halts_halt; by apply H]. Qed.

Lemma halts_bind {A B : Type} Q (m : M A) (k : A -> M B) :
  halts Q m -> (forall a, halts Q (k a)) -> halts Q (bind m k).
Proof.
  intros Hm Hk st h. rewrite returned_bind.
  destruct (returned (m st)) as [a|h'] eqn:E.
  - apply Hk.
  - intros [= <-]. by eapply Hm.
Qed.

Lemma halts_bind_yields {A B : Type} Q (P : A -> Prop) (m : M A) (k : A -> M B) :
  halts Q m -> yields P m -> (forall a, P a -> halts Q (k a)) -> halts Q (bind m k).
Proof.
  intros Hm Hy Hk st h. rewrite returned_bind.
  destruct (returned (m st)) as [a|h'] eqn:E.
  - apply Hk. by eapply Hy.
  - intros [= <-]. by eapply Hm.
Qed.

Lemma halts_range {A B : Type} Q (l : list A) (body : B -> A -> M B) vars :
  (forall b x, halts Q (body b x)) -> halts Q (range l body vars).
Proof.
  intros Hb. revert vars. induction l as [|x l IH]; intros vars; cbn.
  - apply halts_ret.
  - apply halts_bind; [apply Hb | intros b; apply IH].
Qed.

Lemma UpsertHalt_nil : UpsertHalt env cfg nilDereference.
Proof. by left. Qed.

Lemma UpsertHalt_map : UpsertHalt env cfg (Panic "assignment to entry in nil map").
Proof. by right. Qed.

(** What [connect] and [repos] return when they fail. *)
Lemma yields_connect_fail :
  yields (fun res => forall err, res = Fail err ->
            exists s cause, web_NewClient env s = Some cause
              /\ err = WrapWebError (web_FailedToCreateClientError env cause))
         (Config.connect env cfg).
Proof.
  unfold Config.connect.
  destruct (apiKey _) as [k|]; [|destruct (auth2 _) as [k|]].
  - eapply yields_bind; [apply yields_any|]. intros _ _.
    destruct (web_NewClient env _) eqn:E; apply yields_ret; [|done].
    intros err [= <-]. eauto.
  - eapply yields_bind; [apply yields_any|]. intros _ _.
    destruct (web_NewClient env _) eqn:E; apply yields_ret; [|done].
    intros err [= <-]. eauto.
  - by apply yields_ret.
Qed.

Lemma yields_reposFrom_fail dnss : forall i acc,
  (forall j dns, dnss !! j = Some dns -> Config.DNSList cfg !! (i + j)%nat = Some dns) ->
  yields (fun res => forall err, res = Fail err ->
            exists j dns cause,
              Config.DNSList cfg !! j = Some dns
              /\ repository_NewTx env j dns = Some cause
              /\ err = WrapRepositoryError
                         (repository_FailedToCreateRepositoryError env cause))
         (Config.reposFrom env cfg i dnss acc).
Proof.
  induction dnss as [|dns dnss IH]; intros i acc Hd; cbn [Config.reposFrom].
  - by apply yields_ret.
  - eapply yields_bind; [apply yields_any|]. intros _ _.
    destruct (repository_NewTx env i dns) eqn:E.
    + apply yields_ret. intros err [= <-]. exists i, dns. eexists.
      split; [|split; [exact E | reflexivity]].
      rewrite <- (Nat.add_0_r i). by apply Hd.
    + eapply yields_bind; [apply yields_any|]. intros _ _.
      apply IH. intros j dns' Hj. replace (S i + j)%nat with (i + S j)%nat by lia.
      by apply Hd.
Qed.

Lemma yields_newFetchConfig_fail req client lim :
  yields (fun res => forall err, res = Fail err -> UpsertError env cfg err)
         (newFetchConfig env cfg req client lim).
Proof.
  unfold newFetchConfig.
  eapply yields_bind; [apply yields_any|]. intros r _.
  destruct (url_JoinPath env _ _) eqn:Ej.
  - destruct (url_Parse env _) eqn:Ep.
    + eapply yields_bind; [apply yields_any|]. intros u _. by apply yields_ret.
    + apply yields_ret. intros err' [= <-]. by eapply FromParse.
  - apply yields_ret. intros err' [= <-]. by apply FromJoinPath.
Qed.

Lemma halts_newFetchConfig req client lim :
  halts (UpsertHalt env cfg) (newFetchConfig env cfg req client lim).
Proof.
  unfold newFetchConfig.
  apply halts_bind; [apply halts_deref, UpsertHalt_nil|]. intros r.
  destruct (url_JoinPath env _ _); [|apply halts_ret].
  destruct (url_Parse env _); [|apply halts_ret].
  apply halts_bind; [apply halts_newURL|]. intros u. apply halts_ret.
Qed.

Lemma halts_setQuery req name value : halts (UpsertHalt env cfg) (setQuery req name value).
Proof.
  unfold setQuery.
  apply halts_bind; [apply halts_deref, UpsertHalt_nil|]. intros r.
  destruct (Request.Query r); [apply halts_assign | apply halts_halt, UpsertHalt_map].
Qed.

Lemma halts_chunkBody req client lim jobs chunk :
  halts (UpsertHalt env cfg) (chunkBody env cfg req client lim jobs chunk).
Proof.
  unfold chunkBody.
  apply halts_bind; [apply halts_deref, UpsertHalt_nil|]. intros r.
  destruct (Request.Timeseries r) as [ts|]; [|apply halts_halt, UpsertHalt_nil].
  destruct (timeseries.Layout ts); [|apply halts_halt, UpsertHalt_nil].
  apply halts_bind; [apply halts_setQuery|]. intros _.
  apply halts_bind; [apply halts_setQuery|]. intros _.
  apply halts_bind; [apply halts_newFetchConfig|]. intros [fc|err].
  - apply halts_bind; [apply halts_deref, UpsertHalt_nil|]. intros r'. apply halts_ret.
  - apply halts_halt. apply FromChunk.
Qed.

Lemma halts_requestBody client lim vars req :
  halts (UpsertHalt env cfg) (requestBody env fuel cfg client lim vars req).
Proof.
  unfold requestBody, defaultMethod, setTimeseries. destruct vars as [jobs tables].
  apply halts_bind.
  { apply halts_bind; [apply halts_deref, UpsertHalt_nil|]. intros r.
    destruct (decide _); [apply halts_assign | apply halts_ret]. }
  intros _.
  eapply halts_bind_yields;
    [apply halts_newFetchConfig | apply yields_newFetchConfig_fail |].
  intros res Hres.
  apply halts_bind; [apply halts_try; exact Hres|]. intros fc.
  apply halts_bind; [apply halts_deref, UpsertHalt_nil|]. intros r.
  apply halts_bind.
  { destruct (Request.Timeseries r) as [ts|]; [|apply halts_ret].
    apply halts_bind; [apply halts_derefURL, UpsertHalt_nil|]. intros u.
    destruct (timeseries.setChunks env fuel ts u) as [ts' ending].
    apply halts_bind.
    { apply halts_bind; [apply halts_deref, UpsertHalt_nil|]. intros r'.
      apply halts_assign. }
    intros _. destruct ending as [[err|]|].
    - apply halts_halt. apply FromSetChunks.
    - apply halts_range. intros b x. apply halts_chunkBody.
    - by apply halts_halt. }
  intros jobs'.
  apply halts_bind; [apply halts_deref, UpsertHalt_nil|]. intros r'.
  destruct (Request.Table r'); apply halts_ret.
Qed.

Lemma halts_Upsert : halts (UpsertHalt env cfg) (Upsert env fuel cfg).
Proof.
  unfold Upsert.
  destruct (Config.validate cfg) as [err|] eqn:Hv.
  { apply halts_halt. unfold Config.validate in Hv.
    destruct (Config.RateLimitConfig cfg) as [rl|].
    - destruct (RateLimitConfig.validate rl); [|discriminate].
      injection Hv as <-. apply FromValidateInvalid.
    - injection Hv as <-. apply FromValidateMissing. }
  eapply halts_bind_yields; [|apply yields_connect_fail|].
  { unfold Config.connect. repeat case_match;
      repeat first [apply halts_bind; [apply halts_emit|intros _] | apply halts_ret]. }
  intros res Hres.
  apply halts_bind.
  { apply halts_try. intros err ->. destruct (Hres err eq_refl) as (s & cause & Hc & ->).
    by eapply FromConnect. }
  intros client.
  apply halts_bind; [apply halts_log, UpsertHalt_nil|]. intros _.
  eapply halts_bind_yields; [|apply yields_reposFrom_fail; by intros j dns|].
  { unfold Config.repos. generalize 0%nat (@nil Repo).
    induction (Config.DNSList cfg) as [|dns dnss IH]; intros i acc; cbn [Config.reposFrom].
    - apply halts_ret.
    - apply halts_bind; [apply halts_emit|]. intros _.
      destruct (repository_NewTx env i dns); [apply halts_ret|].
      apply halts_bind; [apply halts_log, UpsertHalt_nil|]. intros _. apply IH. }
  intros res' Hres'.
  apply halts_bind.
  { apply halts_try. intros err ->.
    destruct (Hres' err eq_refl) as (j & dns & cause & Hd & Hc & ->).
    by eapply FromRepos. }
  intros repos.
  apply halts_bind.
  { unfold rateLimiterOf. repeat case_match;
      first [apply halts_newLimiter | apply halts_halt, UpsertHalt_nil]. }
  intros lim.
  apply halts_bind; [apply halts_range; intros b x; apply halts_requestBody|].
  intros [jobs tables].
  apply halts_bind.
  { destruct (Config.Truncate cfg); [|apply halts_ret].
    apply halts_range. intros [] repo. unfold truncateBody.
    apply halts_bind; [apply halts_emit|]. intros _.
    destruct (repo_Truncate env repo tables) eqn:E.
    - apply halts_halt. by eapply FromTruncate.
    - apply halts_log, UpsertHalt_nil. }
  intros _.
  apply halts_bind; [unfold startWorkers; apply halts_range; intros; apply halts_emit|].
  intros _.
  apply halts_bind; [apply halts_log, UpsertHalt_nil|]. intros _.
  apply halts_bind; [unfold startWorkers; apply halts_range; intros; apply halts_emit|].
  intros _.
  apply halts_bind; [apply halts_log, UpsertHalt_nil|]. intros _.
  apply halts_bind; [apply halts_range; intros; apply halts_emit|]. intros _.
  apply halts_bind; [apply halts_log, UpsertHalt_nil|]. intros _.
  apply halts_bind.
  { unfold awaitDone. destruct jobs; [apply halts_ret|].
    destruct (workers_finish env _ _); [|by apply halts_halt].
    apply halts_range; intros; apply halts_emit. }
  intros _.
  apply halts_bind.
  { apply halts_range. intros [] repo. unfold commitBody.
    apply halts_bind; [apply halts_emit|]. intros _.
    destruct (repo_Commit env repo) eqn:E; [|apply halts_ret].
    apply halts_halt. by eapply FromCommit. }
  intros _. apply halts_log, UpsertHalt_nil.
Qed.

(** X10.  Every way [Upsert] stops short of returning nil.  An error it
    returns is one of ten: the two of validation; the failure of
    [web.NewClient], of [repository.NewTx] for a connection string of
    [DNSList], of [url.JoinPath] or of [url.Parse], each wrapped with
    its cause; the bare sentinels [ErrSettingTimeseriesChunks] and
    [ErrFetchingTimeseriesChunks]; the failure of a [Truncate] or of a
    [Commit], wrapped with its cause.  The two sentinels wrap nothing,
    and no error [Upsert] returns is one made by [setChunks] or by
    [RateLimitConfig.validate]: which field was missing or which value
    did not parse is not passed on.  A panic is a nil dereference or an
    assignment to an entry of a nil map. *)
Theorem upsert_halts st h :
  returned (Upsert env fuel cfg st) = inr h ->
  UpsertHalt env cfg h
  /\ (forall err, h = Err err ->
        (err = ErrSettingTimeseriesChunks \/ err = ErrFetchingTimeseriesChunks ->
         Unwrap err = None)
        /\ forall field,
             err <> MissingTimeseriesFieldError field
             /\ err <> UnableToParseError field
             /\ err <> MissingRateLimitFieldError field).
Proof.
  intros H. pose proof (halts_Upsert st h H) as Hh. split; [exact Hh|].
  intros err ->. split; [by intros [-> | ->]|].
  intros field. cbn in Hh.
  repeat split; intros ->; inversion Hh.
Qed.

End Halts.

(** X10 on two backends of which the second fails to commit. *)
Lemma upsert_halts_witness :
  UpsertHalt Scenario.env
    (Scenario.config ["db1"; "db2"] [2%positive] (Some Scenario.tenPerSecond) false)
    (Err (Errorf "unable to commit transaction: %w" (ErrExternal "commit failed") [])).
Proof.
  apply (proj1 (upsert_halts Scenario.env 0
                  (Scenario.config ["db1"; "db2"] [2%positive]
                     (Some Scenario.tenPerSecond) false)
                  Scenario.stored
                  (Err (Errorf "unable to commit transaction: %w"
                               (ErrExternal "commit failed") []))
                  ltac:(vm_compute; reflexivity))).
Defined.

(** * The order of Upsert's effects *)

Section Schedule.
Context (env : Env) (fuel : nat) (cfg : Config.t).

Lemma follows_ret {A : Type} (a : A) : follows [] (ret a).
Proof. intros st. split; [done | by intros]. Qed.

Lemma follows_halt {A : Type} full h : follows full (halt (A:=A) h).
Proof. intros st. split; [apply prefix_nil | intros a [=]]. Qed.

Lemma follows_emit ev : follows [ev] (emit ev).
Proof. intros st. split; [done | by intros]. Qed.

Lemma follows_silent {A : Type} (m : M A) : emits (fun _ => False) m -> follows [] m.
Proof.
  intros H st. specialize (H st). destruct (trace (m st)) as [|ev t]; [by split|].
  by apply Forall_cons in H as [[] _].
Qed.

Lemma follows_bind {A B : Type} f1 f2 (m : M A) (k : A -> M B) :
  follows f1 m -> (forall a, follows f2 (k a)) -> follows (f1 ++ f2) (bind m k).
Proof.
  intros Hm Hk st. rewrite trace_bind, returned_bind.
  destruct (Hm st) as [Hp He].
  destruct (returned (m st)) as [a|h] eqn:E.
  - rewrite (He a eq_refl). destruct (Hk a (store (m st))) as [Hp' He']. split.
    + by apply prefix_app.
    + intros b Hb. by rewrite (He' b Hb).
  - rewrite app_nil_r. split; [by apply prefix_app_r | intros b [=]].
Qed.

Lemma follows_bind_yields {A B : Type} (P : A -> Prop) f1 f2 (m : M A) (k : A -> M B) :
  follows f1 m -> yields P m -> (forall a, P a -> follows f2 (k a)) ->
  follows (f1 ++ f2) (bind m k).
Proof.
  intros Hm Hy Hk st. rewrite trace_bind, returned_bind.
  destruct (Hm st) as [Hp He].
  destruct (returned (m st)) as [a|h] eqn:E.
  - rewrite (He a eq_refl).
    destruct (Hk a (Hy st a E) (store (m st))) as [Hp' He']. split.
    + by apply prefix_app.
    + intros b Hb. by rewrite (He' b Hb).
  - rewrite app_nil_r. split; [by apply prefix_app_r | intros b [=]].
Qed.

Lemma follows_eq {A : Type} f1 f2 (m : M A) : f1 = f2 -> follows f1 m -> follows f2 m.
Proof. by intros ->. Qed.

Lemma follows_range {A B : Type} (f : A -> list Event) (l : list A)
    (body : B -> A -> M B) vars :
  (forall b x, follows (f x) (body b x)) -> follows (mjoin (f <$> l)) (range l body vars).
Proof.
  intros Hb. revert vars. induction l as [|x l IH]; intros vars; cbn.
  - apply follows_ret.
  - apply follows_bind; [apply Hb | intros b; apply IH].
Qed.

Lemma follows_each {A : Type} (f : A -> Event) (l : list A) :
  follows (f <$> l) (range l (fun _ x => emit (f x)) tt).
Proof.
  induction l as [|x l IH]; cbn; [apply follows_ret|].
  apply (follows_bind [f x]); [apply follows_emit | intros []; exact IH].
Qed.

Lemma follows_log format args :
  follows [EvLog format args] (Config.log cfg format args).
Proof.
  unfold Config.log. destruct (Config.Logger cfg); [apply follows_emit | apply follows_halt].
Qed.

Lemma follows_connect :
  follows (EvNewClient <$> option_list (signerOf cfg)) (Config.connect env cfg).
Proof.
  unfold Config.connect, signerOf.
  destruct (apiKey _) as [k|]; [|destruct (auth2 _) as [k|]]; cbn.
  - apply (follows_bind [_] []); [apply follows_emit|]. intros _.
    destruct (web_NewClient env _); apply follows_ret.
  - apply (follows_bind [_] []); [apply follows_emit|]. intros _.
    destruct (web_NewClient env _); apply follows_ret.
  - apply follows_ret.
Qed.

(** When [repository.NewTx] fails the error goes back as a value; the
    events are those of the attempts so far. *)
Lemma trace_reposFrom dnss : forall i acc st,
  let x := Config.reposFrom env cfg i dnss acc st in
  let full := mjoin (imap (fun j dns => [EvNewTx (i + j) dns;
                                         EvLog "created repository for %q" [dns]]) dnss) in
  trace x `prefix_of` full
  /\ (forall repos, returned x = inl (OK repos) -> trace x = full).
Proof.
  induction dnss as [|dns dnss IH]; intros i acc st; cbn zeta; cbn [Config.reposFrom].
  { split; [done | by intros]. }
  rewrite trace_bind, returned_bind. cbn [emit trace returned store fst snd].
  rewrite imap_cons. csimpl. rewrite Nat.add_0_r.
  destruct (repository_NewTx env i dns).
  { cbn. split; [by apply prefix_cons, prefix_nil | intros repos [=]]. }
  rewrite trace_bind, returned_bind. unfold Config.log.
  destruct (Config.Logger cfg); cbn.
  2: { split; [by apply prefix_cons, prefix_nil | intros repos [=]]. }
  destruct (IH (S i) (acc ++ [mkRepo i dns]) st) as [Hp He]. cbn zeta in Hp, He.
  assert (Hfull : imap ((fun j dns0 => [EvNewTx (i + j) dns0;
                                        EvLog "created repository for %q" [dns0]]) ∘ S) dnss
                  = imap (fun j dns0 => [EvNewTx (S i + j) dns0;
                                         EvLog "created repository for %q" [dns0]]) dnss).
  { apply imap_ext. intros j dns' _. cbn. do 2 f_equal. lia. }
  rewrite Hfull. split.
  - by apply prefix_cons, prefix_cons.
  - intros repos Hr. by rewrite (He repos Hr).
Qed.

Lemma follows_repos :
  follows (mjoin (imap (fun i dns => [EvNewTx i dns; EvLog "created repository for %q" [dns]])
                       (Config.DNSList cfg)))
          (bind (Config.repos env cfg) (fun res => try res (fun err => err))).
Proof.
  intros st. rewrite trace_bind, returned_bind. unfold Config.repos.
  destruct (trace_reposFrom (Config.DNSList cfg) 0 [] st) as [Hp He]. cbn zeta in Hp, He.
  destruct (returned (Config.reposFrom env cfg 0 (Config.DNSList cfg) [] st))
    as [[repos|err]|h] eqn:E; cbn; rewrite app_nil_r.
  - split; [exact Hp | intros _ _; by apply (He repos)].
  - split; [exact Hp | intros a [=]].
  - split; [exact Hp | intros a [=]].
Qed.

Lemma follows_truncateTables tables :
  follows (if Config.Truncate cfg
           then mjoin ((fun repo =>
                          [EvTruncate repo tables;
                           EvLog "truncated tables on %q: %v"
                                 [repo_Scheme env repo; String.concat ", " tables]])
                       <$> reposOf cfg)
           else [])
          (truncateTables env cfg (reposOf cfg) tables).
Proof.
  unfold truncateTables. destruct (Config.Truncate cfg); [|apply follows_ret].
  apply follows_range. intros [] repo. unfold truncateBody.
  apply (follows_bind [_] [_]); [apply follows_emit|]. intros _.
  destruct (repo_Truncate env repo tables); [apply follows_halt | apply follows_log].
Qed.

Lemma follows_awaitDone jobs repos :
  follows ((fun _ => EvAwaitDone) <$> jobs) (awaitDone env jobs repos).
Proof.
  unfold awaitDone. destruct jobs as [|job jobs]; [apply follows_ret|].
  destruct (workers_finish env _ _); [|apply follows_halt].
  apply (follows_each (fun _ => EvAwaitDone)).
Qed.

Lemma follows_runWorkers jobs :
  follows ((EvGo "repositoryWorker" <$> seq 1 (runtime_NumCPU env))
           ++ [EvLog "repository workers started" []]
           ++ (EvGo "webWorker" <$> seq 1 (runtime_NumCPU env))
           ++ [EvLog "web workers started" []]
           ++ (EvEnqueue <$> jobs)
           ++ [EvLog "web worker jobs enqueued" []]
           ++ ((fun _ => EvAwaitDone) <$> jobs))
          (runWorkers env cfg jobs (reposOf cfg)).
Proof.
  unfold runWorkers, startWorkers.
  apply follows_bind; [apply follows_each|]. intros _.
  apply follows_bind; [apply follows_log|]. intros _.
  apply follows_bind; [apply follows_each|]. intros _.
  apply follows_bind; [apply follows_log|]. intros _.
  apply follows_bind; [apply follows_each|]. intros _.
  apply follows_bind; [apply follows_log|]. intros _.
  apply follows_awaitDone.
Qed.

Lemma join_singletons {A B : Type} (f : A -> B) (l : list A) :
  mjoin ((fun x => [f x]) <$> l) = f <$> l.
Proof. induction l as [|x l IH]; [done|]. csimpl. by rewrite IH. Qed.

Lemma follows_commitAll : follows (EvCommit <$> reposOf cfg) (commitAll env (reposOf cfg)).
Proof.
  unfold commitAll.
  apply (follows_eq _ _ _ (join_singletons EvCommit (reposOf cfg))).
  apply follows_range. intros [] repo. unfold commitBody.
  apply (follows_eq _ _ _ (app_nil_r [EvCommit repo])).
  apply follows_bind; [apply follows_emit|]. intros _.
  destruct (repo_Commit env repo); [apply follows_halt | apply follows_ret].
Qed.

Lemma follows_prepare :
  follows ((EvNewClient <$> option_list (signerOf cfg))
           ++ [EvLog "connection establed: %s" [Config.URL cfg]]
           ++ mjoin (imap (fun i dns => [EvNewTx i dns;
                                         EvLog "created repository for %q" [dns]])
                          (Config.DNSList cfg)))
          (prepare env fuel cfg).
Proof.
  unfold prepare.
  apply follows_bind; [apply follows_connect|]. intros res.
  eapply follows_eq; [apply app_nil_l|].
  apply follows_bind; [destruct res; [apply follows_ret | apply follows_halt]|].
  intros client.
  apply follows_bind; [apply follows_log|]. intros _.
  intros st. rewrite <- bind_assoc. revert st.
  eapply follows_eq; [apply app_nil_r|].
  apply follows_bind; [apply follows_repos|]. intros repos.
  eapply follows_eq; [apply app_nil_l|].
  apply follows_bind.
  { apply follows_silent. unfold rateLimiterOf. repeat emits_step. }
  intros lim.
  eapply follows_eq; [apply app_nil_l|].
  apply follows_bind.
  { apply follows_silent. apply emits_range. intros b x _. apply emits_requestBody. }
  intros [jobs tables]. apply follows_ret.
Qed.

Lemma enqueued_app t1 t2 : enqueued (t1 ++ t2) = enqueued t1 ++ enqueued t2.
Proof. apply omap_app. Qed.

Lemma enqueued_schedule tables jobs : enqueued (schedule env cfg tables jobs) = jobs.
Proof.
  unfold schedule. rewrite !enqueued_app.
  assert (Hno : forall t, Forall (fun ev => forall job, ev <> EvEnqueue job) t ->
                          enqueued t = []).
  { induction 1 as [|ev t Hev _ IH]; [done|]. unfold enqueued in *. csimpl.
    destruct ev; try exact IH. by destruct (Hev job). }
  rewrite (Hno (EvNewClient <$> _)) by (apply Forall_fmap, Forall_forall; by intros).
  rewrite (Hno (mjoin (imap _ _))).
  2: { apply Forall_forall. intros ev Hev. apply list_elem_of_join in Hev as (l & Hev & Hl).
       apply elem_of_lookup_imap in Hl as (i & dns & -> & _).
       apply elem_of_cons in Hev as [-> | Hev]; [done|].
       apply list_elem_of_singleton in Hev as ->. done. }
  rewrite (Hno (if Config.Truncate cfg then _ else _)).
  2: { destruct (Config.Truncate cfg); [|constructor].
       apply Forall_forall. intros ev Hev. apply list_elem_of_join in Hev as (l & Hev & Hl).
       apply list_elem_of_fmap in Hl as (repo & -> & _).
       apply elem_of_cons in Hev as [-> | Hev]; [done|].
       apply list_elem_of_singleton in Hev as ->. done. }
  rewrite !(Hno (EvGo _ <$> _)) by (apply Forall_fmap, Forall_forall; by intros).
  rewrite (Hno ((fun _ => EvAwaitDone) <$> _)) by (apply Forall_fmap, Forall_forall; by intros).
  rewrite (Hno (EvCommit <$> _)) by (apply Forall_fmap, Forall_forall; by intros).
  cbn. rewrite app_nil_r.
  induction jobs as [|job jobs IH]; [done|]. unfold enqueued in *. csimpl. by rewrite IH.
Qed.

(** The events of a run are the first events of the schedule, and all
    of it, for the jobs planned, when the run returns nil. *)
Lemma Upsert_follows st :
  let x := Upsert env fuel cfg st in
  exists jobs,
    trace x `prefix_of` schedule env cfg (tablesOf st (Config.Requests cfg)) jobs
    /\ (returned x = inl tt ->
        returned (prepare env fuel cfg st)
        = inl (reposOf cfg, jobs, tablesOf st (Config.Requests cfg))
        /\ trace x = schedule env cfg (tablesOf st (Config.Requests cfg)) jobs).
Proof.
  cbn zeta. rewrite Upsert_by_parts. unfold UpsertByParts.
  destruct (Config.validate cfg).
  { exists []. split; [apply prefix_nil | intros [=]]. }
  set (rest := fun jobs =>
    truncateTables env cfg (reposOf cfg) (tablesOf st (Config.Requests cfg));;
    runWorkers env cfg jobs (reposOf cfg);;
    commitAll env (reposOf cfg);;
    Config.log cfg "upsert completed" []).
  assert (Hrest : forall jobs,
            follows ((if Config.Truncate cfg
                      then mjoin ((fun repo =>
                             [EvTruncate repo (tablesOf st (Config.Requests cfg));
                              EvLog "truncated tables on %q: %v"
                                    [repo_Scheme env repo;
                                     String.concat ", " (tablesOf st (Config.Requests cfg))]])
                             <$> reposOf cfg)
                      else [])
                     ++ ((EvGo "repositoryWorker" <$> seq 1 (runtime_NumCPU env))
                         ++ [EvLog "repository workers started" []]
                         ++ (EvGo "webWorker" <$> seq 1 (runtime_NumCPU env))
                         ++ [EvLog "web workers started" []]
                         ++ (EvEnqueue <$> jobs)
                         ++ [EvLog "web worker jobs enqueued" []]
                         ++ ((fun _ => EvAwaitDone) <$> jobs))
                     ++ (EvCommit <$> reposOf cfg)
                     ++ [EvLog "upsert completed" []])
                    (rest jobs)).
  { intros jobs. unfold rest.
    apply follows_bind; [apply follows_truncateTables|]. intros _.
    apply follows_bind; [apply follows_runWorkers|]. intros _.
    apply follows_bind; [apply follows_commitAll|]. intros _.
    apply follows_log. }
  assert (Hs : forall jobs,
            schedule env cfg (tablesOf st (Config.Requests cfg)) jobs
            = ((EvNewClient <$> option_list (signerOf cfg))
               ++ [EvLog "connection establed: %s" [Config.URL cfg]]
               ++ mjoin (imap (fun i dns => [EvNewTx i dns;
                                             EvLog "created repository for %q" [dns]])
                              (Config.DNSList cfg)))
              ++ _) by (intros jobs; unfold schedule; rewrite <- !app_assoc; reflexivity).
  destruct (follows_prepare st) as [Hp He].
  match goal with |- context [bind _ ?k st] =>
    destruct (bind_cases (prepare env fuel cfg) k st)
      as [(h & Hr & ->) | ([[repos jobs] tables] & Hr & ->)] end.
  { exists []. cbn [trace returned fst snd]. split; [|intros [=]].
    rewrite Hs. apply prefix_app_r. exact Hp. }
  destruct (prepare_value env fuel cfg st repos jobs tables Hr) as [-> ->].
  exists jobs. cbn [trace returned fst snd]. fold (rest jobs).
  rewrite (He _ Hr).
  destruct (Hrest jobs (store (prepare env fuel cfg st))) as [Hp' He'].
  rewrite <- !app_assoc in Hp', He'. rewrite Hs.
  split.
  - apply prefix_app. exact Hp'.
  - intros Hret. rewrite (He' tt Hret). by split.
Qed.

(** X11.  The effects of [Upsert] always come in one order, and a run
    that fails only cuts it short.  For the jobs planning comes to, the
    events of any run are the first events of this sequence, and all of
    it when [Upsert] returns nil: the client is made (if the
    configuration has credentials); for each connection string in
    turn, its transaction is opened; if [truncate] is set, each
    repository in turn truncates the tables of the requests; the
    repository workers 1 to NumCPU are started, then the web workers 1
    to NumCPU; every job is enqueued in planning order; one completion
    is awaited for each job; each repository in turn is committed.  On
    a run that returns nil the jobs enqueued are all those planned. *)
Theorem upsert_schedule st :
  let x := Upsert env fuel cfg st in
  exists jobs,
    trace x `prefix_of` schedule env cfg (tablesOf st (Config.Requests cfg)) jobs
    /\ (returned x = inl tt ->
        trace x = schedule env cfg (tablesOf st (Config.Requests cfg)) jobs
        /\ enqueued (trace x) = jobs).
Proof.
  cbn zeta. destruct (Upsert_follows st) as (jobs & Hprefix & Hall). cbn zeta in *.
  exists jobs. split; [exact Hprefix|].
  intros Hret. destruct (Hall Hret) as [_ ->]. split; [reflexivity|].
  apply enqueued_schedule.
Qed.

End Schedule.

(** X11 on one backend and the request for trades: the run returns nil
    and its events are the whole sequence. *)
Lemma upsert_schedule_witness :
  let cfg := Scenario.config ["db1"] [2%positive] (Some Scenario.tenPerSecond) true in
  exists jobs,
    trace (Upsert Scenario.env 0 cfg Scenario.stored)
    = schedule Scenario.env cfg (tablesOf Scenario.stored (Config.Requests cfg)) jobs
    /\ enqueued (trace (Upsert Scenario.env 0 cfg Scenario.stored)) = jobs.
Proof.
  cbn zeta.
  destruct (upsert_schedule Scenario.env 0
              (Scenario.config ["db1"] [2%positive] (Some Scenario.tenPerSecond) true)
              Scenario.stored) as (jobs & _ & H).
  exists jobs. apply H. vm_compute. reflexivity.
Defined.

(** * Credentials, connections and truncation *)

Section Connections.
Context (env : Env) (fuel : nat) (cfg : Config.t).

(** X12.  Without [truncate] in the configuration [Upsert] never calls
    [Truncate], however the run ends. *)
Theorem upsert_no_truncate st :
  Config.Truncate cfg = false ->
  truncated (trace (Upsert env fuel cfg st)) = [].
Proof.
  intros Hflag. apply truncated_other. rewrite Upsert_by_parts. revert st.
  change (emits (fun ev => ~ isTruncate ev) (UpsertByParts env fuel cfg)).
  unfold UpsertByParts. destruct (Config.validate cfg); [apply emits_halt|].
  apply emits_bind.
  { eapply emits_mono; [|apply emits_prepare]. intros ev Hev.
    apply (ofPrepare_other ev Hev). }
  intros [[repos jobs] tables].
  apply emits_bind; [unfold truncateTables; rewrite Hflag; apply emits_ret|]. intros _.
  apply emits_bind.
  { eapply emits_mono; [|apply emits_runWorkers]. intros ev Hev.
    apply (ofWorkers_other ev Hev). }
  intros _.
  apply emits_bind.
  { eapply emits_mono; [|apply emits_commitAll]. intros ev Hev.
    apply (ofCommit_other ev Hev). }
  intros _. apply emits_log. by intros [].
Qed.

Lemma yields_connect :
  yields (fun res => forall client, res = OK client -> client = mkClient <$> signerOf cfg)
         (Config.connect env cfg).
Proof.
  unfold Config.connect, signerOf.
  destruct (apiKey _) as [k|]; [|destruct (auth2 _) as [k|]].
  - eapply yields_bind; [apply yields_any|]. intros _ _.
    destruct (web_NewClient env _); apply yields_ret; [done|]. by intros client [= <-].
  - eapply yields_bind; [apply yields_any|]. intros _ _.
    destruct (web_NewClient env _); apply yields_ret; [done|]. by intros client [= <-].
  - apply yields_ret. by intros client [= <-].
Qed.

(** Whatever holds of every fetch configuration made for a client and a
    limiter holds of the fetch configuration of every job planned. *)
Lemma yields_newFetchConfig_for (P : web.FetchConfig -> Prop) req client lim :
  (forall method u, P (web.mkFetchConfig client method u lim)) ->
  yields (fun res => forall fc, res = OK fc -> P fc)
         (newFetchConfig env cfg req client lim).
Proof.
  intros HP. unfold newFetchConfig.
  eapply yields_bind; [apply yields_any|]. intros r _.
  destruct (url_JoinPath env _ _); [|by apply yields_ret].
  destruct (url_Parse env _); [|by apply yields_ret].
  eapply yields_bind; [apply yields_any|]. intros u _.
  apply yields_ret. intros fc [= <-]. apply HP.
Qed.

Lemma yields_chunkBody_for (P : web.FetchConfig -> Prop) req client lim jobs chunk :
  (forall method u, P (web.mkFetchConfig client method u lim)) ->
  Forall (fun job => P (fetchConfig job)) jobs ->
  yields (Forall (fun job => P (fetchConfig job)))
         (chunkBody env cfg req client lim jobs chunk).
Proof.
  intros HP Hjobs. unfold chunkBody.
  eapply yields_bind; [apply yields_any|]. intros r _.
  destruct (Request.Timeseries r) as [ts|]; [|apply yields_halt].
  destruct (timeseries.Layout ts); [|apply yields_halt].
  eapply yields_bind; [apply yields_any|]. intros _ _.
  eapply yields_bind; [apply yields_any|]. intros _ _.
  eapply yields_bind; [by apply yields_newFetchConfig_for|]. intros [fc|err] Hfc;
    [|apply yields_halt].
  eapply yields_bind; [apply yields_any|]. intros r' _.
  apply yields_ret. apply Forall_app. split; [exact Hjobs|].
  constructor; [|constructor]. cbn. by apply Hfc.
Qed.

Lemma yields_requestBody_for (P : web.FetchConfig -> Prop) client lim vars req :
  (forall method u, P (web.mkFetchConfig client method u lim)) ->
  Forall (fun job => P (fetchConfig job)) (fst vars) ->
  yields (fun vars' => Forall (fun job => P (fetchConfig job)) (fst vars'))
         (requestBody env fuel cfg client lim vars req).
Proof.
  destruct vars as [jobs tables]. cbn. intros HP Hjobs.
  eapply yields_bind; [apply yields_any|]. intros _ _.
  eapply yields_bind; [by apply yields_newFetchConfig_for|]. intros res Hres.
  eapply (yields_bind P).
  { destruct res; [apply yields_ret; by apply Hres | apply yields_halt]. }
  intros fc Hfc.
  eapply yields_bind; [apply yields_any|]. intros r' _.
  eapply (yields_bind (Forall (fun job => P (fetchConfig job)))).
  - destruct (Request.Timeseries r') as [ts|].
    + eapply yields_bind; [apply yields_any|]. intros u _.
      destruct (timeseries.setChunks env fuel ts u) as [ts' ending].
      eapply yields_bind; [apply yields_any|]. intros _ _.
      destruct ending as [[err|]|]; try apply yields_halt.
      apply yields_range; [exact Hjobs|].
      intros b x Hb. by apply yields_chunkBody_for.
    + apply yields_ret. apply Forall_app. split; [exact Hjobs|].
      by constructor.
  - intros jobs' Hjobs'.
    eapply yields_bind; [apply yields_any|]. intros r'' _.
    destruct (Request.Table r''); by apply yields_ret.
Qed.

Lemma Forall_enqueued (P : flattenedRequest -> Prop) t :
  Forall (fun ev => forall job, ev = EvEnqueue job -> P job) t -> Forall P (enqueued t).
Proof.
  unfold enqueued. induction 1 as [|ev t Hev _ IH]; cbn; [constructor|].
  destruct ev; try exact IH. constructor; [by apply Hev | exact IH].
Qed.

(** The events of [Upsert] all satisfy [φ], when the client is made for
    a signer that does and the jobs enqueued, which hold the client
    [connect] has built, do. *)
Lemma emits_Upsert (φ : Event -> Prop) :
  (forall s, signerOf cfg = Some s -> φ (EvNewClient s)) ->
  (forall job, web.C (fetchConfig job) = mkClient <$> signerOf cfg -> φ (EvEnqueue job)) ->
  (forall ev, (forall s, ev <> EvNewClient s) -> (forall job, ev <> EvEnqueue job) -> φ ev) ->
  emits φ (Upsert env fuel cfg).
Proof.
  intros Hclient Hjob Hother.
  unfold Upsert. destruct (Config.validate cfg); [apply emits_halt|].
  eapply emits_bind_yields; [|apply yields_connect|].
  { unfold Config.connect, signerOf in *.
    destruct (apiKey _) as [k|]; [|destruct (auth2 _) as [k|]];
      repeat first [emits_step | by apply Hclient]. }
  intros res Hres.
  eapply (emits_bind_yields _ (fun client => client = mkClient <$> signerOf cfg)).
  { apply emits_try. }
  { destruct res; [apply yields_ret; by apply Hres | apply yields_halt]. }
  intros client ->.
  apply emits_bind; [apply emits_log; by apply Hother|]. intros _.
  apply emits_bind; [apply emits_reposFrom; intros; by apply Hother|]. intros res'.
  apply emits_bind; [apply emits_try|]. intros repos.
  apply emits_bind; [unfold rateLimiterOf; repeat emits_step|]. intros lim.
  eapply (emits_bind_yields _
            (fun vars => Forall (fun job => web.C (fetchConfig job)
                                            = mkClient <$> signerOf cfg) (fst vars))).
  { apply emits_range. intros b x _. apply emits_requestBody. }
  { apply yields_range; [constructor|]. intros b x Hb.
    by apply (yields_requestBody_for
                (fun fc => web.C fc = mkClient <$> signerOf cfg)). }
  intros [jobs tables] Hjobs. cbn in Hjobs.
  apply emits_bind.
  { destruct (Config.Truncate cfg); [|apply emits_ret].
    apply emits_truncate; intros; by apply Hother. }
  intros _.
  apply emits_bind; [apply emits_startWorkers; intros; by apply Hother|]. intros _.
  apply emits_bind; [apply emits_log; by apply Hother|]. intros _.
  apply emits_bind; [apply emits_startWorkers; intros; by apply Hother|]. intros _.
  apply emits_bind; [apply emits_log; by apply Hother|]. intros _.
  apply emits_bind.
  { apply emits_enqueue. eapply Forall_impl; [exact Hjobs|]. exact Hjob. }
  intros _.
  apply emits_bind; [apply emits_log; by apply Hother|]. intros _.
  apply emits_bind; [apply emits_awaitDone; by apply Hother|]. intros _.
  apply emits_bind; [apply emits_commit; intros; by apply Hother|]. intros _.
  apply emits_log; by apply Hother.
Qed.

(** X13.  The credentials [connect] uses are the API key if the
    configuration has one, the OAuth2 bearer otherwise, and none if it
    has neither.  [Upsert] makes no client but the one for these
    credentials, and every job it enqueues holds that client, or nil
    when there are no credentials.  If [web.NewClient] fails, [Upsert]
    returns the failure wrapped twice, having done nothing else: no
    transaction is opened and the requests are as they were. *)
Theorem upsert_connects_once st :
  let x := Upsert env fuel cfg st in
  (forall s, EvNewClient s ∈ trace x -> signerOf cfg = Some s)
  /\ Forall (fun job => web.C (fetchConfig job) = mkClient <$> signerOf cfg)
            (enqueued (trace x))
  /\ (forall s cause,
        Config.validate cfg = None ->
        signerOf cfg = Some s ->
        web_NewClient env s = Some cause ->
        x = (inr (Err (Errorf "unable to connect to client: %w"
                              (WrapWebError (web_FailedToCreateClientError env cause)) [])),
             st, [EvNewClient s])).
Proof.
  cbn zeta. split; [|split].
  - intros s Hs.
    assert (H : emits (fun ev => forall s, ev = EvNewClient s -> signerOf cfg = Some s)
                      (Upsert env fuel cfg)).
    { apply emits_Upsert.
      - by intros s' Hs' s'' [= <-].
      - by intros job _ s' [=].
      - intros ev Hev _ s' ->. by destruct (Hev s'). }
    specialize (H st). rewrite Forall_forall in H. by apply (H _ Hs).
  - apply Forall_enqueued.
    apply (emits_Upsert (fun ev => forall job, ev = EvEnqueue job ->
                                   web.C (fetchConfig job) = mkClient <$> signerOf cfg)).
    + by intros s _ job [=].
    + by intros job Hjob job' [= <-].
    + intros ev _ Hev job ->. by destruct (Hev job).
  - intros s cause Hv Hs Hc. unfold Upsert. rewrite Hv.
    unfold Config.connect. unfold signerOf in Hs.
    destruct (apiKey _) as [k|]; [|destruct (auth2 _) as [k|]; [|discriminate]];
      injection Hs as <-; unfold bind; cbn; by rewrite Hc.
Qed.

(** The attempts of [repos] up to the first connection string that
    cannot be opened. *)
Lemma reposFrom_fails dnss : forall k i acc st dns cause,
  Config.Logger cfg <> None ->
  dnss !! k = Some dns ->
  repository_NewTx env (i + k) dns = Some cause ->
  (forall j dns', (j < k)%nat -> dnss !! j = Some dns' ->
                  repository_NewTx env (i + j) dns' = None) ->
  Config.reposFrom env cfg i dnss acc st
  = (inl (Fail (WrapRepositoryError (repository_FailedToCreateRepositoryError env cause))),
     st,
     mjoin (imap (fun j dns' => [EvNewTx (i + j) dns';
                                 EvLog "created repository for %q" [dns']])
                 (take k dnss))
     ++ [EvNewTx (i + k) dns]).
Proof.
  induction dnss as [|dns0 dnss IH]; intros k i acc st dns cause Hlog Hk Hc Hbefore;
    [done|].
  cbn [Config.reposFrom]. destruct k as [|k].
  - injection Hk as ->. rewrite Nat.add_0_r in Hc |- *. unfold bind. cbn. by rewrite Hc.
  - cbn in Hk. specialize (Hbefore 0%nat dns0 ltac:(lia) eq_refl) as H0.
    rewrite Nat.add_0_r in H0. unfold bind at 1. cbn [emit]. rewrite H0.
    unfold bind at 1, Config.log. destruct (Config.Logger cfg); [|done]. cbn [emit].
    rewrite (IH k (S i) _ st dns cause Hlog Hk).
    + cbn [take]. rewrite imap_cons. csimpl. rewrite Nat.add_0_r.
      replace (i + S k)%nat with (S (i + k))%nat by lia.
      do 5 f_equal. apply imap_ext. intros j dns' _. cbn. do 2 f_equal. lia.
    + by replace (S i + k)%nat with (i + S k)%nat by lia.
    + intros j dns' Hj Hd. replace (S i + j)%nat with (i + S j)%nat by lia.
      apply Hbefore; [lia | exact Hd].
Qed.

(** X14.  When [repository.NewTx] fails for a connection string, the
    ones before it having been opened, [Upsert] returns that failure
    wrapped as a repository error.  By then it has made the client and
    opened, in order, the transactions of the connection strings before
    the failing one; the failed attempt is the last thing it does.  The
    transactions opened are neither committed nor rolled back, no table
    is truncated, no worker is started, and the requests are as they
    were. *)
Theorem upsert_open_failure st k dns cause :
  Config.validate cfg = None ->
  Config.Logger cfg <> None ->
  (forall s, signerOf cfg = Some s -> web_NewClient env s = None) ->
  Config.DNSList cfg !! k = Some dns ->
  repository_NewTx env k dns = Some cause ->
  (forall j dns', (j < k)%nat -> Config.DNSList cfg !! j = Some dns' ->
                  repository_NewTx env j dns' = None) ->
  Upsert env fuel cfg st
  = (inr (Err (WrapRepositoryError (repository_FailedToCreateRepositoryError env cause))),
     st,
     (EvNewClient <$> option_list (signerOf cfg))
     ++ [EvLog "connection establed: %s" [Config.URL cfg]]
     ++ mjoin (imap (fun j dns' => [EvNewTx j dns'; EvLog "created repository for %q" [dns']])
                    (take k (Config.DNSList cfg)))
     ++ [EvNewTx k dns]).
Proof.
  intros Hv Hlog Hclient Hk Hc Hbefore. unfold Upsert. rewrite Hv.
  assert (Hconn : Config.connect env cfg st
                  = (inl (OK (mkClient <$> signerOf cfg)), st,
                     EvNewClient <$> option_list (signerOf cfg))).
  { unfold Config.connect. unfold signerOf in *.
    destruct (apiKey _) as [a|]; [|destruct (auth2 _) as [a|]]; cbn; [| |reflexivity];
      unfold bind; cbn; by rewrite (Hclient _ eq_refl). }
  rewrite (bind_silent_any _ _ _ _ Hconn).
  rewrite (bind_silent (try _ _) _ st _ st) by reflexivity.
  assert (Hl : Config.log cfg "connection establed: %s" [Config.URL cfg] st
               = (inl tt, st, [EvLog "connection establed: %s" [Config.URL cfg]])).
  { unfold Config.log. by destruct (Config.Logger cfg). }
  rewrite (bind_silent_any _ _ _ _ Hl). unfold Config.repos.
  rewrite (bind_silent_any _ _ _ _
             (reposFrom_fails (Config.DNSList cfg) k 0 [] st dns cause Hlog Hk Hc Hbefore)).
  cbn. by rewrite app_nil_r.
Qed.

End Connections.

(** X12 on two requests and two backends, [truncate] not set. *)
Lemma upsert_no_truncate_witness :
  truncated (trace (Upsert Scenario.env 5
                      (Scenario.config ["db1"; "db2"] [1%positive; 2%positive]
                         (Some Scenario.tenPerSecond) false)
                      Scenario.stored))
  = [].
Proof. apply upsert_no_truncate. reflexivity. Defined.

(** X13 on the configuration with credentials of both kinds: the
    client made is the one of the API key. *)
Lemma upsert_connects_once_witness :
  signerOf Scenario.keyed
  = Some (APIKeySigner "https://api.test" "key" "passphrase" "secret").
Proof.
  apply (proj1 (upsert_connects_once Scenario.env 0 Scenario.keyed Scenario.stored)).
  vm_compute. left.
Defined.

(** X14 on three backends of which the second cannot be reached. *)
Lemma upsert_open_failure_witness :
  Upsert Scenario.envDown 0
         (Scenario.config ["db1"; "down"; "db3"] [2%positive]
            (Some Scenario.tenPerSecond) true)
         Scenario.stored
  = (inr (Err (WrapRepositoryError (ErrExternal "connection refused"))),
     Scenario.stored,
     [EvLog "connection establed: %s" ["https://api.test"];
      EvNewTx 0 "db1"; EvLog "created repository for %q" ["db1"];
      EvNewTx 1 "down"]).
Proof.
  apply (upsert_open_failure Scenario.envDown 0
           (Scenario.config ["db1"; "down"; "db3"] [2%positive]
              (Some Scenario.tenPerSecond) true)
           Scenario.stored 1 "down" (ErrExternal "connection refused")).
  - reflexivity.
  - discriminate.
  - intros s [=].
  - reflexivity.
  - reflexivity.
  - intros [|j] dns' Hj Hd; [|lia]. cbn in Hd. by injection Hd as <-.
Defined.

(** * What Upsert writes *)

Section Frame.
Context (env : Env) (fuel : nat) (cfg : Config.t).

Lemma sameTimeseries_refl ts : sameTimeseries ts ts.
Proof. by repeat split. Qed.

Lemma sameTimeseries_trans ts1 ts2 ts3 :
  sameTimeseries ts1 ts2 -> sameTimeseries ts2 ts3 -> sameTimeseries ts1 ts3.
Proof.
  intros (A1 & B1 & C1 & D1 & E1) (A2 & B2 & C2 & D2 & E2).
  repeat split; try congruence. by transitivity (timeseries.chunks ts2).
Qed.

Lemma sameRequest_refl r : sameRequest r r.
Proof.
  repeat split; try tauto.
  destruct (Request.Timeseries r); constructor. apply sameTimeseries_refl.
Qed.

Lemma sameRequest_trans r1 r2 r3 : sameRequest r1 r2 -> sameRequest r2 r3 -> sameRequest r1 r3.
Proof.
  intros (A1 & B1 & C1 & D1 & E1 & F1) (A2 & B2 & C2 & D2 & E2 & F2).
  split; [congruence|]. split; [congruence|]. split; [congruence|].
  split; [|split; [tauto|]].
  - destruct D1 as [D1 | [D1 D1']], D2 as [D2 | [D2 D2']].
    + left. congruence.
    + right. split; congruence.
    + right. split; congruence.
    + rewrite D1' in D2. discriminate.
  - destruct F1 as [ts1 ts2 F1|]; inversion F2 as [? ts3 F2'|]; subst; constructor.
    by eapply sameTimeseries_trans.
Qed.

#[local] Instance fixed_preorder : PreOrder fixed.
Proof.
  split.
  - intros st. split; [|done]. intros req.
    destruct (requests st !! req); constructor. apply sameRequest_refl.
  - intros st1 st2 st3 [H1 U1] [H2 U2]. split; [|by transitivity (urls st2)].
    intros req. specialize (H1 req). specialize (H2 req).
    destruct H1 as [r1 r2 H1|]; inversion H2 as [? r3 H2'|]; subst; constructor.
    by eapply sameRequest_trans.
Qed.

Lemma fixed_assign req r r' st :
  requests st !! req = Some r -> sameRequest r r' ->
  fixed st (mkStore (<[req := r']> (requests st)) (urls st) (limiters st)).
Proof.
  intros Hr Hs. split; [|reflexivity]. intros l. cbn.
  destruct (decide (req = l)) as [<-|Hne].
  - rewrite lookup_insert_eq, Hr. by constructor.
  - rewrite lookup_insert_ne by done.
    destruct (requests st !! l); constructor. apply sameRequest_refl.
Qed.

Lemma fixed_newURL v : keeps fixed (newURL v).
Proof.
  intros st. split.
  - intros req. cbn. destruct (requests st !! req); constructor. apply sameRequest_refl.
  - cbn. apply insert_subseteq, not_elem_of_dom, is_fresh.
Qed.

Lemma fixed_newLimiter v : keeps fixed (newLimiter v).
Proof.
  intros st. split; [|done].
  intros req. cbn. destruct (requests st !! req); constructor. apply sameRequest_refl.
Qed.

Lemma fixed_setQuery req name value : keeps fixed (setQuery req name value).
Proof.
  intros st. unfold setQuery, bind, deref, assign, halt.
  destruct (requests st !! req) as [r|] eqn:Hr; cbn; [|reflexivity].
  destruct (Request.Query r) eqn:Hq; cbn; [|reflexivity].
  eapply fixed_assign; [exact Hr|].
  repeat split; cbn; try tauto; try congruence.
  destruct (Request.Timeseries r); constructor. apply sameTimeseries_refl.
Qed.

Lemma fixed_defaultMethod req : keeps fixed (defaultMethod req).
Proof.
  intros st. unfold defaultMethod, bind, deref, assign, ret.
  destruct (requests st !! req) as [r|] eqn:Hr; cbn; [|reflexivity].
  destruct (decide _) as [Hm|Hm]; cbn; [|reflexivity].
  eapply fixed_assign; [exact Hr|].
  repeat split; cbn; try tauto.
  destruct (Request.Timeseries r); constructor. apply sameTimeseries_refl.
Qed.

Lemma fixed_newFetchConfig req client lim :
  keeps fixed (newFetchConfig env cfg req client lim).
Proof. unfold newFetchConfig. repeat first [apply fixed_newURL | keeps_step]. Qed.

Lemma fixed_chunkBody req client lim jobs chunk :
  keeps fixed (chunkBody env cfg req client lim jobs chunk).
Proof.
  unfold chunkBody.
  repeat first [apply fixed_setQuery | apply fixed_newFetchConfig | keeps_step].
Qed.

Lemma setChunks_same fuel' ts url ts' ending :
  timeseries.setChunks env fuel' ts url = (ts', ending) -> sameTimeseries ts ts'.
Proof.
  unfold timeseries.setChunks, sameTimeseries, timeseries.layoutOf. cbn.
  repeat case_match; intros [= <- <-]; cbn in *; repeat split;
    first [done | congruence | by eapply loop_prefix].
Qed.

(** The one write of [Upsert] that stores a struct computed from a
    struct read earlier: between the read and the write the request has
    not changed. *)
Lemma fixed_requestBody client lim vars req :
  keeps fixed (requestBody env fuel cfg client lim vars req).
Proof.
  unfold requestBody. destruct vars as [jobs tables].
  apply keeps_bind; [apply _ | apply fixed_defaultMethod|]. intros _.
  apply keeps_bind; [apply _ | apply fixed_newFetchConfig|]. intros res.
  apply keeps_bind; [apply _ | apply keeps_try; apply _|]. intros fc.
  intros st.
  destruct (requests st !! req) as [r|] eqn:Hr.
  2: { rewrite (bind_halts _ _ st nilDereference st []) by (unfold deref; by rewrite Hr).
       reflexivity. }
  erewrite bind_silent; [|apply deref_eq; exact Hr].
  rewrite store_bind. cbn zeta.
  assert (Hplan : fixed st (store
            (match Request.Timeseries r with
             | Some ts =>
                 do u <- derefURL (web.URL fc);
                 let '(ts', ending) := timeseries.setChunks env fuel ts u in
                 setTimeseries req ts';;
                 match ending with
                 | timeseries.Running => halt OutOfFuel
                 | timeseries.Returns (Some _) => halt (Err ErrSettingTimeseriesChunks)
                 | timeseries.Returns None =>
                     range (timeseries.chunks ts')
                           (chunkBody env cfg req client lim) jobs
                 end
             | None => ret (jobs ++ [mkFlattenedRequest fc (Request.Table r)])
             end st))).
  { destruct (Request.Timeseries r) as [ts|] eqn:Hts; [|reflexivity].
    destruct (urls st !! web.URL fc) as [u|] eqn:Hu.
    2: { rewrite (bind_halts _ _ st nilDereference st [])
           by (unfold derefURL; by rewrite Hu).
         reflexivity. }
    erewrite bind_silent; [|apply derefURL_eq; exact Hu].
    destruct (timeseries.setChunks env fuel ts u) as [ts' ending] eqn:Hsc.
    erewrite bind_silent; [|apply setTimeseries_eq; exact Hr].
    etransitivity.
    { apply (fixed_assign req r (withTimeseries r ts') st Hr).
      repeat split; cbn; try tauto. rewrite Hts. constructor.
      by eapply setChunks_same. }
    destruct ending as [[err|]|]; try reflexivity.
    apply keeps_range; [apply _|]. intros b x. apply fixed_chunkBody. }
  destruct (returned _) as [jobs'|h]; [|exact Hplan].
  etransitivity; [exact Hplan|].
  match goal with |- fixed ?s _ => generalize s end. intros st'. cbn beta.
  apply (keeps_bind fixed); [apply keeps_deref; apply _|]. intros r'.
  destruct (Request.Table r'); apply keeps_ret; apply _.
Qed.

(** X15.  What [Upsert] may write, however the run ends.  It creates
    and drops no request.  Of a request of its caller it leaves the
    endpoint, the burst cap and the table as they were; the method is
    as it was, or was empty and has become GET; a nil query map stays
    nil and a map stays a map; a timeseries is neither added nor
    removed, keeps its two names, its period and its layout (RFC 3339
    standing for none), and the chunks it had stay in front of those
    it has.  A URL that existed keeps its value. *)
Theorem upsert_frame st : fixed st (store (Upsert env fuel cfg st)).
Proof.
  revert st. change (keeps fixed (Upsert env fuel cfg)).
  unfold Upsert. destruct (Config.validate cfg); [apply keeps_halt; apply _|].
  apply keeps_bind; [apply _ | unfold Config.connect; repeat keeps_step|]. intros res.
  apply keeps_bind; [apply _ | apply keeps_try; apply _|]. intros client.
  apply keeps_bind; [apply _ | apply keeps_log; apply _|]. intros _.
  apply keeps_bind; [apply _| |].
  { unfold Config.repos. generalize 0%nat (@nil Repo).
    induction (Config.DNSList cfg) as [|dns dnss IH]; intros i acc; cbn [Config.reposFrom];
      repeat first [apply IH | keeps_step]. }
  intros res'.
  apply keeps_bind; [apply _ | apply keeps_try; apply _|]. intros repos.
  apply keeps_bind;
    [apply _ | unfold rateLimiterOf; repeat first [apply fixed_newLimiter | keeps_step]|].
  intros lim.
  apply keeps_bind; [apply _| |].
  { apply keeps_range; [apply _|]. intros b x. apply fixed_requestBody. }
  intros [jobs tables].
  unfold truncateBody, startWorkers, awaitDone, commitBody. repeat keeps_step.
Qed.

End Frame.

(** * From requests to jobs *)

Section Jobs.
Context (env : Env) (fuel : nat) (cfg : Config.t).

(** X16.  What [newFetchConfig] makes of a request whose URL joins and
    parses.  It returns a fetch configuration with the client and the
    limiter it was given and the method of the request, holding a URL
    that is a new object: its address was not in use, and neither the
    requests nor the URLs that existed are changed.  In the query of
    that URL every parameter of the request's query map has exactly the
    one value the map gives it, whatever values the joined URL had under
    that name, and every other name has the values of the joined URL;
    with a nil map the URL is the joined URL as parsed. *)
Theorem newFetchConfig_query req client lim st r rawURL uri :
  requests st !! req = Some r ->
  url_JoinPath env (Config.URL cfg) (Request.Endpoint r) = OK rawURL ->
  url_Parse env rawURL = OK uri ->
  let u := fresh (dom (urls st)) in
  exists v,
    newFetchConfig env cfg req client lim st
    = (inl (OK (web.mkFetchConfig client (Request.Method r) u lim)),
       mkStore (requests st) (<[u := v]> (urls st)) (limiters st), [])
    /\ urls st !! u = None
    /\ Rest v = Rest uri
    /\ (forall name value,
          Request.Query r ≫= (fun q => q !! name) = Some value ->
          index (RawQuery v) name = [value])
    /\ (forall name,
          Request.Query r ≫= (fun q => q !! name) = None ->
          index (RawQuery v) name = index (RawQuery uri) name)
    /\ (Request.Query r = None -> v = uri).
Proof.
  intros Hr Hj Hp u.
  rewrite (newFetchConfig_eq env cfg client lim req r st Hr).
  unfold builtURL. rewrite Hj, Hp. cbn zeta. fold u.
  eexists. split; [reflexivity|].
  split; [apply not_elem_of_dom, is_fresh|].
  destruct (Request.Query r) as [q|]; cbn.
  - split; [reflexivity|]. split; [|split; [|discriminate]].
    + intros name value Hn. unfold index, setAll.
      rewrite lookup_union, lookup_fmap, Hn. cbn. by destruct (RawQuery uri !! name).
    + intros name Hn. unfold index, setAll.
      rewrite lookup_union, lookup_fmap, Hn. cbn. by destruct (RawQuery uri !! name).
  - split; [reflexivity|]. split; [discriminate|]. split; [reflexivity|reflexivity].
Qed.

Context (client : option Client) (lim : positive).

(** X17.  An iteration of the loop over the requests for a request with
    a timeseries and a nil query map, the window being read off the URL
    itself.  If planning gives at least one chunk, the write of the
    first boundary is an assignment to an entry of a nil map: the
    goroutine panics.  If it gives no chunk, the iteration goes through,
    adds no job, and still lists the table of the request for
    truncation. *)
Theorem requestBody_nil_query req r ts jobs tables st original ts' :
  requests st !! req = Some r ->
  Request.Timeseries r = Some ts ->
  Request.Query r = None ->
  builtURL env cfg r = OK original ->
  timeseries.setChunks env fuel ts original = (ts', timeseries.Returns None) ->
  let x := requestBody env fuel cfg client lim (jobs, tables) req st in
  (timeseries.chunks ts' <> [] ->
   returned x = inr (Panic "assignment to entry in nil map"))
  /\ (timeseries.chunks ts' = [] ->
      returned x = inl (jobs, tables ++ option_list (Request.Table r))).
Proof.
  intros Hr Hts Hq Hb Hsc. cbn zeta.
  rewrite (requestBody_eq env cfg client lim fuel req r ts jobs tables st Hr Hts).
  rewrite builtURL_defaulted, Hb. cbn zeta. rewrite Hsc.
  destruct (setChunks_fields env _ _ _ _ _ Hsc) as (_ & _ & Hl & _).
  set (r2 := withTimeseries (defaulted r) ts').
  set (st2 := mkStore _ _ _).
  assert (Hr2 : requests st2 !! req = Some r2) by apply lookup_insert_eq.
  assert (Hq2 : Request.Query r2 = None).
  { unfold r2, defaulted. by destruct (decide _). }
  split.
  - intros Hne. destruct (timeseries.chunks ts') as [|c cs]; [done|].
    cbn [range]. rewrite returned_bind, returned_bind.
    rewrite (chunkBody_eq env cfg client lim req r2 ts' _ jobs c st2 Hr2 eq_refl Hl), Hq2.
    reflexivity.
  - intros ->. cbn [range]. rewrite returned_bind. cbn.
    rewrite returned_bind. unfold deref. rewrite Hr2. cbn.
    assert (Ht : Request.Table (defaulted r) = Request.Table r).
    { unfold defaulted. by destruct (decide _). }
    rewrite Ht. destruct (Request.Table r); cbn; [reflexivity | by rewrite app_nil_r].
Qed.

(** The jobs of the chunk loop carry the method and the table of the
    request. *)
Lemma chunk_loop_jobs req ts layout cs : forall jobs r st jobs',
  requests st !! req = Some r ->
  Request.Timeseries r = Some ts ->
  timeseries.Layout ts = Some layout ->
  returned (range cs (chunkBody env cfg req client lim) jobs st) = inl jobs' ->
  exists new,
    jobs' = jobs ++ new
    /\ length new = length cs
    /\ Forall (fun job => table job = Request.Table r
                          /\ web.Method (fetchConfig job) = Request.Method r) new.
Proof.
  induction cs as [|c cs IH]; intros jobs r st jobs' Hr Hts Hl H.
  { injection H as <-. exists []. by rewrite app_nil_r. }
  cbn [range] in H.
  rewrite (bind_silent_any _ _ _ _ (chunkBody_eq env cfg client lim _ _ _ _ _ _ _ Hr Hts Hl))
    in H.
  destruct (Request.Query r) as [q|] eqn:Hq; [|discriminate]. cbn zeta in H.
  destruct (builtURL env cfg _) as [v|err] eqn:Hv; [|discriminate].
  match type of H with
  | context [range cs _ (jobs ++ [?j]) ?s] =>
      set (job := j) in *; set (st1 := s) in *
  end.
  destruct (range cs (chunkBody env cfg req client lim) (jobs ++ [job]) st1)
    as [[res st2] e2] eqn:E.
  unfold returned in H. cbn in H. subst res.
  destruct (IH (jobs ++ [job]) (withQuery r (Some (written env ts c q))) st1 jobs')
    as (new & -> & Hlen & Hnew).
  { apply lookup_insert_eq. } { exact Hts. } { exact Hl. } { by rewrite E. }
  exists (job :: new). split; [by rewrite <- app_assoc|]. split; [cbn; by rewrite Hlen|].
  constructor; [by split | exact Hnew].
Qed.

(** One iteration of the loop over the requests adds the jobs of its
    request: one, or one for each chunk. *)
Lemma requestBody_jobs req jobs tables st jobs' tables' :
  returned (requestBody env fuel cfg client lim (jobs, tables) req st) = inl (jobs', tables') ->
  exists r new,
    requests st !! req = Some r
    /\ jobs' = jobs ++ new
    /\ Forall (fun job => table job = Request.Table r
                          /\ web.Method (fetchConfig job) = Request.Method (defaulted r)) new
    /\ (Request.Timeseries r = None -> length new = 1%nat).
Proof.
  intros H. destruct (requests st !! req) as [r|] eqn:Hr.
  2: { rewrite requestBody_nil in H by done. discriminate. }
  exists r. destruct (Request.Timeseries r) as [ts|] eqn:Hts.
  - rewrite (requestBody_eq env cfg client lim fuel req r ts jobs tables st Hr Hts) in H.
    destruct (builtURL env cfg (defaulted r)) as [original|err]; [|discriminate].
    cbn zeta in H.
    destruct (timeseries.setChunks env fuel ts original) as [ts' ending] eqn:Hsc.
    destruct (setChunks_fields env _ _ _ _ _ Hsc) as (_ & _ & Hl & _).
    destruct ending as [[err|]|]; try discriminate.
    apply bind_inl in H as (jobs1 & Hloop & H).
    eapply chunk_loop_jobs in Hloop as (new & -> & _ & Hnew);
      [|apply lookup_insert_eq | reflexivity | exact Hl].
    exists new. split; [reflexivity|]. split.
    { apply bind_inl in H as (r' & _ & H).
      destruct (Request.Table r'); by injection H as <- _. }
    split; [|discriminate].
    eapply Forall_impl; [exact Hnew|]. cbn. intros job [Ht Hm]. split; [|exact Hm].
    rewrite Ht. unfold defaulted. by destruct (decide _).
  - unfold requestBody in H.
    rewrite (bind_silent _ _ _ _ _ (defaultMethod_eq _ _ _ Hr)) in H.
    assert (Hts' : Request.Timeseries (defaulted r) = None)
      by (unfold defaulted; by destruct (decide _)).
    assert (Ht' : Request.Table (defaulted r) = Request.Table r)
      by (unfold defaulted; by destruct (decide _)).
    destruct (builtURL env cfg (defaulted r)) as [original|err] eqn:Hb.
    2: { erewrite bind_silent in H.
         2: { erewrite newFetchConfig_eq; [|apply lookup_insert_eq]. by rewrite Hb. }
         discriminate. }
    erewrite bind_silent in H.
    2: { erewrite newFetchConfig_eq; [|apply lookup_insert_eq]. by rewrite Hb. }
    cbn [requests urls try] in H. erewrite (bind_silent (ret _)) in H; [|reflexivity].
    erewrite bind_silent in H; [|apply deref_eq; apply lookup_insert_eq].
    rewrite Hts' in H. erewrite (bind_silent (ret _)) in H; [|reflexivity].
    erewrite bind_silent in H; [|apply deref_eq; apply lookup_insert_eq].
    exists [mkFlattenedRequest
              (web.mkFetchConfig client (Request.Method (defaulted r))
                                 (fresh (dom (urls st))) lim)
              (Request.Table (defaulted r))].
    split; [reflexivity|]. split.
    { destruct (Request.Table (defaulted r)); unfold returned in H; cbn in H;
        by injection H as <- _. }
    split; [|reflexivity]. constructor; [|constructor]. by split.
Qed.

Lemma sameRequest_defaulted r r' :
  sameRequest r r' -> Request.Method (defaulted r') = Request.Method (defaulted r).
Proof.
  intros (_ & _ & _ & [Hm | [Hm Hm']] & _); unfold defaulted.
  - rewrite Hm. by repeat destruct (decide _).
  - rewrite Hm, Hm'. by repeat destruct (decide _).
Qed.

(** The jobs of the loop over the requests, request by request, in
    terms of the requests as the loop found them. *)
Lemma plan_groups reqs : forall jobs tables st jobs' tables',
  returned (range reqs (requestBody env fuel cfg client lim) (jobs, tables) st)
  = inl (jobs', tables') ->
  exists groups,
    jobs' = jobs ++ mjoin groups
    /\ Forall2 (fun req group =>
         exists r, requests st !! req = Some r
           /\ Forall (fun job => table job = Request.Table r
                                 /\ web.Method (fetchConfig job)
                                    = Request.Method (defaulted r)) group
           /\ (Request.Timeseries r = None -> length group = 1%nat))
       reqs groups.
Proof.
  induction reqs as [|req reqs IH]; intros jobs tables st jobs' tables' H.
  { injection H as <- _. exists []. split; [by rewrite app_nil_r | constructor]. }
  cbn [range] in H. apply bind_inl in H as ([jobs1 tables1] & H1 & H).
  pose proof (fixed_requestBody env fuel cfg client lim (jobs, tables) req st) as Hfix.
  destruct (requestBody_jobs req jobs tables st jobs1 tables1 H1)
    as (r & new & Hr & -> & Hnew & Hone).
  destruct (IH _ _ _ _ _ H) as (groups & -> & Hgroups).
  exists (new :: groups). split; [cbn; by rewrite app_assoc|].
  constructor; [by exists r|].
  eapply Forall2_impl; [exact Hgroups|]. cbn.
  intros req' group (r1 & Hr1 & Hjobs & Hlen).
  assert (Hx : option_Forall2 sameRequest (requests st !! req') (Some r1))
    by (rewrite <- Hr1; apply Hfix).
  inversion Hx as [r0 ? Hsame Hr0|]; subst. exists r0. split; [done|].
  pose proof (sameRequest_defaulted _ _ Hsame) as Hm.
  destruct Hsame as (_ & _ & Ht & _ & _ & Hts).
  split.
  - eapply Forall_impl; [exact Hjobs|]. cbn. intros job [? ?]. split; congruence.
  - intros Hnone. apply Hlen. rewrite Hnone in Hts. by inversion Hts.
Qed.

End Jobs.

Section JobsOfUpsert.
Context (env : Env) (fuel : nat) (cfg : Config.t).

(** X18.  When [Upsert] returns nil, the jobs it has enqueued are those
    of the requests of the configuration, request by request in the
    order of the requests.  Every job of a request carries the table of
    that request and its method, GET standing for an empty method, as
    the caller passed them.  A request without a timeseries has exactly
    one job. *)
Theorem upsert_jobs_by_request st :
  returned (Upsert env fuel cfg st) = inl tt ->
  exists groups,
    enqueued (trace (Upsert env fuel cfg st)) = mjoin groups
    /\ Forall2 (fun req group =>
         exists r, requests st !! req = Some r
           /\ Forall (fun job => table job = Request.Table r
                                 /\ web.Method (fetchConfig job)
                                    = Request.Method (defaulted r)) group
           /\ (Request.Timeseries r = None -> length group = 1%nat))
       (Config.Requests cfg) groups.
Proof.
  intros Hret.
  destruct (Upsert_follows env fuel cfg st) as (jobs & _ & Hall). cbn zeta in Hall.
  destruct (Hall Hret) as [Hprep ->]. rewrite enqueued_schedule.
  destruct (prepare_plan env fuel cfg st _ _ _ Hprep)
    as (client & lim & st1 & Hreqs & _ & Hplan & _).
  destruct (plan_groups env fuel cfg client lim _ _ _ _ _ _ Hplan) as (groups & -> & H).
  rewrite Hreqs in H. by exists groups.
Qed.

End JobsOfUpsert.

(** X16 on the request for trades, whose endpoint joins and parses. *)
Lemma newFetchConfig_query_witness :
  exists v,
    newFetchConfig Scenario.env (Scenario.config [] [] None false) 2%positive None
                   1%positive Scenario.stored
    = (inl (OK (web.mkFetchConfig None "POST" (fresh (dom (urls Scenario.stored)))
                                  1%positive)),
       mkStore (requests Scenario.stored)
               (<[fresh (dom (urls Scenario.stored)) := v]> (urls Scenario.stored))
               (limiters Scenario.stored),
       []).
Proof.
  destruct (newFetchConfig_query Scenario.env (Scenario.config [] [] None false)
              2%positive None 1%positive Scenario.stored
              Scenario.trades "https://api.test/trades" (mkURL "https://api.test/trades" ∅)
              eq_refl eq_refl eq_refl) as (v & H & _).
  exists v. exact H.
Defined.

(** X17 on a request for candles whose query map is nil, the window
    being given by the URL. *)
Lemma requestBody_nil_query_witness :
  returned (requestBody Scenario.envQuery 5 (Scenario.config [] [] None false) None
                        1%positive ([], []) 3%positive
                        Scenario.storedBare)
  = inr (Panic "assignment to entry in nil map").
Proof.
  apply (proj1 (requestBody_nil_query Scenario.envQuery 5 (Scenario.config [] [] None false)
                  None 1%positive 3%positive Scenario.bare
                  (Scenario.everyMinute None) [] [] Scenario.storedBare
                  Scenario.candlesURL
                  (timeseries.mk "start" "end" 60 (Some RFC3339)
                     [(Scenario.minute 0, Scenario.minute 1);
                      (Scenario.minute 1, Scenario.minute 2);
                      (Scenario.minute 2, Scenario.minute 3)])
                  eq_refl eq_refl eq_refl eq_refl eq_refl)).
  discriminate.
Defined.

(** X18 on the request for trades and one backend. *)
Lemma upsert_jobs_by_request_witness :
  exists groups,
    enqueued (trace (Upsert Scenario.env 0
                       (Scenario.config ["db1"] [2%positive]
                          (Some Scenario.tenPerSecond) false)
                       Scenario.stored))
    = mjoin groups
    /\ length groups = 1%nat.
Proof.
  destruct (upsert_jobs_by_request Scenario.env 0
              (Scenario.config ["db1"] [2%positive] (Some Scenario.tenPerSecond) false)
              Scenario.stored) as (groups & E & H).
  - vm_compute. reflexivity.
  - exists groups. split; [exact E|]. apply Forall2_length in H. by rewrite <- H.
Defined.

(** * The workers *)

Section WorkerFacts.
Import Storage Workers.
Context (wenv : WorkerEnv).

Lemma Fatalf_ends {R : Type} logger format err :
  forall r, fst (Fatalf (R:=R) logger format err) <> Returned r.
Proof. intros r. unfold Fatalf. by destruct logger. Qed.

(** X19.  The closure [repositoryWorker] hands to [Transact] never
    returns an error to the driver that calls it.  It calls [Upsert] on
    the repository once; when that succeeds it writes its line and
    returns nil; when that fails it calls [Fatalf], which ends the
    process, so the return of the wrapped error that follows in the
    source is never reached.  With a nil logger it panics at the line
    it would write. *)
Theorem txfn_never_returns_error (fn : txfn.t) (repo : Repo) :
  (forall err, fst (call wenv fn repo) <> Returned (Some err))
  /\ (exists rest, snd (call wenv fn repo) = EvRepoUpsert repo (txfn.req fn) :: rest
                   /\ Forall (fun ev => forall repo' req', ev <> EvRepoUpsert repo' req') rest)
  /\ (forall rsp, repo_Upsert wenv repo (txfn.req fn) = OK rsp ->
        txfn.logger fn <> None -> fst (call wenv fn repo) = Returned None)
  /\ (forall err, repo_Upsert wenv repo (txfn.req fn) = Fail err ->
        txfn.logger fn <> None ->
        call wenv fn repo
        = (Exited, [EvRepoUpsert repo (txfn.req fn);
                    EvFatalf "error upserting data: %v" err]))
  /\ (txfn.logger fn = None -> fst (call wenv fn repo) = Panicked nilPointer).
Proof.
  unfold call, Fatalf.
  destruct (repo_Upsert wenv repo (txfn.req fn)) as [rsp|err'], (txfn.logger fn); cbn.
  all: repeat split; try done.
  all: try by (intros rsp' [=] || intros err [=]).
  all: try (eexists; split; [reflexivity|]; repeat constructor; done).
  - by intros err [= ->] _.
Qed.

Context (workerID : nat) (cfg : repoConfig.t).

Lemma repositoryWorker_step fuel job rest q cj r d req :
  Encode wenv (repoJob.req job) (repoJob.b job) = OK req ->
  closed d = false -> hasroom d = true ->
  repositoryWorker (S fuel) wenv workerID cfg (mkRepoChans (mkChan (job :: rest) q cj r) d)
  = let '(end_, st, evs) :=
      repositoryWorker fuel wenv workerID cfg
        (mkRepoChans (mkChan rest q cj r)
                     (mkChan (buf d ++ [true]) (dataqsiz d) (closed d) (recvq d))) in
    (end_, st, transactAll workerID cfg (withTable req (repoJob.table job)) ++ evs).
Proof.
  intros He Hc Hr. cbn. rewrite He. unfold chansend. rewrite Hc, Hr. reflexivity.
Qed.

(** The jobs at the head of a queue that can all be encoded, one after
    the other. *)
Lemma repositoryWorker_queue js : forall fuel rest q cj r d reqs,
  Forall2 (fun job req => requestOf wenv job = OK req) js reqs ->
  closed d = false ->
  (length (buf d) + length js <= dataqsiz d + recvq d)%nat ->
  repositoryWorker (length js + fuel) wenv workerID cfg
                   (mkRepoChans (mkChan (js ++ rest) q cj r) d)
  = let '(end_, st, evs) :=
      repositoryWorker fuel wenv workerID cfg
        (mkRepoChans (mkChan rest q cj r)
                     (mkChan (buf d ++ ((fun _ => true) <$> js)) (dataqsiz d) false
                             (recvq d))) in
    (end_, st, mjoin (transactAll workerID cfg <$> reqs) ++ evs).
Proof.
  induction js as [|job js IH]; intros fuel rest q cj r d reqs Hreqs Hc Hroom.
  { apply Forall2_nil_inv_l in Hreqs as ->. cbn [length fmap list_fmap Nat.add app].
    rewrite app_nil_r. destruct d as [db dq dc dr]; cbn in Hc; subst.
    cbn. by destruct (repositoryWorker fuel _ _ _ _) as [[? ?] ?]. }
  apply Forall2_cons_inv_l in Hreqs as (req & reqs' & Hreq & Hreqs & ->).
  unfold requestOf in Hreq.
  destruct (Encode wenv (repoJob.req job) (repoJob.b job)) as [req0|] eqn:He; [|discriminate].
  injection Hreq as <-.
  cbn [length Nat.add app]. rewrite (repositoryWorker_step _ _ _ _ _ _ _ _ He Hc).
  2: { unfold hasroom. apply Nat.ltb_lt. cbn in Hroom. lia. }
  rewrite IH with (reqs := reqs'); [|exact Hreqs | by rewrite Hc |].
  2: { cbn. rewrite length_app. cbn in *. lia. }
  cbn [buf dataqsiz recvq]. rewrite <- app_assoc. cbn [fmap list_fmap app].
  destruct (repositoryWorker fuel _ _ _ _) as [[end_ st] evs]. csimpl.
  by rewrite <- app_assoc.
Qed.

Lemma transacted_app t1 t2 : transacted (t1 ++ t2) = transacted t1 ++ transacted t2.
Proof. apply omap_app. Qed.

Lemma transacted_transactAll req :
  transacted (transactAll workerID cfg req)
  = (fun repo => (repo, proto.Table req)) <$> repoConfig.repos cfg.
Proof.
  unfold transactAll, transacted.
  induction (repoConfig.repos cfg) as [|repo repos IH]; [done|]. csimpl. by rewrite IH.
Qed.

Lemma transacted_queue reqs :
  transacted (mjoin (transactAll workerID cfg <$> reqs))
  = reqs ≫= (fun req => (fun repo => (repo, proto.Table req)) <$> repoConfig.repos cfg).
Proof.
  induction reqs as [|req reqs IH]; [done|]. csimpl.
  by rewrite transacted_app, transacted_transactAll, IH.
Qed.

(** A queue of jobs that can all be encoded is drained. *)
Lemma repositoryWorker_drains js q cj r d reqs fuel :
  Forall2 (fun job req => requestOf wenv job = OK req) js reqs ->
  closed d = false ->
  (length (buf d) + length js <= dataqsiz d + recvq d)%nat ->
  (length js < fuel)%nat ->
  repositoryWorker fuel wenv workerID cfg (mkRepoChans (mkChan js q cj r) d)
  = (if cj then Returned tt else ParkedOnReceive,
     mkRepoChans (mkChan [] q cj r)
                 (mkChan (buf d ++ ((fun _ => true) <$> js)) (dataqsiz d) false (recvq d)),
     mjoin (transactAll workerID cfg <$> reqs)).
Proof.
  intros Hreqs Hc Hroom Hfuel.
  replace fuel with (length js + S (fuel - length js - 1))%nat by lia.
  pose proof (repositoryWorker_queue js (S (fuel - length js - 1)) [] q cj r d reqs
                Hreqs Hc Hroom) as H.
  rewrite app_nil_r in H. rewrite H.
  cbn. destruct cj; cbn; by rewrite app_nil_r.
Qed.

Lemma requestOf_table job req name :
  requestOf wenv job = OK req -> repoJob.table job = Some name -> proto.Table req = name.
Proof.
  unfold requestOf. destruct (Encode _ _ _); [|discriminate].
  intros [= <-] Hname. by rewrite Hname.
Qed.

(** X20.  [repositoryWorker] on a queue of jobs that can all be
    encoded, the done channel open with room for one completion for
    each.  It takes the jobs in the order of the queue.  For each it
    hands one closure to [Transact] on every repository of the
    configuration, in their order, all for the same request: the
    encoded data under the table of the job, or under the table the
    encoder chose when the job names none.  Then it sends one [true] on
    the done channel.  With the queue drained it returns if the channel
    of jobs is closed and is parked on its receive otherwise. *)
Theorem repositoryWorker_flushes js q cj r d reqs fuel :
  Forall2 (fun job req => requestOf wenv job = OK req) js reqs ->
  closed d = false ->
  (length (buf d) + length js <= dataqsiz d + recvq d)%nat ->
  (length js < fuel)%nat ->
  let x := repositoryWorker fuel wenv workerID cfg (mkRepoChans (mkChan js q cj r) d) in
  x = (if cj then Returned tt else ParkedOnReceive,
       mkRepoChans (mkChan [] q cj r)
                   (mkChan (buf d ++ ((fun _ => true) <$> js)) (dataqsiz d) false (recvq d)),
       mjoin (transactAll workerID cfg <$> reqs))
  /\ transacted (snd x)
     = reqs ≫= (fun req => (fun repo => (repo, proto.Table req)) <$> repoConfig.repos cfg)
  /\ Forall2 (fun job req => forall name, repoJob.table job = Some name ->
                                          proto.Table req = name) js reqs.
Proof.
  intros Hreqs Hc Hroom Hfuel x.
  pose proof (repositoryWorker_drains js q cj r d reqs fuel Hreqs Hc Hroom Hfuel) as Hx.
  fold x in Hx. split; [exact Hx|]. split; [rewrite Hx; apply transacted_queue|].
  eapply Forall2_impl; [exact Hreqs|]. cbn. intros job req Hreq name.
  by apply requestOf_table.
Qed.

(** X21.  [repositoryWorker] on a queue in which a job cannot be
    encoded.  The jobs before it are handled as usual, one completion
    each.  For the job itself the worker calls [Fatalf], which ends the
    process (with a nil logger the call panics): no closure is handed
    over for it, no completion is sent for it, and the jobs behind it
    stay in the queue. *)
Theorem repositoryWorker_fatal before bad after q cj r d reqs err fuel :
  Forall2 (fun job req => requestOf wenv job = OK req) before reqs ->
  Encode wenv (repoJob.req bad) (repoJob.b bad) = Fail err ->
  closed d = false ->
  (length (buf d) + length before <= dataqsiz d + recvq d)%nat ->
  (length before < fuel)%nat ->
  repositoryWorker fuel wenv workerID cfg
                   (mkRepoChans (mkChan (before ++ bad :: after) q cj r) d)
  = (match repoConfig.logger cfg with
     | Some _ => Exited
     | None => Panicked nilPointer
     end,
     mkRepoChans (mkChan after q cj r)
                 (mkChan (buf d ++ ((fun _ => true) <$> before)) (dataqsiz d) false
                         (recvq d)),
     mjoin (transactAll workerID cfg <$> reqs)
     ++ match repoConfig.logger cfg with
        | Some _ => [EvFatalf "error encoding response data: %v" err]
        | None => []
        end).
Proof.
  intros Hreqs Hbad Hc Hroom Hfuel.
  replace fuel with (length before + S (fuel - length before - 1))%nat by lia.
  rewrite (repositoryWorker_queue before _ (bad :: after) q cj r d reqs Hreqs Hc Hroom).
  cbn. rewrite Hbad. unfold Fatalf. by destruct (repoConfig.logger cfg).
Qed.

Lemma webWorker_step fuel job rest q cj r chans c ch sent :
  fetched wenv job = OK sent ->
  webWorkerJob.repoJobs job = c ->
  webWorkerJob.logger job <> None ->
  chans !! c = Some ch ->
  closed ch = false -> hasroom ch = true ->
  exists line,
    (forall fc, line <> EvFetch fc)
    /\ webWorker (S fuel) wenv workerID (mkWebChans (mkChan (job :: rest) q cj r) chans)
       = let '(end_, st, evs) :=
           webWorker fuel wenv workerID
             (mkWebChans (mkChan rest q cj r)
                (<[c := mkChan (buf ch ++ [sent]) (dataqsiz ch) false (recvq ch)]> chans)) in
         (end_, st,
          EvFetch (fetchConfig (webWorkerJob.flattenedRequest job))
          :: (match web_Fetch wenv (fetchConfig (webWorkerJob.flattenedRequest job)) with
              | OK rsp => [EvReadAll (http_Response.Body rsp)]
              | Fail _ => []
              end ++ line :: evs)).
Proof.
  intros Hf <- Hl Hch Hc Hr. unfold fetched in Hf. cbn.
  destruct (web_Fetch wenv _) as [rsp|] eqn:E; [|discriminate].
  destruct (io_ReadAll wenv _) as [bytes|]; [|discriminate]. injection Hf as <-.
  rewrite Hch. unfold chansend. rewrite Hc, Hr. cbn [closed].
  destruct (webWorkerJob.logger job); [|done].
  eexists. split; [|reflexivity]. done.
Qed.

Lemma fetches_app t1 t2 : fetches (t1 ++ t2) = fetches t1 ++ fetches t2.
Proof. apply omap_app. Qed.

(** The jobs at the head of a queue that can all be fetched and read,
    one after the other, all for the channel at [c]. *)
Lemma webWorker_queue ws : forall fuel rest q cj r chans c ch sent,
  Forall2 (fun job rj => fetched wenv job = OK rj) ws sent ->
  Forall (fun job => webWorkerJob.repoJobs job = c /\ webWorkerJob.logger job <> None) ws ->
  chans !! c = Some ch ->
  closed ch = false ->
  (length (buf ch) + length ws <= dataqsiz ch + recvq ch)%nat ->
  exists evs0,
    fetches evs0 = (fun job => fetchConfig (webWorkerJob.flattenedRequest job)) <$> ws
    /\ webWorker (length ws + fuel) wenv workerID
                 (mkWebChans (mkChan (ws ++ rest) q cj r) chans)
       = let '(end_, st, evs) :=
           webWorker fuel wenv workerID
             (mkWebChans (mkChan rest q cj r)
                (<[c := mkChan (buf ch ++ sent) (dataqsiz ch) false (recvq ch)]> chans)) in
         (end_, st, evs0 ++ evs).
Proof.
  induction ws as [|job ws IH]; intros fuel rest q cj r chans c ch sent Hsent Hjobs Hch Hc Hroom.
  { apply Forall2_nil_inv_l in Hsent as ->. exists []. split; [done|].
    cbn [length Nat.add app]. rewrite app_nil_r.
    assert (mkChan (buf ch) (dataqsiz ch) false (recvq ch) = ch) as ->
      by (destruct ch; cbn in *; by subst).
    rewrite insert_id by done. by destruct (webWorker fuel _ _ _) as [[? ?] ?]. }
  apply Forall2_cons_inv_l in Hsent as (rj & sent' & Hrj & Hsent & ->).
  apply Forall_cons in Hjobs as [[Hc' Hl] Hjobs].
  destruct (webWorker_step (length ws + fuel) job (ws ++ rest) q cj r chans c ch rj
              Hrj Hc' Hl Hch Hc) as (line & Hline & Hstep).
  { unfold hasroom. apply Nat.ltb_lt. cbn in Hroom. lia. }
  destruct (IH fuel rest q cj r
              (<[c := mkChan (buf ch ++ [rj]) (dataqsiz ch) false (recvq ch)]> chans)
              c (mkChan (buf ch ++ [rj]) (dataqsiz ch) false (recvq ch)) sent'
              Hsent Hjobs) as (evs0 & Hevs0 & Hrest).
  { apply lookup_insert_eq. } { reflexivity. }
  { cbn. rewrite length_app. cbn in *. lia. }
  cbn [length Nat.add app]. rewrite Hstep, Hrest. cbn [buf dataqsiz recvq].
  rewrite insert_insert_eq, <- app_assoc. cbn [app].
  exists ([EvFetch (fetchConfig (webWorkerJob.flattenedRequest job))]
          ++ (match web_Fetch wenv (fetchConfig (webWorkerJob.flattenedRequest job)) with
              | OK rsp => [EvReadAll (http_Response.Body rsp)]
              | Fail _ => []
              end ++ line :: evs0)).
  split.
  - assert (Hskip : fetches (line :: evs0) = fetches evs0).
    { destruct line; try reflexivity. by edestruct Hline. }
    rewrite (fetches_app [EvFetch _]), fetches_app, Hskip, Hevs0. csimpl. f_equal.
    by destruct (web_Fetch wenv _).
  - match goal with |- context [webWorker fuel ?a ?b ?st] =>
      destruct (webWorker fuel a b st) as [[end_ st'] evs] end.
    cbn. do 2 f_equal. by rewrite <- app_assoc.
Qed.

(** A queue of jobs that can all be fetched and read is drained. *)
Lemma webWorker_drains ws q cj r chans c ch sent fuel :
  Forall2 (fun job rj => fetched wenv job = OK rj) ws sent ->
  Forall (fun job => webWorkerJob.repoJobs job = c /\ webWorkerJob.logger job <> None) ws ->
  chans !! c = Some ch ->
  closed ch = false ->
  (length (buf ch) + length ws <= dataqsiz ch + recvq ch)%nat ->
  (length ws < fuel)%nat ->
  let x := webWorker fuel wenv workerID (mkWebChans (mkChan ws q cj r) chans) in
  fst (fst x) = (if cj then Returned tt else ParkedOnReceive)
  /\ snd (fst x)
     = mkWebChans (mkChan [] q cj r)
                  (<[c := mkChan (buf ch ++ sent) (dataqsiz ch) false (recvq ch)]> chans)
  /\ fetches (snd x)
     = (fun job => fetchConfig (webWorkerJob.flattenedRequest job)) <$> ws.
Proof.
  intros Hsent Hjobs Hch Hc Hroom Hfuel x.
  destruct (webWorker_queue ws (S (fuel - length ws - 1)) [] q cj r chans c ch sent
              Hsent Hjobs Hch Hc Hroom) as (evs0 & Hevs0 & Hrun).
  rewrite app_nil_r in Hrun.
  replace (length ws + S (fuel - length ws - 1))%nat with fuel in Hrun by lia.
  unfold x. rewrite Hrun. cbn.
  split; [by destruct cj|]. split; [by destruct cj|].
  destruct cj; cbn; by rewrite app_nil_r.
Qed.

Lemma fetched_table job rj :
  fetched wenv job = OK rj ->
  repoJob.table rj = table (webWorkerJob.flattenedRequest job).
Proof.
  unfold fetched. destruct (web_Fetch wenv _); [|discriminate].
  destruct (io_ReadAll wenv _); [|discriminate]. by intros [= <-].
Qed.

(** X22.  [webWorker] on a queue of jobs that can all be fetched and
    read, all pointing to one open channel of repository jobs with room
    for them, their logger not nil.  It takes the jobs in the order of
    the queue and calls [web.Fetch] once for each, with the fetch
    configuration of the job.  For each it sends one repository job on
    that channel, in the same order: the request and the bytes of the
    response, under the table of the flattened request.  With the queue
    drained it returns if its channel is closed and is parked on its
    receive otherwise. *)
Theorem webWorker_forwards ws q cj r chans c ch sent fuel :
  Forall2 (fun job rj => fetched wenv job = OK rj) ws sent ->
  Forall (fun job => webWorkerJob.repoJobs job = c /\ webWorkerJob.logger job <> None) ws ->
  chans !! c = Some ch ->
  closed ch = false ->
  (length (buf ch) + length ws <= dataqsiz ch + recvq ch)%nat ->
  (length ws < fuel)%nat ->
  let x := webWorker fuel wenv workerID (mkWebChans (mkChan ws q cj r) chans) in
  fst (fst x) = (if cj then Returned tt else ParkedOnReceive)
  /\ snd (fst x)
     = mkWebChans (mkChan [] q cj r)
                  (<[c := mkChan (buf ch ++ sent) (dataqsiz ch) false (recvq ch)]> chans)
  /\ fetches (snd x)
     = (fun job => fetchConfig (webWorkerJob.flattenedRequest job)) <$> ws
  /\ Forall2 (fun job rj => repoJob.table rj = table (webWorkerJob.flattenedRequest job))
             ws sent.
Proof.
  intros Hsent Hjobs Hch Hc Hroom Hfuel x.
  destruct (webWorker_drains ws q cj r chans c ch sent fuel Hsent Hjobs Hch Hc Hroom Hfuel)
    as (H1 & H2 & H3).
  split; [exact H1|]. split; [exact H2|]. split; [exact H3|].
  eapply Forall2_impl; [exact Hsent|]. cbn. intros job rj. apply fetched_table.
Qed.

(** X23.  [webWorker] on a queue in which a job cannot be fetched or
    its body cannot be read.  The jobs before it are forwarded as
    usual.  For the job itself the worker calls [Fatal] with the error,
    which ends the process: that is the last thing it does, nothing is
    sent for the job, and the jobs behind it stay in the queue. *)
Theorem webWorker_fatal before bad after q cj r chans c ch sent err fuel :
  Forall2 (fun job rj => fetched wenv job = OK rj) before sent ->
  Forall (fun job => webWorkerJob.repoJobs job = c /\ webWorkerJob.logger job <> None)
         before ->
  fetched wenv bad = Fail err ->
  webWorkerJob.logger bad <> None ->
  chans !! c = Some ch ->
  closed ch = false ->
  (length (buf ch) + length before <= dataqsiz ch + recvq ch)%nat ->
  (length before < fuel)%nat ->
  let x := webWorker fuel wenv workerID
                     (mkWebChans (mkChan (before ++ bad :: after) q cj r) chans) in
  fst (fst x) = Exited
  /\ snd (fst x)
     = mkWebChans (mkChan after q cj r)
                  (<[c := mkChan (buf ch ++ sent) (dataqsiz ch) false (recvq ch)]> chans)
  /\ last (snd x) = Some (EvFatal err)
  /\ fetches (snd x)
     = (fun job => fetchConfig (webWorkerJob.flattenedRequest job)) <$> (before ++ [bad]).
Proof.
  intros Hsent Hjobs Hbad Hl Hch Hc Hroom Hfuel x.
  destruct (webWorker_queue before (S (fuel - length before - 1)) (bad :: after) q cj r
              chans c ch sent Hsent Hjobs Hch Hc Hroom) as (evs0 & Hevs0 & Hrun).
  replace (length before + S (fuel - length before - 1))%nat with fuel in Hrun by lia.
  unfold x. rewrite Hrun. clear Hrun. cbn. unfold fetched in Hbad. unfold Fatal.
  destruct (webWorkerJob.logger bad); [|done].
  destruct (web_Fetch wenv _) as [rsp|err1].
  - destruct (io_ReadAll wenv _) as [bytes|err2]; [discriminate|]. injection Hbad as ->.
    cbn. split; [done|]. split; [done|]. split.
    + by rewrite last_app.
    + rewrite fetches_app, Hevs0, fmap_app. reflexivity.
  - injection Hbad as ->. cbn. split; [done|]. split; [done|]. split.
    + by rewrite last_app.
    + rewrite fetches_app, Hevs0, fmap_app. reflexivity.
Qed.

End WorkerFacts.

Section Pipeline.
Import Storage Workers.
Context (wenv : WorkerEnv).

Lemma completions {A B : Type} (l : list A) (k : list B) :
  length l = length k -> (fun _ => true) <$> l = (fun _ => true) <$> k.
Proof.
  revert k. induction l as [|x l IH]; intros [|y k] Hlen; try done.
  csimpl. f_equal. apply IH. by injection Hlen.
Qed.

(** X24.  The two workers, one after the other, on the channels
    [Upsert] makes.  The web jobs [Upsert] makes of its flattened
    requests are queued, there is at least one repository, every fetch,
    read and encoding succeeds, and the logger is not nil.  A web
    worker then puts one repository job for each flattened request on
    the channel of repository jobs, which has room for all of them, and
    is parked.  A repository worker started on that channel drains it,
    hands every request to every repository, sends one completion for
    each flattened request on the done channel, which has room for all
    of them, and is parked: nobody closes its channel.  A flattened
    request that names a table has its data upserted under that
    table. *)
Theorem workers_pipeline cfg client c flattened repos q r sent reqs webID repoID fuel :
  let ws := jobOf cfg client c <$> flattened in
  Config.Logger cfg <> None ->
  repos <> [] ->
  Forall2 (fun job rj => fetched wenv job = OK rj) ws sent ->
  Forall2 (fun rj req => requestOf wenv rj = OK req) sent reqs ->
  (length flattened < fuel)%nat ->
  let web := webWorker fuel wenv webID
               (mkWebChans (mkChan ws q false r) {[ c := repoJobCh flattened repos ]}) in
  let queued := mkChan sent (length flattened * length repos) false 0 in
  let rep := repositoryWorker fuel wenv repoID
               (repoConfig.mk repos (Config.Logger cfg) (Config.Truncate cfg))
               (mkRepoChans queued (doneCh flattened)) in
  fst (fst web) = ParkedOnReceive
  /\ repoJobChans (snd (fst web)) !! c = Some queued
  /\ fst (fst rep) = ParkedOnReceive
  /\ buf (jobs (snd (fst rep))) = []
  /\ buf (done (snd (fst rep))) = (fun _ => true) <$> flattened
  /\ transacted (snd rep)
     = reqs ≫= (fun req => (fun repo => (repo, proto.Table req)) <$> repos)
  /\ Forall2 (fun fr req => forall name, table fr = Some name -> proto.Table req = name)
             flattened reqs.
Proof.
  intros ws Hlog Hrepos Hsent Hreqs Hfuel web queued rep.
  assert (Hws : length ws = length flattened) by (unfold ws; by rewrite length_fmap).
  pose proof (Forall2_length _ _ _ Hsent) as Hlen1.
  pose proof (Forall2_length _ _ _ Hreqs) as Hlen2.
  assert (Hcap : (length flattened <= length flattened * length repos)%nat).
  { destruct repos; [done|]. cbn [length]. nia. }
  destruct (webWorker_drains wenv webID ws q false r {[ c := repoJobCh flattened repos ]}
              c (repoJobCh flattened repos) sent fuel Hsent)
    as (W1 & W2 & _).
  { unfold ws. apply Forall_fmap, Forall_forall. by intros fr _. }
  { apply lookup_singleton_eq. } { reflexivity. }
  { cbn. lia. } { lia. }
  fold web in W1, W2.
  pose proof (repositoryWorker_drains wenv repoID
                (repoConfig.mk repos (Config.Logger cfg) (Config.Truncate cfg))
                sent (length flattened * length repos)%nat false 0 (doneCh flattened)
                reqs fuel Hreqs eq_refl) as R.
  fold queued in R. fold rep in R. rewrite R by (cbn; lia).
  split; [exact W1|]. split; [rewrite W2; cbn; apply lookup_insert_eq|].
  split; [reflexivity|]. split; [reflexivity|].
  split; [cbn; apply completions; lia|].
  split; [cbn [snd]; apply transacted_queue|].
  clear -Hsent Hreqs. subst ws. revert sent reqs Hsent Hreqs.
  induction flattened as [|fr frs IH]; intros sent reqs Hsent Hreqs.
  { apply Forall2_nil_inv_l in Hsent as ->. apply Forall2_nil_inv_l in Hreqs as ->.
    constructor. }
  csimpl in Hsent.
  apply Forall2_cons_inv_l in Hsent as (rj & sent' & Hrj & Hsent & ->).
  apply Forall2_cons_inv_l in Hreqs as (req & reqs' & Hreq & Hreqs & ->).
  constructor; [|by apply (IH sent')].
  intros name Hname. apply (requestOf_table wenv rj req name Hreq).
  by rewrite (fetched_table wenv _ rj Hrj).
Qed.

End Pipeline.

(** X19 on a request for the table candles, which can be written. *)
Lemma txfn_never_returns_error_witness :
  fst (Workers.call WorkerScenario.wenv
         (Workers.txfn.mk 1 (Workers.proto.mkUpsertRequest "candles" [Byte.x01])
                          (Some StandardLogger))
         (mkRepo 0 "db1"))
  = Workers.Returned None.
Proof.
  apply (proj1 (proj2 (proj2 (txfn_never_returns_error WorkerScenario.wenv
                  (Workers.txfn.mk 1 (Workers.proto.mkUpsertRequest "candles" [Byte.x01])
                                   (Some StandardLogger))
                  (mkRepo 0 "db1"))))
           (Workers.proto.mkUpsertResponse 1 0)).
  - reflexivity.
  - discriminate.
Defined.

(** X20 on two jobs and two repositories: four closures, two
    completions. *)
Lemma repositoryWorker_flushes_witness :
  let x := Workers.repositoryWorker 3 WorkerScenario.wenv 1 WorkerScenario.twoRepos
             (Workers.mkRepoChans
                (Storage.mkChan [WorkerScenario.forCandles; WorkerScenario.unnamed]
                                2 false 0)
                (Storage.mkChan [] 2 false 0)) in
  Workers.transacted (snd x)
  = [(mkRepo 0 "db1", "candles"); (mkRepo 1 "db2", "candles");
     (mkRepo 0 "db1", "encoded"); (mkRepo 1 "db2", "encoded")]
  /\ Storage.buf (Workers.done (snd (fst x))) = [true; true].
Proof.
  cbn zeta.
  destruct (repositoryWorker_flushes WorkerScenario.wenv 1 WorkerScenario.twoRepos
              [WorkerScenario.forCandles; WorkerScenario.unnamed] 2 false 0
              (Storage.mkChan [] 2 false 0)
              [Workers.proto.mkUpsertRequest "candles" [Byte.x01];
               Workers.proto.mkUpsertRequest "encoded" [Byte.x02]] 3)
    as (Hx & Ht & _).
  - repeat constructor.
  - reflexivity.
  - cbn. lia.
  - cbn. lia.
  - split; [exact Ht|]. cbn zeta in Hx. by rewrite Hx.
Defined.

(** X21 on a queue whose second job has no data. *)
Lemma repositoryWorker_fatal_witness :
  Workers.repositoryWorker 3 WorkerScenario.wenv 1 WorkerScenario.twoRepos
    (Workers.mkRepoChans
       (Storage.mkChan [WorkerScenario.forCandles; WorkerScenario.empty;
                        WorkerScenario.unnamed] 3 false 0)
       (Storage.mkChan [] 3 false 0))
  = (Workers.Exited,
     Workers.mkRepoChans (Storage.mkChan [WorkerScenario.unnamed] 3 false 0)
                         (Storage.mkChan [true] 3 false 0),
     Workers.transactAll 1 WorkerScenario.twoRepos
                         (Workers.proto.mkUpsertRequest "candles" [Byte.x01])
     ++ [Workers.EvFatalf "error encoding response data: %v" (ErrExternal "no data")]).
Proof.
  apply (repositoryWorker_fatal WorkerScenario.wenv 1 WorkerScenario.twoRepos
           [WorkerScenario.forCandles] WorkerScenario.empty [WorkerScenario.unnamed]
           3 false 0 (Storage.mkChan [] 3 false 0)
           [Workers.proto.mkUpsertRequest "candles" [Byte.x01]]
           (ErrExternal "no data") 3).
  - repeat constructor.
  - reflexivity.
  - reflexivity.
  - cbn. lia.
  - cbn. lia.
Defined.

(** X22 on the job for candles. *)
Lemma webWorker_forwards_witness :
  let x := Workers.webWorker 2 WorkerScenario.wenv 1
             (Workers.mkWebChans
                (Storage.mkChan [Workers.jobOf WorkerScenario.cfg None 1%positive
                                               WorkerScenario.getCandles] 1 false 0)
                {[ 1%positive := Storage.mkChan [] 1 false 0 ]}) in
  fst (fst x) = Workers.ParkedOnReceive
  /\ Workers.fetches (snd x) = [fetchConfig WorkerScenario.getCandles].
Proof.
  cbn zeta.
  destruct (webWorker_forwards WorkerScenario.wenv 1
              [Workers.jobOf WorkerScenario.cfg None 1%positive WorkerScenario.getCandles]
              1 false 0 {[ 1%positive := Storage.mkChan [] 1 false 0 ]} 1%positive
              (Storage.mkChan [] 1 false 0)
              [Workers.repoJob.mk WorkerScenario.request [Byte.x01] (Some "candles")] 2)
    as (H1 & _ & H3 & _).
  - repeat constructor.
  - repeat constructor. discriminate.
  - reflexivity.
  - reflexivity.
  - cbn. lia.
  - cbn. lia.
  - split; [exact H1 | exact H3].
Defined.

(** X23 on a queue whose second job is refused by the server. *)
Lemma webWorker_fatal_witness :
  let x := Workers.webWorker 2 WorkerScenario.wenv 1
             (Workers.mkWebChans
                (Storage.mkChan [Workers.jobOf WorkerScenario.cfg None 1%positive
                                               WorkerScenario.getCandles;
                                 Workers.jobOf WorkerScenario.cfg None 1%positive
                                               WorkerScenario.postTrades] 2 false 0)
                {[ 1%positive := Storage.mkChan [] 2 false 0 ]}) in
  fst (fst x) = Workers.Exited
  /\ last (snd x) = Some (Workers.EvFatal (ErrExternal "method not allowed")).
Proof.
  cbn zeta.
  destruct (webWorker_fatal WorkerScenario.wenv 1
              [Workers.jobOf WorkerScenario.cfg None 1%positive WorkerScenario.getCandles]
              (Workers.jobOf WorkerScenario.cfg None 1%positive WorkerScenario.postTrades)
              [] 2 false 0 {[ 1%positive := Storage.mkChan [] 2 false 0 ]} 1%positive
              (Storage.mkChan [] 2 false 0)
              [Workers.repoJob.mk WorkerScenario.request [Byte.x01] (Some "candles")]
              (ErrExternal "method not allowed") 2)
    as (H1 & _ & H3 & _).
  - repeat constructor.
  - repeat constructor. discriminate.
  - reflexivity.
  - discriminate.
  - reflexivity.
  - reflexivity.
  - cbn. lia.
  - cbn. lia.
  - split; [exact H1 | exact H3].
Defined.

(** X24 on one flattened request and one repository. *)
Lemma workers_pipeline_witness :
  let rep := Workers.repositoryWorker 2 WorkerScenario.wenv 1
               (Workers.repoConfig.mk [mkRepo 0 "db1"] (Some StandardLogger) false)
               (Workers.mkRepoChans
                  (Storage.mkChan
                     [Workers.repoJob.mk WorkerScenario.request [Byte.x01] (Some "candles")]
                     1 false 0)
                  (Workers.doneCh [WorkerScenario.getCandles])) in
  Storage.buf (Workers.done (snd (fst rep))) = [true]
  /\ Workers.transacted (snd rep) = [(mkRepo 0 "db1", "candles")].
Proof.
  cbn zeta.
  destruct (workers_pipeline WorkerScenario.wenv WorkerScenario.cfg None 1%positive
              [WorkerScenario.getCandles] [mkRepo 0 "db1"] 1 0
              [Workers.repoJob.mk WorkerScenario.request [Byte.x01] (Some "candles")]
              [Workers.proto.mkUpsertRequest "candles" [Byte.x01]] 1 1 2)
    as (_ & _ & _ & _ & H5 & H6 & _).
  - discriminate.
  - discriminate.
  - repeat constructor.
  - repeat constructor.
  - cbn. lia.
  - split; [exact H5 | exact H6].
Defined.
